(** * DiffEngine: line pairing, modification detection, blocks and statistics

    A shallow embedding of the [DiffEngine] class (the text comparison core of
    the file-compare application) together with the properties of its
    specification.

    The engine delegates the actual sequence alignment to the jsdiff library
    ([Diff.diffLines], [Diff.diffChars]), which is not part of the
    repository: both are parameters of the development.  Everything else
    ([splitLines], [processDiff], [detectModifications], [computeCharDiff],
    [groupDiffBlocks], [getStats], [compare]) is transcribed from the class.

    JavaScript objects that are shared and mutated in place (the line objects,
    reachable both from [result.left] / [result.right] and from the pairs)
    are modelled with an explicit store: [result.left] and [result.right] are
    the stores of the two sides, and a pair refers to a line by its index in
    the store of its side. *)

From Stdlib Require Import String Ascii.
From stdpp Require Import base list strings.

Local Open Scope string_scope.
Local Open Scope list_scope.
Local Open Scope nat_scope.

(** ** Data model *)

(** The string tags ['unchanged'], ['added'], ['removed'], ['modified']. *)
Inductive LineType := Unchanged | Added | Removed | Modified.

#[global] Instance LineType_eq_dec : EqDecision LineType.
Proof. solve_decision. Defined.

(** One entry of a character diff: [{ text, type }]. *)
Record CharSpan := mkCharSpan { span_text : string; span_type : LineType }.

(** A line object [{ lineNum, content, type }]; [charDiff] is a property
    that is only added by [detectModifications] ([None]: absent).  Line
    numbers are natural numbers (the counters of [processDiff] only count
    up from 1). *)
Record Line := mkLine {
  lineNum : nat;
  content : string;
  type : LineType;
  charDiff : option (list CharSpan)
}.

(** A pair [{ left, right }]: each side is [null] or a reference to a line
    object of that side; [merged] is absent (falsy) until set. *)
Record Pair := mkPair {
  p_left : option nat;
  p_right : option nat;
  p_merged : bool
}.

(** The object [{ left, right, pairs }] built by [processDiff]. *)
Record DiffResult := mkResult {
  r_left : list Line;
  r_right : list Line;
  r_pairs : list Pair
}.

(** A change object of jsdiff: [{ value, added, removed }]. *)
Record Part := mkPart { value : string; added : bool; removed : bool }.

(** A block [{ startIndex, endIndex, pairs }]. *)
Record Block := mkBlock {
  startIndex : nat;
  endIndex : nat;
  b_pairs : list Pair
}.

Record Stats := mkStats {
  s_added : nat;
  s_removed : nat;
  s_modified : nat;
  s_unchanged : nat;
  totalDiffs : nat;
  s_leftLines : nat;
  s_rightLines : nat
}.

(** The fields of a [DiffEngine] instance.  [diffResult] starts as an empty
    array, which is not a result object: [None]. [enableCharDiff] is only
    created by [processDiff] (absent is falsy). *)
Record DiffEngine := mkEngine {
  leftLines : list string;
  rightLines : list string;
  diffResult : option DiffResult;
  diffBlocks : list Block;
  maxLinesForCharDiff : nat;
  enableCharDiff : bool
}.

(** [constructor()] *)
Definition new_DiffEngine : DiffEngine :=
  {| leftLines := []; rightLines := []; diffResult := None; diffBlocks := [];
     maxLinesForCharDiff := 5000; enableCharDiff := false |}.

(** ** Line splitting *)

Definition LF : ascii := "010"%char.
Definition CR : ascii := "013"%char.
Definition nl : string := String LF "".
Definition crlf : string := String CR (String LF "").

(** [s.split(/\r?\n/)]: the pieces of [s] between the matches of the pattern,
    scanning from the left; a carriage return is part of a separator only when
    a line feed follows it.  The result is never empty. *)
Fixpoint split_newline (s : string) : list string :=
  match s with
  | EmptyString => [""]
  | String c rest =>
      if Ascii.eqb c LF then "" :: split_newline rest
      else
        match rest with
        | String c' rest' =>
            if Ascii.eqb c CR && Ascii.eqb c' LF then "" :: split_newline rest'
            else
              match split_newline rest with
              | piece :: pieces => String c piece :: pieces
              | [] => [String c ""]
              end
        | EmptyString => [String c ""]
        end
  end.

(** [splitLines(text)]; [None] is an absent ([null] / [undefined]) argument,
    which is falsy like the empty string. *)
Definition splitLines (text : option string) : list string :=
  match text with
  | None => []
  | Some "" => []
  | Some s => split_newline s
  end.

(** ** Pairing ([processDiff], first phase) *)

(** [if (lines[lines.length - 1] === '') lines.pop()] *)
Definition pop_last_empty (lines : list string) : list string :=
  match last lines with
  | Some "" => removelast lines
  | _ => lines
  end.

(** The lines of one part: [part.value.split(/\r?\n/)], with the last
    element popped when it is the empty string. *)
Definition part_lines (part : Part) : list string :=
  pop_last_empty (split_newline (value part)).

(** The mutable locals of [processDiff]. *)
Record PairingState := mkPairing {
  ps_result : DiffResult;
  leftLineNum : nat;
  rightLineNum : nat
}.

(** The body of the inner [lines.forEach]. *)
Definition push_line (part : Part) (st : PairingState) (line : string)
  : PairingState :=
  let res := ps_result st in
  if added part then
    let right' := r_right res ++ [mkLine (rightLineNum st) line Added None] in
    {| ps_result :=
         {| r_left := r_left res;
            r_right := right';
            r_pairs := r_pairs res ++ [mkPair None (Some (length right' - 1)) false] |};
       leftLineNum := leftLineNum st;
       rightLineNum := S (rightLineNum st) |}
  else if removed part then
    let left' := r_left res ++ [mkLine (leftLineNum st) line Removed None] in
    {| ps_result :=
         {| r_left := left';
            r_right := r_right res;
            r_pairs := r_pairs res ++ [mkPair (Some (length left' - 1)) None false] |};
       leftLineNum := S (leftLineNum st);
       rightLineNum := rightLineNum st |}
  else
    let leftLine := mkLine (leftLineNum st) line Unchanged None in
    let rightLine := mkLine (rightLineNum st) line Unchanged None in
    {| ps_result :=
         {| r_left := r_left res ++ [leftLine];
            r_right := r_right res ++ [rightLine];
            r_pairs := r_pairs res ++
              [mkPair (Some (length (r_left res))) (Some (length (r_right res))) false] |};
       leftLineNum := S (leftLineNum st);
       rightLineNum := S (rightLineNum st) |}.

(** The body of the outer [diff.forEach]. *)
Definition push_part (st : PairingState) (part : Part) : PairingState :=
  fold_left (push_line part) (part_lines part) st.

Definition pairing_init : PairingState :=
  {| ps_result := {| r_left := []; r_right := []; r_pairs := [] |};
     leftLineNum := 1; rightLineNum := 1 |}.

(** [processDiff] up to the call of [detectModifications]. *)
Definition pair_lines (diff : list Part) : DiffResult :=
  ps_result (fold_left push_part diff pairing_init).

(** ** Helpers on references *)

(** Dereferencing one side of a pair in the store of that side. *)
Definition deref (store : list Line) (ref : option nat) : option Line :=
  ref ≫= (store !!.).

(** [side && side.type === t] *)
Definition type_is (t : LineType) (store : list Line) (ref : option nat) : bool :=
  match deref store ref with
  | Some line => bool_decide (type line = t)
  | None => false
  end.

(** [side && side.type !== t] *)
Definition type_is_not (t : LineType) (store : list Line) (ref : option nat) : bool :=
  match deref store ref with
  | Some line => bool_decide (type line ≠ t)
  | None => false
  end.

Definition present (ref : option nat) : bool :=
  match ref with Some _ => true | None => false end.

(** [pair.left && !pair.right] *)
Definition left_only (p : Pair) : bool := present (p_left p) && negb (present (p_right p)).

(** [!pair.left && pair.right] *)
Definition right_only (p : Pair) : bool := negb (present (p_left p)) && present (p_right p).

Definition set_type (t : LineType) (line : Line) : Line :=
  {| lineNum := lineNum line; content := content line; type := t;
     charDiff := charDiff line |}.

Definition set_charDiff (cd : list CharSpan) (line : Line) : Line :=
  {| lineNum := lineNum line; content := content line; type := type line;
     charDiff := Some cd |}.

Definition set_right (r : option nat) (p : Pair) : Pair :=
  {| p_left := p_left p; p_right := r; p_merged := p_merged p |}.

Definition set_merged (p : Pair) : Pair :=
  {| p_left := p_left p; p_right := p_right p; p_merged := true |}.

(** [while (i < pairs.length && cond(pairs[i])) i++], run on the pairs from
    index [i] on ([rest]); the loop does not modify anything but [i]. *)
Fixpoint run_end (cond : Pair → bool) (rest : list Pair) (i : nat) : nat :=
  match rest with
  | p :: rest' => if cond p then run_end cond rest' (S i) else i
  | [] => i
  end.

Section Engine.

(** [Diff.diffLines(l, r, { ignoreWhitespace: false, newlineIsToken: true })]
    and [Diff.diffChars(l, r)] of the jsdiff library. *)
Variable diffLines : string → string → list Part.
Variable diffChars : string → string → list Part.

(** ** Character diff *)

Definition char_step (acc : list CharSpan * list CharSpan) (part : Part)
  : list CharSpan * list CharSpan :=
  let '(leftParts, rightParts) := acc in
  if added part then
    (leftParts, rightParts ++ [mkCharSpan (value part) Added])
  else if removed part then
    (leftParts ++ [mkCharSpan (value part) Removed], rightParts)
  else
    (leftParts ++ [mkCharSpan (value part) Unchanged],
     rightParts ++ [mkCharSpan (value part) Unchanged]).

Definition computeCharDiff (leftLine rightLine : string)
  : list CharSpan * list CharSpan :=
  fold_left char_step (diffChars leftLine rightLine) ([], []).

(** ** Modification detection *)

(** The body of the [for] loop, at index [j].  The last case stands for the
    dereference of a [null] side, which fails in JavaScript; on the pairs
    that [processDiff] builds both sides are present at every iteration
    (lemma [merge_at_state]). *)
Definition merge_at (enable : bool) (removedStart addedStart : nat)
    (res : DiffResult) (j : nat) : DiffResult :=
  let removedIdx := removedStart + j in
  let addedIdx := addedStart + j in
  match r_pairs res !! removedIdx ≫= p_left, r_pairs res !! addedIdx ≫= p_right with
  | Some l, Some r =>
      let left1 := alter (set_type Modified) l (r_left res) in
      let right1 := alter (set_type Modified) r (r_right res) in
      let '(left2, right2) :=
        if enable then
          match left1 !! l, right1 !! r with
          | Some ll, Some rl =>
              let cd := computeCharDiff (content ll)
                          (if bool_decide (type rl = Modified) then content rl else "") in
              (alter (set_charDiff cd.1) l left1, alter (set_charDiff cd.2) r right1)
          | _, _ => (left1, right1)
          end
        else (left1, right1) in
      let pairs1 := alter (set_right (Some r)) removedIdx (r_pairs res) in
      let pairs2 := alter set_merged addedIdx pairs1 in
      {| r_left := left2; r_right := right2; r_pairs := pairs2 |}
  | _, _ => res
  end.

(** One iteration of the [while] loop of [detectModifications], started at
    index [i < pairs.length]: the new state and the new value of [i].  The
    first case is not reached under the guard of the loop. *)
Definition detect_body (enable : bool) (res : DiffResult) (i : nat)
  : DiffResult * nat :=
  let pairs := r_pairs res in
  match pairs !! i with
  | None => (res, i)
  | Some p =>
      if left_only p && type_is Removed (r_left res) (p_left p) then
        let removedStart := i in
        let i1 := run_end left_only (drop i pairs) i in
        let removedEnd := i1 - 1 in
        match pairs !! i1 with
        | Some q =>
            if right_only q && type_is Added (r_right res) (p_right q) then
              let addedStart := i1 in
              let i2 := run_end right_only (drop i1 pairs) i1 in
              let addedEnd := i2 - 1 in
              let removedCount := removedEnd - removedStart + 1 in
              let addedCount := addedEnd - addedStart + 1 in
              let minCount := removedCount `min` addedCount in
              (fold_left (merge_at enable removedStart addedStart) (seq 0 minCount) res,
               i2)
            else (res, i1)
        | None => (res, i1)
        end
      else (res, S i)
  end.

(** The [while (i < pairs.length)] loop; [None] when the fuel runs out. *)
Fixpoint detect_loop (fuel : nat) (enable : bool) (res : DiffResult) (i : nat)
  : option DiffResult :=
  if decide (i < length (r_pairs res)) then
    match fuel with
    | 0 => None
    | S fuel' =>
        let '(res', i') := detect_body enable res i in
        detect_loop fuel' enable res' i'
    end
  else Some res.

(** [detectModifications(result)]: the loop, then
    [result.pairs = pairs.filter(p => !p.merged)].  Every iteration advances
    [i], so as many iterations as there are pairs are enough. *)
Definition detectModifications (e : DiffEngine) (result : DiffResult)
  : option DiffResult :=
  res ← detect_loop (length (r_pairs result)) (enableCharDiff e) result 0;
  Some {| r_left := r_left res; r_right := r_right res;
          r_pairs := filter (λ p, p_merged p = false) (r_pairs res) |}.

Definition set_enableCharDiff (b : bool) (e : DiffEngine) : DiffEngine :=
  {| leftLines := leftLines e; rightLines := rightLines e;
     diffResult := diffResult e; diffBlocks := diffBlocks e;
     maxLinesForCharDiff := maxLinesForCharDiff e; enableCharDiff := b |}.

(** [processDiff(diff, enableCharDiff)] *)
Definition processDiff (e : DiffEngine) (diff : list Part) (enable : bool)
  : option (DiffEngine * DiffResult) :=
  let e' := set_enableCharDiff enable e in
  res ← detectModifications e' (pair_lines diff);
  Some (e', res).

(** ** Blocks *)

Definition isDiff (res : DiffResult) (pr : Pair) : bool :=
  type_is_not Unchanged (r_left res) (p_left pr)
  || type_is_not Unchanged (r_right res) (p_right pr).

(** The callback of [diffResult.pairs.forEach((pair, index) => ...)], on the
    locals [blocks] and [currentBlock]. *)
Definition block_step (res : DiffResult) (st : list Block * option Block)
    (ip : nat * Pair) : list Block * option Block :=
  let '(blocks, currentBlock) := st in
  let '(index, pr) := ip in
  if isDiff res pr then
    let cur := match currentBlock with
               | Some b => b
               | None => {| startIndex := index; endIndex := index; b_pairs := [] |}
               end in
    (blocks, Some {| startIndex := startIndex cur; endIndex := index;
                     b_pairs := b_pairs cur ++ [pr] |})
  else
    match currentBlock with
    | Some b => (blocks ++ [b], None)
    | None => (blocks, None)
    end.

Definition groupDiffBlocks (res : DiffResult) : list Block :=
  let '(blocks, currentBlock) :=
    fold_left (block_step res) (zip (seq 0 (length (r_pairs res))) (r_pairs res))
              ([], None) in
  match currentBlock with
  | Some b => blocks ++ [b]
  | None => blocks
  end.

(** ** Statistics *)

Record Counters := mkCounters {
  c_added : nat; c_removed : nat; c_modified : nat; c_unchanged : nat
}.

(** The callback of the [forEach] of [getStats]. *)
Definition stats_step (res : DiffResult) (c : Counters) (pr : Pair) : Counters :=
  if present (p_left pr) && present (p_right pr) then
    if type_is Modified (r_left res) (p_left pr) then
      {| c_added := c_added c; c_removed := c_removed c;
         c_modified := S (c_modified c); c_unchanged := c_unchanged c |}
    else
      {| c_added := c_added c; c_removed := c_removed c;
         c_modified := c_modified c; c_unchanged := S (c_unchanged c) |}
  else if present (p_left pr) then
    {| c_added := c_added c; c_removed := S (c_removed c);
       c_modified := c_modified c; c_unchanged := c_unchanged c |}
  else if present (p_right pr) then
    {| c_added := S (c_added c); c_removed := c_removed c;
       c_modified := c_modified c; c_unchanged := c_unchanged c |}
  else c.

(** [getStats()]; [None] when there is no result object yet (reading
    [pairs.forEach] of the initial empty array fails). *)
Definition getStats (e : DiffEngine) : option Stats :=
  res ← diffResult e;
  let c := fold_left (stats_step res) (r_pairs res) (mkCounters 0 0 0 0) in
  Some {| s_added := c_added c; s_removed := c_removed c;
          s_modified := c_modified c; s_unchanged := c_unchanged c;
          totalDiffs := length (diffBlocks e);
          s_leftLines := length (leftLines e);
          s_rightLines := length (rightLines e) |}.

Definition getDiffBlocks (e : DiffEngine) : list Block := diffBlocks e.

Definition getResult (e : DiffEngine) : option DiffResult := diffResult e.

(** ** The entry point *)

(** [compare(leftText, rightText)]: the engine after the call and the value
    returned. *)
Definition compare (e : DiffEngine) (leftText rightText : string)
  : option (DiffEngine * DiffResult) :=
  let leftLines' := splitLines (Some leftText) in
  let rightLines' := splitLines (Some rightText) in
  let e1 := {| leftLines := leftLines'; rightLines := rightLines';
               diffResult := diffResult e; diffBlocks := diffBlocks e;
               maxLinesForCharDiff := maxLinesForCharDiff e;
               enableCharDiff := enableCharDiff e |} in
  let totalLines := length leftLines' + length rightLines' in
  let diff := diffLines leftText rightText in
  '(e2, res) ← processDiff e1 diff (bool_decide (totalLines < maxLinesForCharDiff e1));
  Some ({| leftLines := leftLines e2; rightLines := rightLines e2;
           diffResult := Some res; diffBlocks := groupDiffBlocks res;
           maxLinesForCharDiff := maxLinesForCharDiff e2;
           enableCharDiff := enableCharDiff e2 |}, res).

End Engine.

(** ** Notions used to state the properties *)

(** No piece contains a line feed. *)
Fixpoint has_LF (s : string) : bool :=
  match s with
  | EmptyString => false
  | String c rest => Ascii.eqb c LF || has_LF rest
  end.

(** The pieces joined again, with one line feed between two pieces. *)
Fixpoint join_lines (pieces : list string) : string :=
  match pieces with
  | [] => ""
  | [piece] => piece
  | piece :: rest => piece +:+ nl +:+ join_lines rest
  end.

(** The text with every CRLF separator replaced by LF. *)
Fixpoint normalize_crlf (s : string) : string :=
  match s with
  | EmptyString => ""
  | String c rest =>
      match rest with
      | String c' rest' =>
          if Ascii.eqb c CR && Ascii.eqb c' LF then String LF (normalize_crlf rest')
          else String c (normalize_crlf rest)
      | EmptyString => String c ""
      end
  end.

Fixpoint count_LF (s : string) : nat :=
  match s with
  | EmptyString => 0
  | String c rest => (if Ascii.eqb c LF then 1 else 0) + count_LF rest
  end.

(** The number of pieces of [text.split(/\r?\n/)], and no piece for the
    empty text: [splitLines(text).length] in closed form. *)
Definition piece_count (text : string) : nat :=
  if decide (text = "") then 0 else S (count_LF text).

(** The line sequence of a text in the words of section 4.1 of the
    specification: the text is split at CRLF and LF, and the empty piece
    that a trailing terminator (or the empty text) leaves is not a line. *)
Definition spec_lines (text : string) : list string :=
  pop_last_empty (split_newline text).

(** What [groupDiffBlocks] guarantees for one of its blocks, for a test [d]
    on the pairs: the block lies in the sequence, holds the pairs from
    [startIndex] to [endIndex], all of them pass the test, and the pair
    before [startIndex] does not (when there is one). *)
Definition block_run (d : Pair → bool) (pairs : list Pair) (b : Block) : Prop :=
  startIndex b ≤ endIndex b < length pairs ∧
  b_pairs b = take (S (endIndex b - startIndex b)) (drop (startIndex b) pairs) ∧
  (∀ k p, startIndex b ≤ k ≤ endIndex b → pairs !! k = Some p → d p = true) ∧
  (∀ k p, S k = startIndex b → pairs !! k = Some p → d p = false).

(** The pair after the block does not pass the test (when there is one). *)
Definition block_closed (d : Pair → bool) (pairs : list Pair) (b : Block) : Prop :=
  ∀ p, pairs !! S (endIndex b) = Some p → d p = false.

(** Blocks in ascending order with at least one pair between two blocks. *)
Definition blocks_separated (blocks : list Block) : Prop :=
  ∀ i j b1 b2, i < j → blocks !! i = Some b1 → blocks !! j = Some b2 →
    S (endIndex b1) < startIndex b2.

(** Every pair that passes the test lies in a block. *)
Definition blocks_cover (d : Pair → bool) (pairs : list Pair) (blocks : list Block)
  : Prop :=
  ∀ k p, pairs !! k = Some p → d p = true →
    ∃ b, b ∈ blocks ∧ startIndex b ≤ k ≤ endIndex b.

(** ** The pairing as a function of the tagged lines *)

(** The three branches of the body of [lines.forEach]. *)
Inductive Tag := TAdded | TRemoved | TCommon.

#[global] Instance Tag_eq_dec : EqDecision Tag.
Proof. solve_decision. Defined.

Definition part_tag (part : Part) : Tag :=
  if added part then TAdded else if removed part then TRemoved else TCommon.

(** The lines of a diff in the order in which the two nested [forEach]
    visit them, each with the branch it takes. *)
Definition diff_rows (diff : list Part) : list (Tag * string) :=
  diff ≫= (λ part, (λ line, (part_tag part, line)) <$> part_lines part).

Definition on_left (row : Tag * string) : bool :=
  match row.1 with TAdded => false | _ => true end.

Definition on_right (row : Tag * string) : bool :=
  match row.1 with TRemoved => false | _ => true end.

(** The lines of the two texts as the diff presents them. *)
Definition left_contents (rows : list (Tag * string)) : list string :=
  snd <$> filter (λ row, on_left row = true) rows.

Definition right_contents (rows : list (Tag * string)) : list string :=
  snd <$> filter (λ row, on_right row = true) rows.

(** The line objects pushed on [result.left] for the rows, when [nl] lines
    are there already. *)
Fixpoint build_left (rows : list (Tag * string)) (nl : nat) : list Line :=
  match rows with
  | [] => []
  | (TAdded, _) :: rest => build_left rest nl
  | (TRemoved, s) :: rest => mkLine (S nl) s Removed None :: build_left rest (S nl)
  | (TCommon, s) :: rest => mkLine (S nl) s Unchanged None :: build_left rest (S nl)
  end.

Fixpoint build_right (rows : list (Tag * string)) (nr : nat) : list Line :=
  match rows with
  | [] => []
  | (TAdded, s) :: rest => mkLine (S nr) s Added None :: build_right rest (S nr)
  | (TRemoved, _) :: rest => build_right rest nr
  | (TCommon, s) :: rest => mkLine (S nr) s Unchanged None :: build_right rest (S nr)
  end.

(** The pairs pushed on [result.pairs] for the rows. *)
Fixpoint build_pairs (rows : list (Tag * string)) (nl nr : nat) : list Pair :=
  match rows with
  | [] => []
  | (TAdded, _) :: rest => mkPair None (Some nr) false :: build_pairs rest nl (S nr)
  | (TRemoved, _) :: rest => mkPair (Some nl) None false :: build_pairs rest (S nl) nr
  | (TCommon, _) :: rest =>
      mkPair (Some nl) (Some nr) false :: build_pairs rest (S nl) (S nr)
  end.

(** The state of the scanning loop of [detectModifications] when the pairs
    [Pd] (with the lines [Ld] and [Rd]) are behind the index and the pairs of
    [rows] are still as the pairing left them. *)
Definition scan_state (Ld Rd : list Line) (Pd : list Pair)
    (rows : list (Tag * string)) : DiffResult :=
  {| r_left := Ld ++ build_left rows (length Ld);
     r_right := Rd ++ build_right rows (length Rd);
     r_pairs := Pd ++ build_pairs rows (length Ld) (length Rd) |}.

(** ** Chunks: what one pass of the scanning loop consumes *)

(** A common line, or a run of removed lines followed by a run of added
    lines (either run may be empty). *)
Inductive Chunk :=
  | Common (s : string)
  | Change (ss ts : list string).

Definition chunk_rows (c : Chunk) : list (Tag * string) :=
  match c with
  | Common s => [(TCommon, s)]
  | Change ss ts => ((λ s, (TRemoved, s)) <$> ss) ++ ((λ t, (TAdded, t)) <$> ts)
  end.

Definition chunks_rows (chunks : list Chunk) : list (Tag * string) :=
  chunks ≫= chunk_rows.

Definition starts_with (t : Tag) (rows : list (Tag * string)) : bool :=
  match rows with
  | (t', _) :: _ => bool_decide (t' = t)
  | [] => false
  end.

(** The runs of a change chunk are maximal in front of [rest]. *)
Definition chunk_maximal (c : Chunk) (rest : list (Tag * string)) : Prop :=
  match c with
  | Common _ => True
  | Change ss ts =>
      ss ≠ [] →
      starts_with TAdded rest = false ∧
      (ts = [] → starts_with TRemoved rest = false)
  end.

Fixpoint chunks_maximal (chunks : list Chunk) : Prop :=
  match chunks with
  | [] => True
  | c :: rest => chunk_maximal c (chunks_rows rest) ∧ chunks_maximal rest
  end.

(** The chunks of a row sequence, with maximal runs. *)
Fixpoint chunks_of (rows : list (Tag * string)) : list Chunk :=
  match rows with
  | [] => []
  | (TCommon, s) :: rest => Common s :: chunks_of rest
  | (TRemoved, s) :: rest =>
      match chunks_of rest with
      | Change ss ts :: chunks => Change (s :: ss) ts :: chunks
      | chunks => Change [s] [] :: chunks
      end
  | (TAdded, t) :: rest =>
      match chunks_of rest with
      | Change [] ts :: chunks => Change [] (t :: ts) :: chunks
      | chunks => Change [] [t] :: chunks
      end
  end.

Definition left_count (c : Chunk) : nat :=
  match c with Common _ => 1 | Change ss _ => length ss end.

Definition right_count (c : Chunk) : nat :=
  match c with Common _ => 1 | Change _ ts => length ts end.

(** ** The result of the scanning loop, chunk by chunk *)

Section Outputs.

Variable diffChars : string → string → list Part.
Variable enable : bool.

(** The [charDiff] that a merged removed line [s] and a merged added line
    [t] receive. *)
Definition char_left (s t : string) : option (list CharSpan) :=
  if enable then Some (computeCharDiff diffChars s t).1 else None.

Definition char_right (s t : string) : option (list CharSpan) :=
  if enable then Some (computeCharDiff diffChars s t).2 else None.

(** The [k]-th removed line of a change chunk whose added lines are [ts]
    (the first [nl] left lines come before the chunk). *)
Definition rem_line (nl : nat) (ts : list string) (k : nat) (s : string) : Line :=
  match ts !! k with
  | Some t => mkLine (S (nl + k)) s Modified (char_left s t)
  | None => mkLine (S (nl + k)) s Removed None
  end.

(** The [k]-th added line of a change chunk whose removed lines are [ss]. *)
Definition add_line (nr : nat) (ss : list string) (k : nat) (t : string) : Line :=
  match ss !! k with
  | Some s => mkLine (S (nr + k)) t Modified (char_right s t)
  | None => mkLine (S (nr + k)) t Added None
  end.

(** The pair of the [k]-th removed line: it receives the [k]-th added line
    when there is one. *)
Definition rem_pair (nl nr : nat) (ts : list string) (k : nat) (s : string) : Pair :=
  mkPair (Some (nl + k))
         (match ts !! k with Some _ => Some (nr + k) | None => None end) false.

(** The pair of the [k]-th added line: it is marked as merged when there
    is a [k]-th removed line. *)
Definition add_pair (nr : nat) (ss : list string) (k : nat) (t : string) : Pair :=
  mkPair None (Some (nr + k))
         (match ss !! k with Some _ => true | None => false end).

Definition chunk_left (c : Chunk) (nl : nat) : list Line :=
  match c with
  | Common s => [mkLine (S nl) s Unchanged None]
  | Change ss ts => imap (rem_line nl ts) ss
  end.

Definition chunk_right (c : Chunk) (nr : nat) : list Line :=
  match c with
  | Common s => [mkLine (S nr) s Unchanged None]
  | Change ss ts => imap (add_line nr ss) ts
  end.

(** The pairs of a chunk when the loop has passed it, the merged ones
    included. *)
Definition chunk_pairs (c : Chunk) (nl nr : nat) : list Pair :=
  match c with
  | Common s => [mkPair (Some nl) (Some nr) false]
  | Change ss ts => imap (rem_pair nl nr ts) ss ++ imap (add_pair nr ss) ts
  end.

Fixpoint out_left (chunks : list Chunk) (nl : nat) : list Line :=
  match chunks with
  | [] => []
  | c :: rest => chunk_left c nl ++ out_left rest (nl + left_count c)
  end.

Fixpoint out_right (chunks : list Chunk) (nr : nat) : list Line :=
  match chunks with
  | [] => []
  | c :: rest => chunk_right c nr ++ out_right rest (nr + right_count c)
  end.

Fixpoint out_pairs (chunks : list Chunk) (nl nr : nat) : list Pair :=
  match chunks with
  | [] => []
  | c :: rest =>
      chunk_pairs c nl nr ++ out_pairs rest (nl + left_count c) (nr + right_count c)
  end.

End Outputs.

(** The state of the [for] loop of [detectModifications] before iteration
    [j], on a change chunk with removed lines [ss] and added lines [ts]
    placed between [Ld]/[Rd]/[Pd] and [Lrest]/[Rrest]/[Prest]. *)
Definition merge_state (diffChars : string → string → list Part) (enable : bool)
    (Ld Rd : list Line) (Pd : list Pair) (ss ts : list string)
    (Lrest Rrest : list Line) (Prest : list Pair) (j : nat) : DiffResult :=
  {| r_left := Ld ++ imap (rem_line diffChars enable (length Ld) (take j ts)) ss ++ Lrest;
     r_right := Rd ++ imap (add_line diffChars enable (length Rd) (take j ss)) ts ++ Rrest;
     r_pairs := Pd ++ imap (rem_pair (length Ld) (length Rd) (take j ts)) ss
                   ++ imap (add_pair (length Rd) (take j ss)) ts ++ Prest |}.

(** The number of iterations of the scanning loop on a chunk. *)
Definition chunk_iters (c : Chunk) : nat :=
  match c with
  | Common _ => 1
  | Change [] ts => length ts
  | Change (_ :: _) _ => 1
  end.

Fixpoint chunks_iters (chunks : list Chunk) : nat :=
  match chunks with
  | [] => 0
  | c :: rest => chunk_iters c + chunks_iters rest
  end.

(** The chunks of [chunks_of]: no chunk is empty, an added run is never
    followed by an added line, and a removed run without added run is never
    followed by a removed line. *)
Definition chunk_strict (c : Chunk) (rest : list (Tag * string)) : Prop :=
  match c with
  | Common _ => True
  | Change ss ts =>
      (ss ≠ [] ∨ ts ≠ []) ∧
      starts_with TAdded rest = false ∧
      (ts = [] → starts_with TRemoved rest = false)
  end.

Fixpoint chunks_strict (chunks : list Chunk) : Prop :=
  match chunks with
  | [] => True
  | c :: rest => chunk_strict c (chunks_rows rest) ∧ chunks_strict rest
  end.

(** The pairs of a chunk that survive the final [filter]. *)
Definition chunk_live (c : Chunk) (nl nr : nat) : list Pair :=
  match c with
  | Common s => [mkPair (Some nl) (Some nr) false]
  | Change ss ts =>
      imap (rem_pair nl nr ts) ss ++ drop (length ss) (imap (add_pair nr ss) ts)
  end.

Fixpoint out_live (chunks : list Chunk) (nl nr : nat) : list Pair :=
  match chunks with
  | [] => []
  | c :: rest =>
      chunk_live c nl nr ++ out_live rest (nl + left_count c) (nr + right_count c)
  end.

(** The four shapes of a pair of the final result, with respect to the two
    stores: an unchanged line on both sides, a removed line merged with an
    added line, a removed line alone, an added line alone. *)
Inductive final_pair (diffChars : string → string → list Part) (enable : bool)
    (L R : list Line) : Pair → Prop :=
  | final_unchanged s a b :
      L !! a = Some (mkLine (S a) s Unchanged None) →
      R !! b = Some (mkLine (S b) s Unchanged None) →
      final_pair diffChars enable L R (mkPair (Some a) (Some b) false)
  | final_modified s t a b :
      L !! a = Some (mkLine (S a) s Modified (char_left diffChars enable s t)) →
      R !! b = Some (mkLine (S b) t Modified (char_right diffChars enable s t)) →
      final_pair diffChars enable L R (mkPair (Some a) (Some b) false)
  | final_removed s a :
      L !! a = Some (mkLine (S a) s Removed None) →
      final_pair diffChars enable L R (mkPair (Some a) None false)
  | final_added t b :
      R !! b = Some (mkLine (S b) t Added None) →
      final_pair diffChars enable L R (mkPair None (Some b) false).

(** The result of [processDiff] for the chunks of the diff. *)
Definition chunks_result (diffChars : string → string → list Part)
    (enable : bool) (chunks : list Chunk) : DiffResult :=
  {| r_left := out_left diffChars enable chunks 0;
     r_right := out_right diffChars enable chunks 0;
     r_pairs := filter (λ p, p_merged p = false) (out_pairs chunks 0 0) |}.

(** The two sides of a pair, dereferenced. *)
Definition left_line (res : DiffResult) (p : Pair) : option Line :=
  deref (r_left res) (p_left p).

Definition right_line (res : DiffResult) (p : Pair) : option Line :=
  deref (r_right res) (p_right p).

(** ** Notions used to state the properties of a result *)

(** A present side refers to a line of the store of its side. *)
Definition side_valid (store : list Line) (ref : option nat) : bool :=
  match ref with
  | Some i => bool_decide (is_Some (store !! i))
  | None => true
  end.

(** The invariant of a pair: at least one side; two sides of which none is
    modified are unchanged with the same content; when one side is modified
    the other one is too. *)
Definition pair_invariant (res : DiffResult) (p : Pair) : bool :=
  match left_line res p, right_line res p with
  | None, None => false
  | Some a, Some b =>
      if bool_decide (type a = Modified) || bool_decide (type b = Modified)
      then bool_decide (type a = Modified) && bool_decide (type b = Modified)
      else bool_decide (type a = Unchanged) && bool_decide (type b = Unchanged)
           && bool_decide (content a = content b)
  | _, _ => true
  end.

(** A diff pair: a present side with a kind other than unchanged, or exactly
    one side present. *)
Definition diff_pair (res : DiffResult) (p : Pair) : bool :=
  type_is_not Unchanged (r_left res) (p_left p)
  || type_is_not Unchanged (r_right res) (p_right p)
  || xorb (present (p_left p)) (present (p_right p)).

(** Both sides present and unchanged. *)
Definition fully_unchanged (res : DiffResult) (p : Pair) : bool :=
  type_is Unchanged (r_left res) (p_left p)
  && type_is Unchanged (r_right res) (p_right p).

Definition count_pairs (f : Pair → bool) (pairs : list Pair) : nat :=
  length (filter (λ p, f p = true) pairs).

(** A pair with a modified side has both sides, each with a [charDiff]. *)
Definition modified_has_charDiff (res : DiffResult) (p : Pair) : bool :=
  match left_line res p, right_line res p with
  | Some a, Some b =>
      if bool_decide (type a = Modified) || bool_decide (type b = Modified)
      then bool_decide (is_Some (charDiff a)) && bool_decide (is_Some (charDiff b))
      else true
  | Some a, None => bool_decide (type a ≠ Modified)
  | None, Some b => bool_decide (type b ≠ Modified)
  | None, None => true
  end.

(** Both sides present, unchanged, with the same content. *)
Definition same_unchanged (res : DiffResult) (p : Pair) : bool :=
  match left_line res p, right_line res p with
  | Some a, Some b =>
      bool_decide (type a = Unchanged) && bool_decide (type b = Unchanged)
      && bool_decide (content a = content b)
  | _, _ => false
  end.

Definition is_common (part : Part) : bool := negb (added part) && negb (removed part).

(** ** The two texts in the parts of a diff *)

(** The values of the parts whose lines go to the left side, and of those
    whose lines go to the right side. *)
Definition left_values (diff : list Part) : list string :=
  value <$> filter (λ part, added part = false) diff.

Definition right_values (diff : list Part) : list string :=
  value <$> filter (λ part, added part || negb (removed part) = true) diff.

Fixpoint ends_with_LF (s : string) : bool :=
  match s with
  | EmptyString => false
  | String c rest =>
      match rest with
      | EmptyString => Ascii.eqb c LF
      | _ => ends_with_LF rest
      end
  end.

(** ** The modification merge, as the specification describes it *)

Definition ends_with (t : Tag) (rows : list (Tag * string)) : bool :=
  match last rows with
  | Some (t', _) => bool_decide (t' = t)
  | None => false
  end.

(** The two sides of a pair of a result. *)
Definition pair_view (res : DiffResult) (p : Pair) : option Line * option Line :=
  (left_line res p, right_line res p).

(** Following the specification: what a run of removed lines [ss]
    immediately followed by a run of added lines [ts] becomes, when [nl]
    left lines and [nr] right lines precede it.  The first
    [min (length ss) (length ts)] lines of the two runs are merged index by
    index into modified pairs; the excess lines of the longer run follow as
    pairs of their own, with their kind. *)
Definition merged_run (diffChars : string → string → list Part) (enable : bool)
    (nl nr : nat) (ss ts : list string) : list (option Line * option Line) :=
  let m := length ss `min` length ts in
  imap (λ k st, (Some (mkLine (S (nl + k)) st.1 Modified
                         (char_left diffChars enable st.1 st.2)),
                 Some (mkLine (S (nr + k)) st.2 Modified
                         (char_right diffChars enable st.1 st.2))))
       (zip ss ts)
  ++ imap (λ k s, (Some (mkLine (S (nl + m + k)) s Removed None), None)) (drop m ss)
  ++ imap (λ k t, (None, Some (mkLine (S (nr + m + k)) t Added None))) (drop m ts).

(** ** Invariants of the two [forEach] loops *)

(** The state of the [forEach] of [groupDiffBlocks] after the pairs [ps]. *)
Definition blocks_inv (res : DiffResult) (ps : list Pair)
    (st : list Block * option Block) : Prop :=
  let d := isDiff res in
  (∀ b, b ∈ st.1 → block_run d ps b ∧ block_closed d ps b ∧ S (endIndex b) < length ps) ∧
  blocks_separated st.1 ∧
  match st.2 with
  | None =>
      (∀ p, last ps = Some p → d p = false) ∧
      blocks_cover d ps st.1
  | Some c =>
      block_run d ps c ∧ S (endIndex c) = length ps ∧
      (∀ b, b ∈ st.1 → S (endIndex b) < startIndex c) ∧
      blocks_cover d ps (st.1 ++ [c])
  end.

(** The counters of [processDiff] are one more than the number of lines
    pushed on their side. *)
Definition counters_ok (st : PairingState) : Prop :=
  leftLineNum st = S (length (r_left (ps_result st))) ∧
  rightLineNum st = S (length (r_right (ps_result st))).

Definition push_rows (st : PairingState) (rows : list (Tag * string)) : PairingState :=
  let res := ps_result st in
  {| ps_result :=
       {| r_left := r_left res ++ build_left rows (length (r_left res));
          r_right := r_right res ++ build_right rows (length (r_right res));
          r_pairs := r_pairs res
                     ++ build_pairs rows (length (r_left res)) (length (r_right res)) |};
     leftLineNum := leftLineNum st + length (left_contents rows);
     rightLineNum := rightLineNum st + length (right_contents rows) |}.

(** ** Sample diffs *)

(** A diff that reports the whole left text as removed and the whole right
    text as added, and a character diff of the same kind. *)
Definition replace_all_diff (l r : string) : list Part :=
  [mkPart l false true; mkPart r true false].

(** A diff that reports the left text as common to both sides; the diff of
    a text with itself. *)
Definition same_text_diff (l r : string) : list Part := [mkPart l false false].

(** The parts that a line diff with the line feeds as tokens of their own
    (the option [newlineIsToken] that [compare] sets) reports for
    ["a\nb\nc"] and ["a\nx\nc"]: the tokens are [a], the line feed, [b]
    or [x], the line feed and [c], so the common part after the change
    begins with the line feed. *)
Definition newline_token_diff (l r : string) : list Part :=
  [mkPart ("a" +:+ nl) false false; mkPart "b" false true;
   mkPart "x" true false; mkPart (nl +:+ "c") false false].

(** A diff with three separate changes: a removed line, an added line, and
    a removed line followed by an added line, with common lines between
    them. *)
Definition three_changes_diff (l r : string) : list Part :=
  [mkPart ("a" +:+ nl) false true; mkPart ("b" +:+ nl) false false;
   mkPart ("c" +:+ nl) true false; mkPart ("d" +:+ nl) false false;
   mkPart ("e" +:+ nl) false true; mkPart ("f" +:+ nl) true false].

(** A text of [n] empty lines, each ended by a line feed. *)
Fixpoint empty_lines (n : nat) : string :=
  match n with
  | 0 => ""
  | S n' => String LF (empty_lines n')
  end.

(** A diff made of whole lines for a text of 2499 lines against a text of
    2500 lines: the first line is replaced, 2498 empty lines are common, and
    one empty line is added at the end. *)
Definition long_texts_diff (l r : string) : list Part :=
  [mkPart ("b" +:+ nl) false true; mkPart ("x" +:+ nl) true false;
   mkPart (empty_lines 2498) false false; mkPart nl true false].

(** ** Notions used to state further properties *)

(** The spans of the [charDiff] of a line, when it has one, add up to the
    content of the line. *)
Definition spans_cover (line : Line) : Prop :=
  match charDiff line with
  | Some spans => String.concat "" (span_text <$> spans) = content line
  | None => True
  end.

(** The pairs held by the blocks pushed so far and by the open block of the
    [forEach] of [groupDiffBlocks], in order. *)
Definition blocks_flat (st : list Block * option Block) : list Pair :=
  concat (b_pairs <$> st.1)
  ++ match st.2 with Some b => b_pairs b | None => [] end.

(** No left-only pair is directly followed by a right-only pair: the
    scanning loop of [detectModifications] finds nothing to merge. *)
Definition settled (pairs : list Pair) : Prop :=
  ∀ i p q, pairs !! i = Some p → pairs !! S i = Some q →
    left_only p = true → right_only q = false.

(** No removed line of the diff is directly followed by an added line. *)
Fixpoint no_merge (rows : list (Tag * string)) : bool :=
  match rows with
  | [] => true
  | row :: rest =>
      negb (bool_decide (row.1 = TRemoved) && starts_with TAdded rest)
      && no_merge rest
  end.

(** The number of merges in a chunk: the removed lines that find an added
    line. *)
Definition merge_count (c : Chunk) : nat :=
  match c with
  | Common _ => 0
  | Change ss ts => length ss `min` length ts
  end.

Definition merges (chunks : list Chunk) : nat :=
  foldr (λ c n, merge_count c + n) 0 chunks.

(** What the modification-detection pass may do to a line of the pairing:
    nothing, or turn a line of type [t] into a modified line; the line
    number and the content stay. *)
Definition retyped (t : LineType) (before after : Line) : Prop :=
  lineNum after = lineNum before ∧
  content after = content before ∧
  (after = before ∨ (type before = t ∧ type after = Modified)).

Definition count_type (t : LineType) (lines : list Line) : nat :=
  length (filter (λ line, type line = t) lines).

(** * The application: navigation and filtering over the engine

    The parts of the [FileCompareApp] class that read the blocks and the
    pairs of the engine.  The DOM is left out: of [navigateDiff] the model
    keeps the update of [currentDiffIndex] and the block that is scrolled
    to, of [handleSelectionChange] the indices that are highlighted, of the
    rendering methods the rows that are appended to the display. *)

(** The fields of the application that these methods use.
    [currentDiffIndex] is a number or [undefined]; the numbers that occur
    (indices, and the directions [1] and [-1] of the callers) are
    integers. *)
Record App := mkApp {
  diffEngine : DiffEngine;
  currentFilter : string;
  currentDiffIndex : option Z
}.

(** What a call of [navigateDiff] does: it returns at once when there is no
    block; it scrolls to a block; or [blocks[this.currentDiffIndex]] is
    undefined and reading [block.startIndex] throws. *)
Inductive Navigation :=
  | NoBlocks
  | Shown (b : Block)
  | NoSuchBlock.

(** [blocks[index]] for a number [index]. *)
Definition block_at (blocks : list Block) (index : Z) : option Block :=
  if decide (0 ≤ index)%Z then blocks !! Z.to_nat index else None.

(** The value that [navigateDiff] assigns to [currentDiffIndex] when there
    are [len] blocks: the first navigation goes to the first or to the last
    block; a later one moves by [direction] and wraps around at both ends. *)
Definition next_index (len : Z) (cur : option Z) (direction : Z) : Z :=
  let first_index := if decide (0 < direction)%Z then 0%Z else (len - 1)%Z in
  match cur with
  | None => first_index
  | Some cur =>
      if decide (cur < 0)%Z then first_index
      else
        let next := (cur + direction)%Z in
        if decide (next < 0)%Z then (len - 1)%Z
        else if decide (len ≤ next)%Z then 0%Z
        else next
  end.

(** [navigateDiff(direction)]: the application after the call and what the
    call did. *)
Definition navigateDiff (app : App) (direction : Z) : App * Navigation :=
  let blocks := getDiffBlocks (diffEngine app) in
  if decide (length blocks = 0) then (app, NoBlocks) else
  let index := next_index (Z.of_nat (length blocks)) (currentDiffIndex app) direction in
  let app' := {| diffEngine := diffEngine app; currentFilter := currentFilter app;
                 currentDiffIndex := Some index |} in
  match block_at blocks index with
  | Some b => (app', Shown b)
  | None => (app', NoSuchBlock)
  end.

(** [shouldShowPair(pair)], for a pair of the result [res]. *)
Definition shouldShowPair (app : App) (res : DiffResult) (pr : Pair) : bool :=
  if decide (currentFilter app = "all") then true
  else
    let isDiff := type_is_not Unchanged (r_left res) (p_left pr)
                  || type_is_not Unchanged (r_right res) (p_right pr)
                  || negb (present (p_left pr))
                  || negb (present (p_right pr)) in
    if decide (currentFilter app = "diff") then isDiff
    else if decide (currentFilter app = "same") then negb isDiff
    else true.

(** [result.pairs.filter(pair => this.shouldShowPair(pair))]: the pairs that
    [renderDiffOptimized] hands to the renderer. *)
Definition shown_pairs (app : App) (res : DiffResult) : list Pair :=
  filter (λ pr, shouldShowPair app res pr = true) (r_pairs res).

(** [setFilter(filter)], without the re-rendering. *)
Definition setFilter (app : App) (filter : string) : App :=
  {| diffEngine := diffEngine app; currentFilter := filter;
     currentDiffIndex := currentDiffIndex app |}.

(** The [for] loop of [handleSelectionChange] from index [i] on, with the
    pairs from [i] on in [rest]: the indices at which it looks for a row
    and a line-number cell to mark.  It counts the pairs that have a line
    on [side] in [textareaLineNum] and stops after the last selected
    line. *)
Fixpoint selection_loop (side : string) (rest : list Pair)
    (i textareaLineNum startLineInTextarea endLineInTextarea : nat) : list nat :=
  match rest with
  | [] => []
  | pr :: rest' =>
      let sideData := if decide (side = "left") then p_left pr else p_right pr in
      let selected :=
        present sideData
        && bool_decide (startLineInTextarea ≤ textareaLineNum ≤ endLineInTextarea) in
      let textareaLineNum' :=
        if present sideData then S textareaLineNum else textareaLineNum in
      (if selected then [i] else [])
      ++ (if decide (endLineInTextarea < textareaLineNum') then []
          else selection_loop side rest' (S i) textareaLineNum'
                 startLineInTextarea endLineInTextarea)
  end.

(** [display.querySelector(`[data-index="${i}"]`)] on a display that holds
    the rows [rows]: the first row whose [data-index] is [i]. *)
Definition row_with_index (rows : list (nat * Pair)) (i : nat) : option (nat * Pair) :=
  snd <$> list_find (λ row, row.1 = i) rows.

(** [handleSelectionChange(side)], for a selection that splits the text of
    the textarea into [textBefore], [textSelected] and the rest, on a
    display that holds the rows [rows] (the line-number cells stand in the
    order of the rows, one for each row): the rows and the line-number cells
    that carry the class [selected] after the call.  The call first takes
    the class from all of them; then, at every index [i] that the loop
    selects, it marks the row whose [data-index] is [i] and the [i]-th
    line-number cell, each one when it exists. *)
Definition handleSelectionChange (app : App) (rows : list (nat * Pair))
    (side textBefore textSelected : string)
  : list (nat * Pair) * list (nat * Pair) :=
  if decide (textSelected = "") then ([], [])
  else
    let startLineInTextarea := count_LF textBefore in
    let selectedLineCount := S (count_LF textSelected) in
    let endLineInTextarea := startLineInTextarea + selectedLineCount - 1 in
    match getResult (diffEngine app) with
    | None => ([], [])
    | Some res =>
        let selected :=
          selection_loop side (r_pairs res) 0 0
            startLineInTextarea endLineInTextarea in
        (omap (row_with_index rows) selected, omap (rows !!.) selected)
    end.

(** The line of a pair on a side of the display. *)
Definition side_line (side : string) (res : DiffResult) (p : Pair) : option Line :=
  if decide (side = "left") then left_line res p else right_line res p.

(** ** Rendering *)

(** What [renderDiffOptimized] puts on the display, as the rows it appends
    to the display: a row is a pair together with the value of its
    [data-index] attribute.  [Direct] carries the flag [enableSyntax];
    [Chunked] carries the rows of each animation frame. *)
Inductive Rendering :=
  | Cleared
  | NoMatch
  | Direct (rows : list (nat * Pair)) (enableSyntax : bool)
  | Chunked (frames : list (list (nat * Pair))).

Definition chunkSize : nat := 500.

(** [for (let i = startIdx; i < endIdx; i++) { const pair = pairs[i]; ... }]
    for [count] iterations from [i] on; [None] when [pairs[i]] is undefined
    (reading [pair.left] fails). *)
Fixpoint render_loop (pairs : list Pair) (i count : nat) : option (list (nat * Pair)) :=
  match count with
  | 0 => Some []
  | S count' =>
      pr ← pairs !! i;
      rest ← render_loop pairs (S i) count';
      Some ((i, pr) :: rest)
  end.

(** [renderChunk], which schedules itself for the next animation frame as
    long as pairs are left: the rows of the frames from [currentChunk] on.
    [None] when the fuel runs out or a frame fails. *)
Fixpoint renderChunk (fuel : nat) (pairs : list Pair) (currentChunk : nat)
  : option (list (list (nat * Pair))) :=
  match fuel with
  | 0 => None
  | S fuel' =>
      let startIdx := currentChunk * chunkSize in
      let endIdx := (startIdx + chunkSize) `min` length pairs in
      if decide (length pairs ≤ startIdx) then Some []
      else
        frame ← render_loop pairs startIdx (endIdx - startIdx);
        if decide (S currentChunk * chunkSize < length pairs) then
          frames ← renderChunk fuel' pairs (S currentChunk);
          Some (frame :: frames)
        else Some [frame]
  end.

(** [renderDiffChunked(pairs)]; a frame renders at least one pair, so as
    many frames as there are pairs, and one more, are enough. *)
Definition renderDiffChunked (pairs : list Pair) : option Rendering :=
  frames ← renderChunk (S (length pairs)) pairs 0;
  Some (Chunked frames).

(** [renderDiffDirect(pairs)] *)
Definition renderDiffDirect (pairs : list Pair) : Rendering :=
  let enableSyntax := bool_decide (length pairs < 500) in
  Direct (imap (λ index pr, (index, pr)) pairs) enableSyntax.

(** [renderDiffOptimized()] *)
Definition renderDiffOptimized (app : App) : option Rendering :=
  match getResult (diffEngine app) with
  | None => Some Cleared
  | Some res =>
      if decide (length (r_pairs res) = 0) then Some Cleared
      else
        let pairs := shown_pairs app res in
        let totalLines := length pairs in
        if decide (totalLines = 0) then Some NoMatch
        else if decide (totalLines < 1000) then Some (renderDiffDirect pairs)
        else renderDiffChunked pairs
  end.

(** The rows on the display, in order. *)
Definition rendered_rows (r : Rendering) : list (nat * Pair) :=
  match r with
  | Cleared | NoMatch => []
  | Direct rows _ => rows
  | Chunked frames => concat frames
  end.

(** * SyntaxHighlighter: a line with its character diff

    [highlightWithDiff] is what [renderDiffDirect] calls for a line that
    carries a [charDiff].  The serialisation of a text node by the DOM
    (inside [escapeHtml]) and highlight.js (inside [highlightLine]) are not
    part of the repository: both are parameters. *)

Definition dquote : string := String (ascii_of_nat 34) "".

Section Highlighter.

Variable dom_escape : string → string.
Variable highlightLine : string → option string → string.

(** [escapeHtml(text)] *)
Definition escapeHtml (text : string) : string :=
  if decide (text = "") then "" else dom_escape text.

(** The callback of [charDiff.forEach(part => ...)], on the local
    [result]. *)
Definition highlight_step (result : string) (part : CharSpan) : string :=
  let highlighted := escapeHtml (span_text part) in
  match span_type part with
  | Added =>
      result +:+ "<span class=" +:+ dquote +:+ "diff-char-added" +:+ dquote +:+ ">"
        +:+ highlighted +:+ "</span>"
  | Removed =>
      result +:+ "<span class=" +:+ dquote +:+ "diff-char-removed" +:+ dquote +:+ ">"
        +:+ highlighted +:+ "</span>"
  | _ => result +:+ highlighted
  end.

(** [highlightWithDiff(code, charDiff, language)] *)
Definition highlightWithDiff (code : string) (charDiff : option (list CharSpan))
    (language : option string) : string :=
  match charDiff with
  | None | Some [] => highlightLine code language
  | Some parts => fold_left highlight_step parts ""
  end.

End Highlighter.

(** The text of a piece of HTML without its tags: what is left when
    everything from a [<] to the next [>] is taken out. *)
Fixpoint strip_tags (inside : bool) (html : string) : string :=
  match html with
  | EmptyString => EmptyString
  | String c rest =>
      if inside then strip_tags (negb (Ascii.eqb c ">")) rest
      else if Ascii.eqb c "<" then strip_tags true rest
      else String c (strip_tags false rest)
  end.

Definition visible_text (html : string) : string := strip_tags false html.

(** No [<] in a string. *)
Fixpoint no_tag_open (s : string) : bool :=
  match s with
  | EmptyString => true
  | String c rest => negb (Ascii.eqb c "<") && no_tag_open rest
  end.

(** A sample of the serialisation of a text node: [&], [<] and [>] are
    replaced by character references. *)
Fixpoint escape_sample (text : string) : string :=
  match text with
  | EmptyString => EmptyString
  | String c rest =>
      (if Ascii.eqb c "&" then "&amp;"
       else if Ascii.eqb c "<" then "&lt;"
       else if Ascii.eqb c ">" then "&gt;"
       else String c "")
      +:+ escape_sample rest
  end.

(** * Properties *)

(** ** Line splitting *)

(** Induction on strings two characters at a time, as [split_newline] reads
    them. *)
Lemma string_ind2 (P : string → Prop) :
  P "" →
  (∀ c, P (String c "")) →
  (∀ c c' s, P s → P (String c' s) → P (String c (String c' s))) →
  ∀ s, P s.
Proof.
  intros H0 H1 H2 s.
  cut (P s ∧ ∀ c, P (String c s)); [tauto|].
  induction s as [|c' s [IH1 IH2]]; split; auto.
Qed.

Lemma split_newline_cons2 c c' s :
  split_newline (String c (String c' s)) =
    if Ascii.eqb c LF then "" :: split_newline (String c' s)
    else if Ascii.eqb c CR && Ascii.eqb c' LF then "" :: split_newline s
    else match split_newline (String c' s) with
         | piece :: pieces => String c piece :: pieces
         | [] => [String c ""]
         end.
Proof. reflexivity. Qed.

Lemma split_newline_nonempty s : split_newline s ≠ [].
Proof.
  destruct s as [|c [|c' s]]; [done| |].
  - simpl. by destruct (Ascii.eqb c LF).
  - rewrite split_newline_cons2.
    destruct (Ascii.eqb c LF); [done|].
    destruct (Ascii.eqb c CR && Ascii.eqb c' LF); [done|].
    by destruct (split_newline (String c' s)).
Qed.

(** The three cases of [split_newline] on a non-empty string. *)
Lemma split_newline_LF s : split_newline (String LF s) = "" :: split_newline s.
Proof. reflexivity. Qed.

Lemma split_newline_CRLF s :
  split_newline (String CR (String LF s)) = "" :: split_newline s.
Proof. reflexivity. Qed.

Lemma split_newline_char c s :
  c ≠ LF → (c = CR → ∀ s', s ≠ String LF s') →
  ∃ piece pieces,
    split_newline s = piece :: pieces ∧
    split_newline (String c s) = String c piece :: pieces.
Proof.
  intros Hc Hcr.
  destruct s as [|c' s'].
  - exists "", []. simpl. by destruct (Ascii.eqb_spec c LF).
  - rewrite split_newline_cons2.
    destruct (Ascii.eqb_spec c LF) as [|_]; [done|].
    assert (Ascii.eqb c CR && Ascii.eqb c' LF = false) as ->.
    { destruct (Ascii.eqb_spec c CR) as [->|]; [|done].
      destruct (Ascii.eqb_spec c' LF) as [->|]; [|done].
      by destruct (Hcr eq_refl s'). }
    destruct (split_newline (String c' s')) as [|piece pieces] eqn:E.
    { by destruct (split_newline_nonempty (String c' s')). }
    by exists piece, pieces.
Qed.

(** Induction following the cases of [split_newline]. *)
Lemma split_ind (P : string → Prop) :
  P "" →
  (∀ s, P s → P (String LF s)) →
  (∀ s, P s → P (String CR (String LF s))) →
  (∀ c s, c ≠ LF → (c = CR → ∀ s', s ≠ String LF s') → P s → P (String c s)) →
  ∀ s, P s.
Proof.
  intros H0 HLF HCRLF Hchar.
  induction s as [|c|c c' s IH1 IH2] using string_ind2; [done| |].
  - destruct (decide (c = LF)) as [->|Hc]; [by apply HLF|].
    apply Hchar; [done| |done]. by intros _ s'.
  - destruct (decide (c = LF)) as [->|Hc]; [by apply HLF|].
    destruct (decide (c = CR ∧ c' = LF)) as [[-> ->]|Hn]; [by apply HCRLF|].
    apply Hchar; [done| |done]. intros -> s' [= -> _]. tauto.
Qed.

Lemma split_newline_no_LF s : Forall (λ piece, has_LF piece = false) (split_newline s).
Proof.
  induction s as [|s IH|s IH|c s Hc Hcr IH] using split_ind.
  - by repeat constructor.
  - rewrite split_newline_LF. by constructor.
  - rewrite split_newline_CRLF. by constructor.
  - destruct (split_newline_char c s Hc Hcr) as (piece & pieces & E1 & ->).
    rewrite E1 in IH. inversion IH; subst. constructor; [|done].
    simpl. by destruct (Ascii.eqb_spec c LF).
Qed.

Lemma join_lines_cons piece pieces :
  pieces ≠ [] → join_lines (piece :: pieces) = piece +:+ nl +:+ join_lines pieces.
Proof. by destruct pieces. Qed.

Lemma normalize_crlf_char c s :
  c ≠ LF → (c = CR → ∀ s', s ≠ String LF s') →
  normalize_crlf (String c s) = String c (normalize_crlf s).
Proof.
  intros Hc Hcr. destruct s as [|c' s]; [done|].
  cbn [normalize_crlf].
  destruct (Ascii.eqb_spec c CR) as [->|]; [|done].
  destruct (Ascii.eqb_spec c' LF) as [->|]; [|done].
  by destruct (Hcr eq_refl s).
Qed.

Lemma split_newline_join s : join_lines (split_newline s) = normalize_crlf s.
Proof.
  induction s as [|s IH|s IH|c s Hc Hcr IH] using split_ind.
  - done.
  - rewrite split_newline_LF, join_lines_cons by apply split_newline_nonempty.
    rewrite IH. by destruct s.
  - rewrite split_newline_CRLF, join_lines_cons by apply split_newline_nonempty.
    by rewrite IH.
  - destruct (split_newline_char c s Hc Hcr) as (piece & pieces & E1 & ->).
    rewrite normalize_crlf_char by done. rewrite <- IH, E1.
    by destruct pieces.
Qed.

Lemma count_LF_normalize s : count_LF (normalize_crlf s) = count_LF s.
Proof.
  induction s as [|s IH|s IH|c s Hc Hcr IH] using split_ind.
  - done.
  - destruct s; simpl in *; congruence.
  - simpl in *. congruence.
  - rewrite normalize_crlf_char by done. simpl. congruence.
Qed.

Lemma split_newline_length s : length (split_newline s) = S (count_LF s).
Proof.
  induction s as [|s IH|s IH|c s Hc Hcr IH] using split_ind.
  - done.
  - rewrite split_newline_LF. simpl. by rewrite IH.
  - rewrite split_newline_CRLF. simpl. by rewrite IH.
  - destruct (split_newline_char c s Hc Hcr) as (piece & pieces & E1 & ->).
    rewrite E1 in IH. simpl in *. by destruct (Ascii.eqb_spec c LF).
Qed.

(** A text that ends with a line feed has an empty last piece. *)
Lemma split_newline_last_LF s : last (split_newline (s +:+ nl)) = Some "".
Proof.
  induction s as [|s IH|s IH|c s Hc Hcr IH] using split_ind.
  - done.
  - change (String LF s +:+ nl) with (String LF (s +:+ nl)).
    rewrite split_newline_LF, last_cons, IH. done.
  - change (String CR (String LF s) +:+ nl) with (String CR (String LF (s +:+ nl))).
    rewrite split_newline_CRLF, last_cons, IH. done.
  - change (String c s +:+ nl) with (String c (s +:+ nl)).
    destruct (decide (c = CR ∧ s = "")) as [[-> ->]|Hn]; [done|].
    destruct (split_newline_char c (s +:+ nl) Hc) as (piece & pieces & E1 & ->).
    { intros -> s' E. destruct s as [|c' s]; [tauto|].
      injection E as -> _. by destruct (Hcr eq_refl s). }
    assert (pieces ≠ []) as Hne.
    { intros ->. pose proof (split_newline_length (s +:+ nl)) as Hlen.
      rewrite E1 in Hlen. simpl in Hlen.
      assert (0 < count_LF (s +:+ nl)); [|lia].
      clear. induction s as [|c' s IHs]; simpl; lia. }
    rewrite E1 in IH. rewrite last_cons in IH |- *.
    destruct pieces as [|piece' pieces]; [done|].
    destruct (last (piece' :: pieces)) eqn:E; [done|]. by apply last_None in E.
Qed.

Lemma splitLines_nonempty c s : splitLines (Some (String c s)) = split_newline (String c s).
Proof. reflexivity. Qed.

(** C1, as stated, fails: for a text that ends with a line terminator the
    result of [splitLines] keeps the empty piece after the last terminator;
    ["a\nb\n"] yields [["a"; "b"; ""]] and not [["a"; "b"]]. *)
Lemma splitLines_trailing_terminator :
  splitLines (Some ("a" +:+ nl +:+ "b" +:+ nl)) = ["a"; "b"; ""] ∧
  splitLines (Some ("a" +:+ nl +:+ "b" +:+ nl)) ≠ ["a"; "b"].
Proof. split; [reflexivity|discriminate]. Qed.

(** C1, amended: [splitLines] returns the pieces of the text between the
    CRLF and LF terminators (a lone CR does not separate), empty pieces
    included, also the empty piece after a final terminator.  No piece
    contains a line feed, joining the pieces with line feeds gives back the
    text up to the CRLF terminators, there is one more piece than there are
    line feeds in a non-empty text, and the empty or absent text yields no
    piece at all. *)
Theorem splitLines_pieces :
  splitLines None = [] ∧
  splitLines (Some "") = [] ∧
  splitLines (Some ("a" +:+ nl +:+ "b")) = ["a"; "b"] ∧
  splitLines (Some ("a" +:+ nl +:+ "b" +:+ nl)) = ["a"; "b"; ""] ∧
  splitLines (Some ("a" +:+ crlf +:+ nl +:+ "b")) = ["a"; ""; "b"] ∧
  splitLines (Some ("a" +:+ String CR "b")) = ["a" +:+ String CR "b"] ∧
  ∀ s : string,
    Forall (λ piece, has_LF piece = false) (splitLines (Some s)) ∧
    join_lines (splitLines (Some s)) = normalize_crlf s ∧
    length (splitLines (Some s)) = (if decide (s = "") then 0 else S (count_LF s)) ∧
    last (splitLines (Some (s +:+ nl))) = Some "".
Proof.
  repeat split; try reflexivity.
  - destruct s; [constructor|]. rewrite splitLines_nonempty. apply split_newline_no_LF.
  - destruct s; [done|]. rewrite splitLines_nonempty. apply split_newline_join.
  - destruct s; [done|]. rewrite splitLines_nonempty. apply split_newline_length.
  - destruct s; [done|]. change (String a s +:+ nl) with (String a (s +:+ nl)).
    rewrite splitLines_nonempty. apply (split_newline_last_LF (String a s)).
Qed.

(** ** Termination of the modification-detection pass *)

Lemma run_end_bounds cond rest i :
  i ≤ run_end cond rest i ≤ i + length rest.
Proof.
  revert i. induction rest as [|p rest IH]; intros i; simpl; [lia|].
  destruct (cond p); [|lia]. specialize (IH (S i)). lia.
Qed.

Lemma run_end_head cond p rest i :
  cond p = true → S i ≤ run_end cond (p :: rest) i.
Proof. intros Hp. simpl. rewrite Hp. apply run_end_bounds. Qed.

Lemma run_end_drop_le cond (pairs : list Pair) i :
  i ≤ length pairs → run_end cond (drop i pairs) i ≤ length pairs.
Proof.
  intros Hi. pose proof (run_end_bounds cond (drop i pairs) i) as H.
  rewrite length_drop in H. lia.
Qed.

Section Termination.

Variable diffChars : string → string → list Part.

Lemma merge_at_length enable rs as_ res j :
  length (r_pairs (merge_at diffChars enable rs as_ res j)) = length (r_pairs res).
Proof.
  unfold merge_at.
  destruct (r_pairs res !! (rs + j) ≫= p_left) as [l|]; [|done].
  destruct (r_pairs res !! (as_ + j) ≫= p_right) as [r|]; [|done].
  destruct enable.
  - destruct (alter (set_type Modified) l (r_left res) !! l);
      [destruct (alter (set_type Modified) r (r_right res) !! r)|];
      simpl; by rewrite !length_alter.
  - simpl. by rewrite !length_alter.
Qed.

Lemma merge_loop_length enable rs as_ js res :
  length (r_pairs (fold_left (merge_at diffChars enable rs as_) js res))
  = length (r_pairs res).
Proof.
  revert res. induction js as [|j js IH]; intros res; simpl; [done|].
  by rewrite IH, merge_at_length.
Qed.

Lemma detect_body_spec enable res i :
  i < length (r_pairs res) →
  i < (detect_body diffChars enable res i).2 ≤ length (r_pairs res) ∧
  length (r_pairs (detect_body diffChars enable res i).1) = length (r_pairs res) ∧
  match r_pairs res !! i with
  | Some p =>
      if left_only p && type_is Removed (r_left res) (p_left p)
      then run_end left_only (drop i (r_pairs res)) i
           ≤ (detect_body diffChars enable res i).2
      else (detect_body diffChars enable res i).2 = S i
  | None => False
  end.
Proof.
  intros Hi. unfold detect_body.
  destruct (lookup_lt_is_Some_2 (r_pairs res) i Hi) as [p Hp]. rewrite Hp.
  destruct (left_only p && type_is Removed (r_left res) (p_left p)) eqn:Hrem;
    [|simpl; lia].
  apply andb_true_iff in Hrem as [Hlo _].
  assert (S i ≤ run_end left_only (drop i (r_pairs res)) i) as Hge.
  { rewrite (drop_S _ _ _ Hp). by apply run_end_head. }
  assert (run_end left_only (drop i (r_pairs res)) i ≤ length (r_pairs res)) as Hle
    by (apply run_end_drop_le; lia).
  set (i1 := run_end left_only (drop i (r_pairs res)) i) in *.
  destruct (r_pairs res !! i1) as [q|] eqn:Hq; [|simpl; lia].
  destruct (right_only q && type_is Added (r_right res) (p_right q)) eqn:Hadd;
    [|simpl; lia].
  simpl. rewrite merge_loop_length.
  pose proof (run_end_bounds right_only (drop i1 (r_pairs res)) i1) as Hb.
  rewrite length_drop in Hb. lia.
Qed.

Lemma detect_loop_enough_fuel enable fuel res i :
  length (r_pairs res) - i ≤ fuel →
  is_Some (detect_loop diffChars fuel enable res i).
Proof.
  revert res i. induction fuel as [|fuel IH]; intros res i Hfuel; simpl.
  - destruct (decide (i < length (r_pairs res))); [lia|]. by eexists.
  - destruct (decide (i < length (r_pairs res))) as [Hi|]; [|by eexists].
    destruct (detect_body_spec enable res i Hi) as (Hadv & Hlen & _).
    destruct (detect_body diffChars enable res i) as [res' i'].
    simpl in *. apply IH. lia.
Qed.

(** C10: an iteration of the scanning loop started at an index [i] inside
    the pair sequence ends at a strictly larger index that is still at most
    the length of the sequence, and it keeps the length of the sequence: a
    pair that starts a removed run moves the index at least past the
    left-only run, any other pair moves it by exactly one.  Hence as many
    iterations as there are pairs always suffice: on every pair sequence the
    loop, and with it [detectModifications], returns a result. *)
Theorem detectModifications_terminates (e : DiffEngine) (result : DiffResult) :
  (∀ res i,
      i < length (r_pairs res) →
      ∃ p, r_pairs res !! i = Some p ∧
        let next := (detect_body diffChars (enableCharDiff e) res i).2 in
        i < next ≤ length (r_pairs res) ∧
        length (r_pairs (detect_body diffChars (enableCharDiff e) res i).1)
          = length (r_pairs res) ∧
        (left_only p && type_is Removed (r_left res) (p_left p) = true →
           run_end left_only (drop i (r_pairs res)) i ≤ next) ∧
        (left_only p && type_is Removed (r_left res) (p_left p) = false →
           next = S i)) ∧
  is_Some (detect_loop diffChars (length (r_pairs result)) (enableCharDiff e) result 0) ∧
  is_Some (detectModifications diffChars e result).
Proof.
  split; [|split].
  - intros res i Hi.
    destruct (detect_body_spec (enableCharDiff e) res i Hi) as (Hadv & Hlen & Hcase).
    destruct (r_pairs res !! i) as [p|]; [|done].
    exists p. split; [done|]. simpl. split; [done|]. split; [done|].
    destruct (left_only p && type_is Removed (r_left res) (p_left p));
      split; intros; done.
  - apply detect_loop_enough_fuel. lia.
  - unfold detectModifications.
    destruct (detect_loop_enough_fuel (enableCharDiff e)
                (length (r_pairs result)) result 0) as [res ->]; [lia|].
    by eexists.
Qed.

End Termination.

(** ** Blocks *)

Section Blocks.

Variable res : DiffResult.

Lemma zip_seq_snoc (ps : list Pair) (p : Pair) :
  zip (seq 0 (length (ps ++ [p]))) (ps ++ [p])
  = zip (seq 0 (length ps)) ps ++ [(length ps, p)].
Proof.
  rewrite length_app. simpl. rewrite seq_app. simpl.
  rewrite zip_with_app by (by rewrite length_seq). done.
Qed.

Lemma block_run_snoc d ps p b :
  block_run d ps b → block_run d (ps ++ [p]) b.
Proof.
  intros ((Hs & He) & Hpairs & Hall & Hbefore). repeat split.
  - done.
  - rewrite length_app. simpl. lia.
  - rewrite Hpairs. rewrite drop_app_le by lia.
    rewrite take_app_le; [done|]. rewrite length_drop. lia.
  - intros k q Hk Hq. apply (Hall k q Hk).
    rewrite lookup_app_l in Hq by lia. done.
  - intros k q Hk Hq. apply (Hbefore k q Hk).
    rewrite lookup_app_l in Hq by lia. done.
Qed.

Lemma blocks_separated_snoc blocks c :
  blocks_separated blocks →
  (∀ b, b ∈ blocks → S (endIndex b) < startIndex c) →
  blocks_separated (blocks ++ [c]).
Proof.
  intros Hsep Hc i j b1 b2 Hij H1 H2.
  assert (j < length (blocks ++ [c])) as Hj by (by eapply lookup_lt_Some).
  rewrite length_app in Hj. simpl in Hj.
  rewrite lookup_app_l in H1 by lia.
  destruct (decide (j < length blocks)) as [Hlt|Hge].
  - rewrite lookup_app_l in H2 by lia. by apply (Hsep i j).
  - rewrite lookup_app_r in H2 by lia.
    replace (j - length blocks) with 0 in H2 by lia. injection H2 as <-.
    apply Hc. by eapply list_elem_of_lookup_2.
Qed.

Lemma blocks_inv_init : blocks_inv res [] ([], None).
Proof.
  split; [|split; [|split]]; simpl.
  - intros b Hb. by apply elem_of_nil in Hb.
  - intros i j b1 b2 _ H1. done.
  - done.
  - intros k p Hk. done.
Qed.

Lemma blocks_inv_step ps p st :
  blocks_inv res ps st →
  blocks_inv res (ps ++ [p]) (block_step res st (length ps, p)).
Proof.
  destruct st as [blocks cur]. intros (Hblocks & Hsep & Hcur). simpl in *.
  assert (∀ b, b ∈ blocks →
            block_run (isDiff res) (ps ++ [p]) b ∧
            block_closed (isDiff res) (ps ++ [p]) b ∧
            S (endIndex b) < length (ps ++ [p])) as Hblocks'.
  { intros b Hb. destruct (Hblocks b Hb) as (Hrun & Hclosed & Hlt).
    split; [by apply block_run_snoc|]. split.
    - intros q Hq. apply Hclosed. rewrite lookup_app_l in Hq by lia. done.
    - rewrite length_app. simpl. lia. }
  destruct (isDiff res p) eqn:Hd.
  - (* a diff pair: it opens or extends the current block *)
    destruct cur as [c|]; simpl.
    + destruct Hcur as (Hrun & Hend & Hlt & Hcover).
      destruct Hrun as ((Hs & He) & Hpairs & Hall & Hbefore).
      split; [done|]. split; [done|]. split; [|split; [|split]]; simpl.
      * repeat split; simpl.
        -- lia.
        -- rewrite length_app. simpl. lia.
        -- rewrite Hpairs. rewrite drop_app_le by lia.
           rewrite !take_ge by (rewrite ?length_app, length_drop; simpl; lia).
           done.
        -- intros k q Hk Hq.
           destruct (decide (k = length ps)) as [->|Hne].
           ++ rewrite lookup_app_r in Hq by lia.
              replace (length ps - length ps) with 0 in Hq by lia.
              by injection Hq as <-.
           ++ apply (Hall k q); [lia|]. rewrite lookup_app_l in Hq by lia. done.
        -- intros k q Hk Hq. apply (Hbefore k q Hk).
           rewrite lookup_app_l in Hq by lia. done.
      * rewrite length_app. simpl. lia.
      * done.
      * intros k q Hq Hdq.
        destruct (decide (k = length ps)) as [->|Hne].
        -- eexists. split; [apply elem_of_app; right; apply list_elem_of_singleton; done|].
           simpl. lia.
        -- assert (k < length (ps ++ [p])) as Hk by (by eapply lookup_lt_Some).
           rewrite length_app in Hk. simpl in Hk.
           rewrite lookup_app_l in Hq by lia.
           destruct (Hcover k q Hq Hdq) as (b & Hb & Hrange).
           apply elem_of_app in Hb as [Hb|Hb].
           ++ exists b. split; [apply elem_of_app; by left|done].
           ++ apply list_elem_of_singleton in Hb as ->.
              eexists. split; [apply elem_of_app; right; apply list_elem_of_singleton; done|].
              simpl. lia.
    + destruct Hcur as (Hlast & Hcover).
      split; [done|]. split; [done|]. split; [|split; [|split]]; simpl.
      * repeat split; simpl.
        -- lia.
        -- rewrite length_app. simpl. lia.
        -- rewrite Nat.sub_diag. rewrite drop_app_length. done.
        -- intros k q Hk Hq. replace k with (length ps) in Hq by lia.
           rewrite lookup_app_r in Hq by lia.
           replace (length ps - length ps) with 0 in Hq by lia.
           by injection Hq as <-.
        -- intros k q Hk Hq. apply Hlast.
           rewrite lookup_app_l in Hq by lia.
           rewrite last_lookup. replace (pred (length ps)) with k by lia. done.
      * rewrite length_app. simpl. lia.
      * intros b Hb. by destruct (Hblocks b Hb) as (_ & _ & ?).
      * intros k q Hq Hdq.
        destruct (decide (k = length ps)) as [->|Hne].
        -- eexists. split; [apply elem_of_app; right; apply list_elem_of_singleton; done|].
           simpl. lia.
        -- assert (k < length (ps ++ [p])) as Hk by (by eapply lookup_lt_Some).
           rewrite length_app in Hk. simpl in Hk.
           rewrite lookup_app_l in Hq by lia.
           destruct (Hcover k q Hq Hdq) as (b & Hb & Hrange).
           exists b. split; [apply elem_of_app; by left|done].
  - (* a pair that is no diff: it closes the current block *)
    assert (∀ q, last (ps ++ [p]) = Some q → isDiff res q = false) as Hlast'.
    { intros q. rewrite last_snoc. by intros [= <-]. }
    destruct cur as [c|]; simpl.
    + destruct Hcur as (Hrun & Hend & Hlt & Hcover).
      split; [|split; [|split]].
      * intros b Hb. apply elem_of_app in Hb as [Hb|Hb]; [by apply Hblocks'|].
        apply list_elem_of_singleton in Hb as ->.
        split; [by apply block_run_snoc|]. split.
        -- intros q Hq. rewrite Hend in Hq.
           rewrite lookup_app_r in Hq by lia.
           replace (length ps - length ps) with 0 in Hq by lia.
           by injection Hq as <-.
        -- rewrite length_app. simpl. lia.
      * by apply blocks_separated_snoc.
      * done.
      * intros k q Hq Hdq.
        destruct (decide (k = length ps)) as [->|Hne].
        -- rewrite lookup_app_r in Hq by lia.
           replace (length ps - length ps) with 0 in Hq by lia.
           injection Hq as <-. congruence.
        -- assert (k < length (ps ++ [p])) as Hk by (by eapply lookup_lt_Some).
           rewrite length_app in Hk. simpl in Hk.
           rewrite lookup_app_l in Hq by lia. by apply (Hcover k q).
    + destruct Hcur as (Hlast & Hcover).
      split; [done|]. split; [done|]. split; [done|].
      intros k q Hq Hdq.
      destruct (decide (k = length ps)) as [->|Hne].
      * rewrite lookup_app_r in Hq by lia.
        replace (length ps - length ps) with 0 in Hq by lia.
        injection Hq as <-. congruence.
      * assert (k < length (ps ++ [p])) as Hk by (by eapply lookup_lt_Some).
        rewrite length_app in Hk. simpl in Hk.
        rewrite lookup_app_l in Hq by lia. by apply (Hcover k q).
Qed.

Lemma blocks_inv_fold ps :
  blocks_inv res ps (fold_left (block_step res) (zip (seq 0 (length ps)) ps) ([], None)).
Proof.
  induction ps as [|p ps IH] using rev_ind; [apply blocks_inv_init|].
  rewrite zip_seq_snoc, fold_left_app. simpl. by apply blocks_inv_step.
Qed.

(** The blocks of [groupDiffBlocks], for the test [isDiff] of the code. *)
Lemma groupDiffBlocks_runs :
  let blocks := groupDiffBlocks res in
  (∀ b, b ∈ blocks →
     block_run (isDiff res) (r_pairs res) b ∧ block_closed (isDiff res) (r_pairs res) b) ∧
  blocks_separated blocks ∧
  blocks_cover (isDiff res) (r_pairs res) blocks.
Proof.
  unfold groupDiffBlocks.
  pose proof (blocks_inv_fold (r_pairs res)) as Hinv.
  destruct (fold_left _ _ _) as [blocks cur].
  destruct Hinv as (Hblocks & Hsep & Hcur). simpl in *.
  destruct cur as [c|].
  - destruct Hcur as (Hrun & Hend & Hlt & Hcover).
    split; [|split].
    + intros b Hb. apply elem_of_app in Hb as [Hb|Hb].
      * destruct (Hblocks b Hb) as (? & ? & _). done.
      * apply list_elem_of_singleton in Hb as ->. split; [done|].
        intros q Hq. apply lookup_lt_Some in Hq. lia.
    + by apply blocks_separated_snoc.
    + done.
  - destruct Hcur as (Hlast & Hcover).
    split; [|split]; [|done|done].
    intros b Hb. destruct (Hblocks b Hb) as (? & ? & _). done.
Qed.

End Blocks.

(** ** The pairing phase *)

Lemma length_build_left rows nl :
  length (build_left rows nl) = length (left_contents rows).
Proof.
  unfold left_contents. rewrite length_fmap.
  revert nl. induction rows as [|[[] s] rows IH]; intros nl; [done|..];
    rewrite filter_cons; simpl; by rewrite IH.
Qed.

Lemma length_build_right rows nr :
  length (build_right rows nr) = length (right_contents rows).
Proof.
  unfold right_contents. rewrite length_fmap.
  revert nr. induction rows as [|[[] s] rows IH]; intros nr; [done|..];
    rewrite filter_cons; simpl; by rewrite IH.
Qed.

Lemma length_build_pairs rows nl nr : length (build_pairs rows nl nr) = length rows.
Proof.
  revert nl nr. induction rows as [|[[] s] rows IH]; intros nl nr; simpl;
    by rewrite ?IH.
Qed.

Lemma build_left_app rows1 rows2 nl :
  build_left (rows1 ++ rows2) nl
  = build_left rows1 nl ++ build_left rows2 (nl + length (build_left rows1 nl)).
Proof.
  revert nl. induction rows1 as [|[[] s] rows1 IH]; intros nl; simpl.
  - by rewrite Nat.add_0_r.
  - apply IH.
  - rewrite IH. do 3 f_equal. lia.
  - rewrite IH. do 3 f_equal. lia.
Qed.

Lemma build_right_app rows1 rows2 nr :
  build_right (rows1 ++ rows2) nr
  = build_right rows1 nr ++ build_right rows2 (nr + length (build_right rows1 nr)).
Proof.
  revert nr. induction rows1 as [|[[] s] rows1 IH]; intros nr; simpl.
  - by rewrite Nat.add_0_r.
  - rewrite IH. do 3 f_equal. lia.
  - apply IH.
  - rewrite IH. do 3 f_equal. lia.
Qed.

Lemma build_pairs_app rows1 rows2 nl nr :
  build_pairs (rows1 ++ rows2) nl nr
  = build_pairs rows1 nl nr
    ++ build_pairs rows2 (nl + length (build_left rows1 nl))
                         (nr + length (build_right rows1 nr)).
Proof.
  revert nl nr. induction rows1 as [|[[] s] rows1 IH]; intros nl nr; simpl.
  - by rewrite !Nat.add_0_r.
  - rewrite IH. do 2 f_equal. f_equal; lia.
  - rewrite IH. do 2 f_equal. f_equal; lia.
  - rewrite IH. do 2 f_equal. f_equal; lia.
Qed.

Lemma push_rows_nil st : push_rows st [] = st.
Proof.
  destruct st as [[L R P] n m]. unfold push_rows. simpl.
  by rewrite !app_nil_r, !Nat.add_0_r.
Qed.

Lemma counters_ok_push_rows st rows : counters_ok st → counters_ok (push_rows st rows).
Proof.
  intros [Hl Hr]. split; simpl.
  - rewrite Hl, length_app, length_build_left. lia.
  - rewrite Hr, length_app, length_build_right. lia.
Qed.

Lemma push_rows_app st rows1 rows2 :
  push_rows (push_rows st rows1) rows2 = push_rows st (rows1 ++ rows2).
Proof.
  destruct st as [[L R P] n m]. unfold push_rows. simpl.
  rewrite build_left_app, build_right_app, build_pairs_app.
  rewrite !length_app, <- !app_assoc.
  unfold left_contents, right_contents.
  rewrite !filter_app, !fmap_app, !length_app.
  f_equal; lia.
Qed.

Lemma push_line_row part st line :
  counters_ok st → push_line part st line = push_rows st [(part_tag part, line)].
Proof.
  destruct st as [[L R P] n m]. intros [Hl Hr]. simpl in *. subst.
  unfold push_line, push_rows, part_tag. simpl.
  destruct (added part); [|destruct (removed part)]; simpl.
  - rewrite length_app. simpl. rewrite app_nil_r.
    do 2 f_equal; try lia. repeat f_equal. lia.
  - rewrite length_app. simpl. rewrite app_nil_r.
    do 2 f_equal; try lia. repeat f_equal. lia.
  - do 2 f_equal; lia.
Qed.

Lemma push_lines_rows part lines st :
  counters_ok st →
  fold_left (push_line part) lines st
  = push_rows st ((λ line, (part_tag part, line)) <$> lines).
Proof.
  revert st. induction lines as [|line lines IH]; intros st Hst; simpl.
  - by rewrite push_rows_nil.
  - rewrite push_line_row by done.
    rewrite IH by (by apply counters_ok_push_rows).
    by rewrite push_rows_app.
Qed.

Lemma push_parts_rows diff st :
  counters_ok st → fold_left push_part diff st = push_rows st (diff_rows diff).
Proof.
  revert st. induction diff as [|part diff IH]; intros st Hst; simpl.
  - by rewrite push_rows_nil.
  - unfold push_part at 2. rewrite push_lines_rows by done.
    rewrite IH by (by apply counters_ok_push_rows).
    by rewrite push_rows_app.
Qed.

(** The pairing phase, in closed form. *)
Lemma pair_lines_rows diff : pair_lines diff = scan_state [] [] [] (diff_rows diff).
Proof.
  unfold pair_lines. rewrite push_parts_rows by done. done.
Qed.

(** ** The scanning loop on the pairs of a diff *)

Lemma lookup_mid1 {A} (a x b : list A) j :
  j < length x → (a ++ x ++ b) !! (length a + j) = x !! j.
Proof.
  intros Hj. rewrite lookup_app_r by lia.
  replace (length a + j - length a) with j by lia. by apply lookup_app_l.
Qed.

Lemma lookup_mid2 {A} (a x y b : list A) j :
  j < length y → (a ++ x ++ y ++ b) !! (length a + length x + j) = y !! j.
Proof.
  intros Hj. rewrite (app_assoc a x), <- (length_app a x). by apply lookup_mid1.
Qed.

Lemma alter_mid1 {A} (f : A → A) (a x b : list A) j :
  j < length x → alter f (length a + j) (a ++ x ++ b) = a ++ alter f j x ++ b.
Proof. intros Hj. rewrite alter_app_r, alter_app_l by done. done. Qed.

Lemma alter_mid2 {A} (f : A → A) (a x y b : list A) j :
  j < length y →
  alter f (length a + length x + j) (a ++ x ++ y ++ b) = a ++ x ++ alter f j y ++ b.
Proof.
  intros Hj. rewrite (app_assoc a x), <- (length_app a x), alter_mid1 by done.
  by rewrite <- app_assoc.
Qed.

Lemma alter_alter {A} (f g : A → A) (l : list A) j :
  alter g j (alter f j l) = alter (g ∘ f) j l.
Proof.
  revert j. induction l as [|x l IH]; intros [|j]; simpl; [done..|].
  f_equal. apply IH.
Qed.

(** Altering one element of an indexed map. *)
Lemma alter_imap_step {A B} (F F' : nat → A → B) (g : B → B) (l : list A) j :
  (∀ x, l !! j = Some x → g (F j x) = F' j x) →
  (∀ k x, k ≠ j → l !! k = Some x → F k x = F' k x) →
  alter g j (imap F l) = imap F' l.
Proof.
  intros Hj Hne. apply list_eq. intros k.
  rewrite list_lookup_alter, !list_lookup_imap.
  destruct (decide (j = k)) as [->|Hk].
  - destruct (l !! k) as [x|] eqn:E; simpl; [|done]. f_equal. by apply Hj.
  - destruct (l !! k) as [x|] eqn:E; simpl; [|done]. f_equal. apply Hne; [lia|done].
Qed.

Lemma lookup_take_S_ne {A} (l : list A) j k :
  k ≠ j → take (S j) l !! k = take j l !! k.
Proof.
  intros Hk. destruct (decide (k < j)).
  - by rewrite !lookup_take_lt by lia.
  - by rewrite !lookup_take_ge by lia.
Qed.

Lemma lookup_take_self {A} (l : list A) j : take j l !! j = None.
Proof. apply lookup_take_ge. lia. Qed.

Lemma lookup_take_S_self {A} (l : list A) j : take (S j) l !! j = l !! j.
Proof. apply lookup_take_lt. lia. Qed.

Lemma run_end_all cond l1 l2 i :
  Forall (λ p, cond p = true) l1 →
  run_end cond (l1 ++ l2) i = run_end cond l2 (i + length l1).
Proof.
  intros Hall. revert i. induction Hall as [|p l1 Hp _ IH]; intros i; simpl.
  - by rewrite Nat.add_0_r.
  - rewrite Hp, IH. f_equal. lia.
Qed.

Lemma run_end_stop cond l i :
  (∀ p, l !! 0 = Some p → cond p = false) → run_end cond l i = i.
Proof.
  intros Hhead. destruct l as [|p l]; simpl; [done|].
  by rewrite (Hhead p eq_refl).
Qed.

Lemma build_pairs_head_not_right_only rest nl nr p :
  starts_with TAdded rest = false →
  build_pairs rest nl nr !! 0 = Some p → right_only p = false.
Proof.
  destruct rest as [|[[] s] rest]; simpl; try done; by intros _ [= <-].
Qed.

Lemma build_pairs_head_not_left_only rest nl nr p :
  starts_with TRemoved rest = false →
  build_pairs rest nl nr !! 0 = Some p → left_only p = false.
Proof.
  destruct rest as [|[[] s] rest]; simpl; try done; by intros _ [= <-].
Qed.

Section Scan.

Variable diffChars : string → string → list Part.
Variable enable : bool.

Lemma build_left_removed ss nl :
  build_left ((λ s, (TRemoved, s)) <$> ss) nl = imap (rem_line diffChars enable nl []) ss.
Proof.
  revert nl. induction ss as [|s ss IH]; intros nl; [done|].
  rewrite fmap_cons, imap_cons. simpl build_left. rewrite IH.
  unfold rem_line at 2. simpl. rewrite Nat.add_0_r. f_equal.
  apply imap_ext. intros k x _. unfold rem_line. simpl. do 2 f_equal. lia.
Qed.

Lemma build_left_added ts nl : build_left ((λ t, (TAdded, t)) <$> ts) nl = [].
Proof. induction ts as [|t ts IH]; simpl; done. Qed.

Lemma build_right_removed ss nr : build_right ((λ s, (TRemoved, s)) <$> ss) nr = [].
Proof. induction ss as [|s ss IH]; simpl; done. Qed.

Lemma build_right_added ts nr :
  build_right ((λ t, (TAdded, t)) <$> ts) nr = imap (add_line diffChars enable nr []) ts.
Proof.
  revert nr. induction ts as [|t ts IH]; intros nr; [done|].
  rewrite fmap_cons, imap_cons. simpl build_right. rewrite IH.
  unfold add_line at 2. simpl. rewrite Nat.add_0_r. f_equal.
  apply imap_ext. intros k x _. unfold add_line. simpl. do 2 f_equal. lia.
Qed.

Lemma build_pairs_removed ss nl nr :
  build_pairs ((λ s, (TRemoved, s)) <$> ss) nl nr = imap (rem_pair nl nr []) ss.
Proof.
  revert nl. induction ss as [|s ss IH]; intros nl; [done|].
  rewrite fmap_cons, imap_cons. simpl build_pairs. rewrite IH.
  unfold rem_pair at 2. simpl. rewrite Nat.add_0_r. f_equal.
  apply imap_ext. intros k x _. unfold rem_pair. simpl. do 2 f_equal. lia.
Qed.

Lemma build_pairs_added ts nl nr :
  build_pairs ((λ t, (TAdded, t)) <$> ts) nl nr = imap (add_pair nr []) ts.
Proof.
  revert nr. induction ts as [|t ts IH]; intros nr; [done|].
  rewrite fmap_cons, imap_cons. simpl build_pairs. rewrite IH.
  unfold add_pair at 2. simpl. rewrite Nat.add_0_r. f_equal.
  apply imap_ext. intros k x _. unfold add_pair. simpl. do 2 f_equal. lia.
Qed.

(** The rows of a chunk can be moved behind the index. *)
Lemma scan_state_app Ld Rd Pd rows1 rows2 :
  scan_state Ld Rd Pd (rows1 ++ rows2)
  = scan_state (Ld ++ build_left rows1 (length Ld))
               (Rd ++ build_right rows1 (length Rd))
               (Pd ++ build_pairs rows1 (length Ld) (length Rd)) rows2.
Proof.
  unfold scan_state.
  rewrite build_left_app, build_right_app, build_pairs_app, !length_app, !app_assoc.
  done.
Qed.

End Scan.

Lemma lookup_mid1' {A} (a x b : list A) i j :
  i = length a + j → j < length x → (a ++ x ++ b) !! i = x !! j.
Proof. intros ->. apply lookup_mid1. Qed.

Lemma lookup_mid2' {A} (a x y b : list A) i j :
  i = length a + length x + j → j < length y → (a ++ x ++ y ++ b) !! i = y !! j.
Proof. intros ->. apply lookup_mid2. Qed.

Lemma alter_mid1' {A} (f : A → A) (a x b : list A) i j :
  i = length a + j → j < length x →
  alter f i (a ++ x ++ b) = a ++ alter f j x ++ b.
Proof. intros ->. apply alter_mid1. Qed.

Lemma alter_mid2' {A} (f : A → A) (a x y b : list A) i j :
  i = length a + length x + j → j < length y →
  alter f i (a ++ x ++ y ++ b) = a ++ x ++ alter f j y ++ b.
Proof. intros ->. apply alter_mid2. Qed.

Lemma rem_line_take_self diffChars enable nl (ts : list string) j s :
  rem_line diffChars enable nl (take j ts) j s = mkLine (S (nl + j)) s Removed None.
Proof. unfold rem_line. by rewrite lookup_take_self. Qed.

Lemma add_line_take_self diffChars enable nr (ss : list string) j t :
  add_line diffChars enable nr (take j ss) j t = mkLine (S (nr + j)) t Added None.
Proof. unfold add_line. by rewrite lookup_take_self. Qed.

Section Merge.

Variable diffChars : string → string → list Part.
Variables (Ld Rd : list Line) (Pd : list Pair) (ss ts : list string).
Variables (Lrest Rrest : list Line) (Prest : list Pair).

(** Iteration [j] of the [for] loop merges the [j]-th removed line with the
    [j]-th added line. *)
Lemma merge_at_state enable j s t :
  ss !! j = Some s → ts !! j = Some t →
  merge_at diffChars enable (length Pd) (length Pd + length ss)
    (merge_state diffChars enable Ld Rd Pd ss ts Lrest Rrest Prest j) j
  = merge_state diffChars enable Ld Rd Pd ss ts Lrest Rrest Prest (S j).
Proof.
  intros Hs Ht.
  assert (j < length ss) as Hjs by (by eapply lookup_lt_Some).
  assert (j < length ts) as Hjt by (by eapply lookup_lt_Some).
  unfold merge_at, merge_state. cbn [r_pairs r_left r_right].
  rewrite (lookup_mid1' _ _ _ _ j) by (rewrite ?length_imap; lia).
  rewrite (lookup_mid2' _ _ _ _ _ j) by (rewrite ?length_imap; lia).
  rewrite !list_lookup_imap, Hs, Ht. cbn [fmap option_fmap option_map mbind option_bind
    rem_pair add_pair p_left p_right].
  (* the pairs *)
  assert (alter set_merged (length Pd + length ss + j)
            (alter (set_right (Some (length Rd + j))) (length Pd + j)
               (Pd ++ imap (rem_pair (length Ld) (length Rd) (take j ts)) ss
                   ++ imap (add_pair (length Rd) (take j ss)) ts ++ Prest))
          = Pd ++ imap (rem_pair (length Ld) (length Rd) (take (S j) ts)) ss
               ++ imap (add_pair (length Rd) (take (S j) ss)) ts ++ Prest) as HP.
  { rewrite (alter_mid1' _ _ _ _ _ j) by (rewrite ?length_imap; lia).
    rewrite (alter_mid2' _ _ _ _ _ _ j)
      by (rewrite ?length_alter, ?length_imap; lia).
    f_equal. f_equal.
    - apply alter_imap_step.
      + intros x _. unfold rem_pair, set_right.
        rewrite lookup_take_self, lookup_take_S_self, Ht. done.
      + intros k x Hk _. unfold rem_pair. by rewrite lookup_take_S_ne.
    - f_equal. apply alter_imap_step.
      + intros x _. unfold add_pair, set_merged.
        rewrite lookup_take_self, lookup_take_S_self, Hs. done.
      + intros k x Hk _. unfold add_pair. by rewrite lookup_take_S_ne. }
  destruct enable.
  - (* with the character diff *)
    rewrite (alter_mid1' _ Ld _ _ _ j) by (rewrite ?length_imap; lia).
    rewrite (alter_mid1' _ Rd _ _ _ j) by (rewrite ?length_imap; lia).
    rewrite (lookup_mid1' Ld _ _ _ j)
      by (rewrite ?length_alter, ?length_imap; lia).
    rewrite (lookup_mid1' Rd _ _ _ j)
      by (rewrite ?length_alter, ?length_imap; lia).
    rewrite !list_lookup_alter_eq, !list_lookup_imap, Hs, Ht.
    cbn [fmap option_fmap option_map].
    rewrite !rem_line_take_self, !add_line_take_self.
    cbn [set_type content type]. rewrite bool_decide_eq_true_2 by done.
    rewrite (alter_mid1' _ Ld _ _ _ j)
      by (rewrite ?length_alter, ?length_imap; lia).
    rewrite (alter_mid1' _ Rd _ _ _ j)
      by (rewrite ?length_alter, ?length_imap; lia).
    rewrite !alter_alter. rewrite HP. f_equal.
    + f_equal. f_equal. apply alter_imap_step.
      * intros x Hx. assert (x = s) as -> by congruence.
        unfold rem_line. rewrite lookup_take_self, lookup_take_S_self, Ht. done.
      * intros k x Hk _. unfold rem_line. by rewrite lookup_take_S_ne.
    + f_equal. f_equal. apply alter_imap_step.
      * intros x Hx. assert (x = t) as -> by congruence.
        unfold add_line. rewrite lookup_take_self, lookup_take_S_self, Hs. done.
      * intros k x Hk _. unfold add_line. by rewrite lookup_take_S_ne.
  - (* without *)
    rewrite (alter_mid1' _ Ld _ _ _ j) by (rewrite ?length_imap; lia).
    rewrite (alter_mid1' _ Rd _ _ _ j) by (rewrite ?length_imap; lia).
    rewrite HP. f_equal.
    + f_equal. f_equal. apply alter_imap_step.
      * intros x Hx. unfold rem_line.
        rewrite lookup_take_self, lookup_take_S_self, Ht. done.
      * intros k x Hk _. unfold rem_line. by rewrite lookup_take_S_ne.
    + f_equal. f_equal. apply alter_imap_step.
      * intros x Hx. unfold add_line.
        rewrite lookup_take_self, lookup_take_S_self, Hs. done.
      * intros k x Hk _. unfold add_line. by rewrite lookup_take_S_ne.
Qed.

End Merge.

Lemma rem_pairs_left_only nl nr (ss : list string) :
  Forall (λ p, left_only p = true) (imap (rem_pair nl nr []) ss).
Proof.
  apply Forall_forall. intros p Hp.
  apply elem_of_lookup_imap in Hp as (k & s & -> & _). done.
Qed.

Lemma add_pairs_right_only nr (ss0 ts : list string) :
  Forall (λ p, right_only p = true) (imap (add_pair nr ss0) ts).
Proof.
  apply Forall_forall. intros p Hp.
  apply elem_of_lookup_imap in Hp as (k & t & -> & _). done.
Qed.

Section Change.

Variable diffChars : string → string → list Part.
Variable enable : bool.
Variables (Ld Rd : list Line) (Pd : list Pair) (ss ts : list string).
Variables (Lrest Rrest : list Line) (Prest : list Pair).

Local Abbreviation merge_state' :=
  (merge_state diffChars enable Ld Rd Pd ss ts Lrest Rrest Prest).

Lemma merge_loop_state m :
  m ≤ length ss → m ≤ length ts →
  fold_left (merge_at diffChars enable (length Pd) (length Pd + length ss))
    (seq 0 m) (merge_state' 0)
  = merge_state' m.
Proof.
  induction m as [|m IH]; intros Hs Ht; [done|].
  rewrite seq_S, fold_left_app, IH by lia. simpl.
  destruct (lookup_lt_is_Some_2 ss m) as [s Hsm]; [lia|].
  destruct (lookup_lt_is_Some_2 ts m) as [t Htm]; [lia|].
  by apply (merge_at_state _ _ _ _ _ _ _ _ _ _ _ s t).
Qed.

(** After [min] iterations the chunk is in its final form. *)
Lemma merge_state_min :
  merge_state' (length ss `min` length ts) = merge_state' (length ss + length ts).
Proof.
  unfold merge_state. f_equal.
  - f_equal. f_equal. apply imap_ext. intros k s Hk.
    apply lookup_lt_Some in Hk. unfold rem_line.
    rewrite (take_ge ts (length ss + length ts)) by lia.
    destruct (decide (k < length ts)).
    + by rewrite lookup_take_lt by lia.
    + by rewrite lookup_take_ge, lookup_ge_None_2 by lia.
  - f_equal. f_equal. apply imap_ext. intros k t Hk.
    apply lookup_lt_Some in Hk. unfold add_line.
    rewrite (take_ge ss (length ss + length ts)) by lia.
    destruct (decide (k < length ss)).
    + by rewrite lookup_take_lt by lia.
    + by rewrite lookup_take_ge, lookup_ge_None_2 by lia.
  - f_equal. f_equal; [|f_equal].
    + apply imap_ext. intros k s Hk.
      apply lookup_lt_Some in Hk. unfold rem_pair.
      rewrite (take_ge ts (length ss + length ts)) by lia.
      destruct (decide (k < length ts)).
      * by rewrite lookup_take_lt by lia.
      * by rewrite lookup_take_ge, lookup_ge_None_2 by lia.
    + apply imap_ext. intros k t Hk.
      apply lookup_lt_Some in Hk. unfold add_pair.
      rewrite (take_ge ss (length ss + length ts)) by lia.
      destruct (decide (k < length ss)).
      * by rewrite lookup_take_lt by lia.
      * by rewrite lookup_take_ge, lookup_ge_None_2 by lia.
Qed.

(** One iteration of the scanning loop on a change chunk that starts with a
    removed line. *)
Lemma detect_body_merge_state :
  ss ≠ [] →
  (∀ q, Prest !! 0 = Some q → right_only q = false) →
  (ts = [] → ∀ q, Prest !! 0 = Some q → left_only q = false) →
  detect_body diffChars enable (merge_state' 0) (length Pd)
  = (merge_state' (length ss + length ts), length Pd + length ss + length ts).
Proof.
  intros Hss Hrest_r Hrest_l.
  destruct ss as [|s0 ss'] eqn:Ess; [done|]. rewrite <- Ess in *.
  assert (0 < length ss) as Hlen by (rewrite Ess; simpl; lia).
  assert (ss !! 0 = Some s0) as Hs0 by (by rewrite Ess).
  unfold detect_body.
  assert (r_pairs (merge_state' 0) !! length Pd
          = Some (rem_pair (length Ld) (length Rd) [] 0 s0)) as ->.
  { unfold merge_state. cbn [r_pairs]. rewrite take_0.
    rewrite (lookup_mid1' _ _ _ _ 0) by (rewrite ?length_imap; lia).
    by rewrite list_lookup_imap, Hs0. }
  assert (type_is Removed (r_left (merge_state' 0))
            (p_left (rem_pair (length Ld) (length Rd) [] 0 s0)) = true) as ->.
  { unfold type_is, deref, merge_state. cbn [r_left rem_pair p_left mbind option_bind].
    rewrite (lookup_mid1' _ _ _ _ 0) by (rewrite ?length_imap; lia).
    by rewrite list_lookup_imap, Hs0. }
  cbn [left_only rem_pair p_left p_right present negb andb lookup list_lookup].
  assert (run_end left_only (drop (length Pd) (r_pairs (merge_state' 0))) (length Pd)
          = length Pd + length ss) as ->.
  { unfold merge_state. cbn [r_pairs]. rewrite drop_app_length, !take_0.
    rewrite run_end_all by apply rem_pairs_left_only.
    rewrite length_imap. apply run_end_stop.
    intros q. destruct ts as [|t0 ts'] eqn:Ets.
    - simpl. by apply Hrest_l.
    - rewrite imap_cons. simpl. by intros [= <-]. }
  destruct (decide (ts = [])) as [Ets|Ets].
  - (* no added line follows *)
    assert (length ts = 0) as Hlen0 by (by rewrite Ets).
    assert (merge_state' 0 = merge_state' (length ss + length ts)) as Hfull.
    { rewrite <- merge_state_min. f_equal. lia. }
    assert (r_pairs (merge_state' 0) !! (length Pd + length ss) = Prest !! 0) as ->.
    { unfold merge_state. cbn [r_pairs]. rewrite Ets at 2. simpl imap at 2.
      rewrite app_assoc, lookup_app_r by (rewrite length_app, length_imap; lia).
      rewrite length_app, length_imap.
      by replace (length Pd + length ss - (length Pd + length ss)) with 0 by lia. }
    replace (length Pd + length ss + length ts) with (length Pd + length ss) by lia.
    rewrite <- Hfull.
    destruct (Prest !! 0) as [q|] eqn:Eq; [|done].
    by rewrite (Hrest_r q eq_refl).
  - (* the added run follows: the [for] loop merges *)
    assert (0 < length ts) as Hlent by (destruct ts; [done|simpl; lia]).
    destruct (lookup_lt_is_Some_2 ts 0 Hlent) as [t0 Ht0].
    assert (r_pairs (merge_state' 0) !! (length Pd + length ss)
            = Some (add_pair (length Rd) [] 0 t0)) as ->.
    { unfold merge_state. cbn [r_pairs]. rewrite !take_0.
      rewrite (lookup_mid2' _ _ _ _ _ 0) by (rewrite ?length_imap; lia).
      by rewrite list_lookup_imap, Ht0. }
    assert (type_is Added (r_right (merge_state' 0))
              (p_right (add_pair (length Rd) [] 0 t0)) = true) as ->.
    { unfold type_is, deref, merge_state.
      cbn [r_right add_pair p_right mbind option_bind].
      rewrite (lookup_mid1' _ _ _ _ 0) by (rewrite ?length_imap; lia).
      by rewrite list_lookup_imap, Ht0. }
    cbn [right_only add_pair p_left p_right present negb andb].
    assert (run_end right_only
              (drop (length Pd + length ss) (r_pairs (merge_state' 0)))
              (length Pd + length ss)
            = length Pd + length ss + length ts) as ->.
    { unfold merge_state. cbn [r_pairs]. rewrite !take_0.
      rewrite app_assoc.
      replace (length Pd + length ss) with
        (length (Pd ++ imap (rem_pair (length Ld) (length Rd) []) ss))
        by (by rewrite length_app, length_imap).
      rewrite drop_app_length.
      rewrite run_end_all by apply add_pairs_right_only.
      rewrite length_imap. by apply run_end_stop. }
    replace (length Pd + length ss - 1 - length Pd + 1) with (length ss) by lia.
    replace (length Pd + length ss + length ts - 1 - (length Pd + length ss) + 1)
      with (length ts) by lia.
    rewrite merge_loop_state by lia. by rewrite merge_state_min.
Qed.

End Change.

Section Loop.

Variable diffChars : string → string → list Part.
Variable enable : bool.

Lemma detect_loop_more_fuel fuel k res i r :
  detect_loop diffChars fuel enable res i = Some r →
  detect_loop diffChars (fuel + k) enable res i = Some r.
Proof.
  revert res i. induction fuel as [|fuel IH]; intros res i; simpl.
  - destruct (decide (i < length (r_pairs res))); [done|].
    intros [= <-]. destruct k; simpl; by rewrite decide_False.
  - destruct (decide (i < length (r_pairs res))); [|done].
    destruct (detect_body diffChars enable res i) as [res' i']. apply IH.
Qed.

Lemma detect_loop_done fuel res i :
  length (r_pairs res) ≤ i → detect_loop diffChars fuel enable res i = Some res.
Proof. intros Hi. destruct fuel; simpl; rewrite decide_False by lia; done. Qed.

Lemma detect_loop_step fuel res i :
  i < length (r_pairs res) →
  detect_loop diffChars (S fuel) enable res i
  = detect_loop diffChars fuel enable (detect_body diffChars enable res i).1
      (detect_body diffChars enable res i).2.
Proof.
  intros Hi. simpl. rewrite decide_True by done.
  by destruct (detect_body diffChars enable res i).
Qed.

Lemma detect_body_skip res i p :
  r_pairs res !! i = Some p → left_only p = false →
  detect_body diffChars enable res i = (res, S i).
Proof. intros Hp Hlo. unfold detect_body. by rewrite Hp, Hlo. Qed.

(** Pairs that are not left-only are passed one by one. *)
Lemma detect_loop_skip n fuel res i :
  (∀ k, k < n → ∃ p, r_pairs res !! (i + k) = Some p ∧ left_only p = false) →
  detect_loop diffChars (n + fuel) enable res i
  = detect_loop diffChars fuel enable res (i + n).
Proof.
  revert i. induction n as [|n IH]; intros i Hskip.
  - by rewrite Nat.add_0_r.
  - destruct (Hskip 0) as (p & Hp & Hlo); [lia|]. rewrite Nat.add_0_r in Hp.
    change (S n + fuel) with (S (n + fuel)).
    rewrite detect_loop_step by (by eapply lookup_lt_Some).
    rewrite (detect_body_skip res i p) by done. simpl.
    rewrite IH; [f_equal; lia|].
    intros k Hk. destruct (Hskip (S k)) as (q & Hq & Hqlo); [lia|].
    exists q. split; [|done]. by replace (S i + k) with (i + S k) by lia.
Qed.

Lemma length_chunk_left c nl :
  length (chunk_left diffChars enable c nl) = left_count c.
Proof. destruct c; simpl; [done|]. by rewrite length_imap. Qed.

Lemma length_chunk_right c nr :
  length (chunk_right diffChars enable c nr) = right_count c.
Proof. destruct c; simpl; [done|]. by rewrite length_imap. Qed.

Lemma length_chunk_pairs c nl nr :
  length (chunk_pairs c nl nr) = length (chunk_rows c).
Proof.
  destruct c; simpl; [done|]. by rewrite !length_app, !length_imap, !length_fmap.
Qed.

Lemma length_build_left_chunk c nl :
  length (build_left (chunk_rows c) nl) = left_count c.
Proof.
  destruct c as [s|ss ts]; [done|]. unfold chunk_rows.
  rewrite build_left_app, (build_left_removed diffChars enable), build_left_added.
  rewrite length_app, length_imap. simpl. lia.
Qed.

Lemma length_build_right_chunk c nr :
  length (build_right (chunk_rows c) nr) = right_count c.
Proof.
  destruct c as [s|ss ts]; [done|]. unfold chunk_rows.
  rewrite build_right_app, build_right_removed, (build_right_added diffChars enable).
  rewrite length_app, length_imap. simpl. lia.
Qed.

Lemma scan_state_change_init Ld Rd Pd ss ts rest :
  scan_state Ld Rd Pd (chunk_rows (Change ss ts) ++ rest)
  = merge_state diffChars enable Ld Rd Pd ss ts
      (build_left rest (length Ld + length ss))
      (build_right rest (length Rd + length ts))
      (build_pairs rest (length Ld + length ss) (length Rd + length ts)) 0.
Proof.
  unfold scan_state, merge_state. rewrite !take_0.
  rewrite build_left_app, build_right_app, build_pairs_app.
  rewrite length_build_left_chunk, length_build_right_chunk.
  unfold chunk_rows, left_count, right_count.
  rewrite !build_left_app, !build_right_app, !build_pairs_app.
  rewrite (build_left_removed diffChars enable), build_left_added.
  rewrite build_right_removed, (build_right_added diffChars enable).
  rewrite build_pairs_removed, build_pairs_added.
  rewrite ?length_app, ?length_imap. simpl.
  rewrite ?app_nil_r, ?Nat.add_0_r, <- ?app_assoc. done.
Qed.

Lemma scan_state_change_done Ld Rd Pd ss ts rest :
  scan_state (Ld ++ chunk_left diffChars enable (Change ss ts) (length Ld))
             (Rd ++ chunk_right diffChars enable (Change ss ts) (length Rd))
             (Pd ++ chunk_pairs (Change ss ts) (length Ld) (length Rd)) rest
  = merge_state diffChars enable Ld Rd Pd ss ts
      (build_left rest (length Ld + length ss))
      (build_right rest (length Rd + length ts))
      (build_pairs rest (length Ld + length ss) (length Rd + length ts))
      (length ss + length ts).
Proof.
  unfold scan_state, merge_state, chunk_left, chunk_right, chunk_pairs.
  rewrite !take_ge by lia.
  rewrite ?length_app, ?length_imap, <- ?app_assoc. done.
Qed.

(** The scanning loop passes one chunk. *)
Lemma chunk_loop c rest fuel Ld Rd Pd :
  chunk_maximal c rest →
  detect_loop diffChars (chunk_iters c + fuel) enable
    (scan_state Ld Rd Pd (chunk_rows c ++ rest)) (length Pd)
  = detect_loop diffChars fuel enable
      (scan_state (Ld ++ chunk_left diffChars enable c (length Ld))
                  (Rd ++ chunk_right diffChars enable c (length Rd))
                  (Pd ++ chunk_pairs c (length Ld) (length Rd)) rest)
      (length (Pd ++ chunk_pairs c (length Ld) (length Rd))).
Proof.
  intros Hmax. destruct c as [s|[|s0 ss'] ts].
  - (* a common line *)
    rewrite scan_state_app. simpl chunk_iters.
    rewrite (detect_loop_skip 1).
    + rewrite length_app. done.
    + intros k Hk. replace k with 0 by lia. rewrite Nat.add_0_r.
      eexists. split; [|shelve]. unfold scan_state. cbn [r_pairs].
      rewrite <- app_assoc. apply list_lookup_middle. done.
      Unshelve. done.
  - (* added lines that follow no removed line *)
    rewrite scan_state_app. unfold chunk_iters.
    assert (build_pairs (chunk_rows (Change [] ts)) (length Ld) (length Rd)
            = chunk_pairs (Change [] ts) (length Ld) (length Rd)) as HP.
    { unfold chunk_rows, chunk_pairs. simpl. apply build_pairs_added. }
    assert (build_left (chunk_rows (Change [] ts)) (length Ld)
            = chunk_left diffChars enable (Change [] ts) (length Ld)) as HL.
    { unfold chunk_rows. simpl. apply build_left_added. }
    assert (build_right (chunk_rows (Change [] ts)) (length Rd)
            = chunk_right diffChars enable (Change [] ts) (length Rd)) as HR.
    { unfold chunk_rows. simpl. apply build_right_added. }
    rewrite HP, HL, HR.
    rewrite detect_loop_skip.
    + rewrite length_app. do 2 f_equal. simpl. by rewrite length_imap.
    + intros k Hk. unfold scan_state. cbn [r_pairs].
      destruct (lookup_lt_is_Some_2 ts k Hk) as [t Ht].
      exists (add_pair (length Rd) [] k t). split; [|done].
      rewrite <- !app_assoc.
      rewrite (lookup_mid1' _ _ _ _ k) by (simpl; rewrite ?length_imap; lia).
      simpl. by rewrite list_lookup_imap, Ht.
  - (* a removed run, with or without an added run *)
    destruct Hmax as [Hadd Hrem]; [done|].
    simpl chunk_iters. change (1 + fuel) with (S fuel).
    rewrite scan_state_change_init.
    rewrite detect_loop_step.
    + rewrite detect_body_merge_state.
      * cbn [fst snd]. rewrite scan_state_change_done.
        f_equal. rewrite length_app, length_chunk_pairs.
        unfold chunk_rows. rewrite length_app, !length_fmap. lia.
      * done.
      * intros q. by apply build_pairs_head_not_right_only.
      * intros Hts q. apply build_pairs_head_not_left_only. by apply Hrem.
    + unfold merge_state. cbn [r_pairs].
      rewrite !length_app, length_imap. simpl. lia.
Qed.

Lemma chunks_rows_cons c chunks :
  chunks_rows (c :: chunks) = chunk_rows c ++ chunks_rows chunks.
Proof. reflexivity. Qed.

(** The scanning loop on the pairs of a sequence of maximal chunks. *)
Lemma detect_loop_chunks chunks fuel Ld Rd Pd :
  chunks_maximal chunks →
  detect_loop diffChars (chunks_iters chunks + fuel) enable
    (scan_state Ld Rd Pd (chunks_rows chunks)) (length Pd)
  = Some {| r_left := Ld ++ out_left diffChars enable chunks (length Ld);
            r_right := Rd ++ out_right diffChars enable chunks (length Rd);
            r_pairs := Pd ++ out_pairs chunks (length Ld) (length Rd) |}.
Proof.
  revert fuel Ld Rd Pd. induction chunks as [|c chunks IH]; intros fuel Ld Rd Pd Hmax.
  - apply detect_loop_done. unfold scan_state. simpl. rewrite length_app. simpl. lia.
  - destruct Hmax as [Hc Hmax].
    rewrite chunks_rows_cons. simpl chunks_iters. rewrite <- Nat.add_assoc.
    rewrite chunk_loop by done. rewrite IH by done.
    simpl. rewrite !length_app, length_chunk_left, length_chunk_right, <- !app_assoc.
    done.
Qed.

End Loop.

(** ** The chunks of a row sequence *)

Lemma chunks_of_rows rows : chunks_rows (chunks_of rows) = rows.
Proof.
  induction rows as [|[[] s] rows IH]; [done|..]; simpl.
  - destruct (chunks_of rows) as [|[s'|[|s1 ss] ts] chunks]; rewrite <- IH; done.
  - destruct (chunks_of rows) as [|[s'|ss ts] chunks]; rewrite <- IH; done.
  - by rewrite <- IH at 2.
Qed.

Lemma chunks_of_strict rows : chunks_strict (chunks_of rows).
Proof.
  induction rows as [|[[] s] rows IH]; [done|..]; simpl.
  - destruct (chunks_of rows) as [|[s'|[|s1 ss] ts] chunks]; simpl in *.
    + split; [|done]. split; [by right|]. done.
    + split; [|done]. split; [by right|]. done.
    + destruct IH as [(Hne & Hadd & Hrem) Hrest].
      split; [|done]. split; [by right|]. done.
    + split; [|done]. split; [by right|]. done.
  - destruct (chunks_of rows) as [|[s'|ss ts] chunks]; simpl in *.
    + split; [|done]. split; [by left|]. done.
    + split; [|done]. split; [by left|]. done.
    + destruct IH as [(Hne & Hadd & Hrem) Hrest].
      split; [|done]. split; [by left|]. done.
  - done.
Qed.

Lemma chunks_strict_maximal chunks : chunks_strict chunks → chunks_maximal chunks.
Proof.
  induction chunks as [|c chunks IH]; [done|]. intros [Hc Hrest].
  split; [|by apply IH]. destruct c as [s|ss ts]; [done|].
  destruct Hc as (_ & Hadd & Hrem). done.
Qed.

Lemma chunks_of_maximal rows : chunks_maximal (chunks_of rows).
Proof. apply chunks_strict_maximal, chunks_of_strict. Qed.

(** ** [detectModifications], [processDiff] and [compare] in closed form *)

Section Closed.

Variable diffLines : string → string → list Part.
Variable diffChars : string → string → list Part.

Lemma detectModifications_chunks e chunks :
  chunks_maximal chunks →
  detectModifications diffChars e (scan_state [] [] [] (chunks_rows chunks))
  = Some (chunks_result diffChars (enableCharDiff e) chunks).
Proof.
  intros Hmax. unfold detectModifications.
  set (st := scan_state [] [] [] (chunks_rows chunks)).
  destruct (detect_loop_enough_fuel diffChars (enableCharDiff e)
              (length (r_pairs st)) st 0) as [res Hres]; [lia|].
  rewrite Hres. simpl.
  apply (detect_loop_more_fuel _ _ _ (chunks_iters chunks)) in Hres.
  rewrite Nat.add_comm in Hres.
  pose proof (detect_loop_chunks diffChars (enableCharDiff e) chunks
                (length (r_pairs st)) [] [] [] Hmax) as Hloop.
  change (length (@nil Pair)) with 0 in Hloop. fold st in Hloop.
  rewrite Hloop in Hres. injection Hres as <-. done.
Qed.

Lemma processDiff_chunks e diff enable :
  processDiff diffChars e diff enable
  = Some (set_enableCharDiff enable e,
          chunks_result diffChars enable (chunks_of (diff_rows diff))).
Proof.
  unfold processDiff. rewrite pair_lines_rows.
  rewrite <- (chunks_of_rows (diff_rows diff)) at 1.
  rewrite detectModifications_chunks by apply chunks_of_maximal. done.
Qed.

End Closed.

(** ** The pairs that survive *)

Lemma filter_all {A} (P : A → Prop) `{∀ x, Decision (P x)} (l : list A) :
  Forall P l → filter P l = l.
Proof.
  induction 1 as [|x l Hx _ IH]; [done|]. by rewrite filter_cons_True, IH.
Qed.

Lemma filter_add_pairs nr (ss ts : list string) :
  filter (λ p, p_merged p = false) (imap (add_pair nr ss) ts)
  = drop (length ss) (imap (add_pair nr ss) ts).
Proof.
  revert nr ss. induction ts as [|t ts IH]; intros nr ss.
  - simpl. by rewrite drop_nil.
  - destruct ss as [|s ss].
    + cbn [length]. rewrite drop_0. apply filter_all, Forall_forall. intros p Hp.
      apply elem_of_lookup_imap in Hp as (k & x & -> & _). done.
    + rewrite imap_cons. rewrite filter_cons_False by (simpl; congruence).
      cbn [length drop].
      assert (imap (add_pair nr (s :: ss) ∘ S) ts = imap (add_pair (S nr) ss) ts)
        as ->; [|apply IH].
      apply imap_ext. intros k x _. unfold add_pair. simpl. do 2 f_equal. lia.
Qed.

Lemma filter_chunk_pairs c nl nr :
  filter (λ p, p_merged p = false) (chunk_pairs c nl nr) = chunk_live c nl nr.
Proof.
  destruct c as [s|ss ts]; [done|]. unfold chunk_pairs, chunk_live.
  rewrite filter_app, filter_add_pairs. f_equal.
  apply filter_all, Forall_forall. intros p Hp.
  apply elem_of_lookup_imap in Hp as (k & x & -> & _). done.
Qed.

Lemma filter_out_pairs chunks nl nr :
  filter (λ p, p_merged p = false) (out_pairs chunks nl nr) = out_live chunks nl nr.
Proof.
  revert nl nr. induction chunks as [|c chunks IH]; intros nl nr; [done|].
  simpl. by rewrite filter_app, filter_chunk_pairs, IH.
Qed.

Lemma out_left_app diffChars enable chunks1 chunks2 nl :
  out_left diffChars enable (chunks1 ++ chunks2) nl
  = out_left diffChars enable chunks1 nl
    ++ out_left diffChars enable chunks2
         (nl + length (out_left diffChars enable chunks1 nl)).
Proof.
  revert nl. induction chunks1 as [|c chunks1 IH]; intros nl; simpl.
  - by rewrite Nat.add_0_r.
  - rewrite IH, <- app_assoc, length_app, length_chunk_left.
    do 3 f_equal. lia.
Qed.

Lemma out_right_app diffChars enable chunks1 chunks2 nr :
  out_right diffChars enable (chunks1 ++ chunks2) nr
  = out_right diffChars enable chunks1 nr
    ++ out_right diffChars enable chunks2
         (nr + length (out_right diffChars enable chunks1 nr)).
Proof.
  revert nr. induction chunks1 as [|c chunks1 IH]; intros nr; simpl.
  - by rewrite Nat.add_0_r.
  - rewrite IH, <- app_assoc, length_app, length_chunk_right.
    do 3 f_equal. lia.
Qed.

Lemma out_live_app diffChars enable chunks1 chunks2 nl nr :
  out_live (chunks1 ++ chunks2) nl nr
  = out_live chunks1 nl nr
    ++ out_live chunks2 (nl + length (out_left diffChars enable chunks1 nl))
                        (nr + length (out_right diffChars enable chunks1 nr)).
Proof.
  revert nl nr. induction chunks1 as [|c chunks1 IH]; intros nl nr; simpl.
  - by rewrite !Nat.add_0_r.
  - rewrite IH, <- app_assoc, !length_app, length_chunk_left, length_chunk_right.
    do 2 f_equal. f_equal; lia.
Qed.

Section Final.

Variable diffChars : string → string → list Part.
Variable enable : bool.

Lemma chunk_live_final c Lp Rp Ls Rs :
  Forall (final_pair diffChars enable
            (Lp ++ chunk_left diffChars enable c (length Lp) ++ Ls)
            (Rp ++ chunk_right diffChars enable c (length Rp) ++ Rs))
         (chunk_live c (length Lp) (length Rp)).
Proof.
  destruct c as [s|ss ts].
  - repeat constructor. apply (final_unchanged _ _ _ _ s).
    + by apply list_lookup_middle.
    + by apply list_lookup_middle.
  - unfold chunk_live, chunk_left, chunk_right. apply Forall_app. split.
    + apply Forall_forall. intros p Hp.
      apply elem_of_lookup_imap in Hp as (k & s & -> & Hs).
      assert (k < length ss) as Hk by (by eapply lookup_lt_Some).
      unfold rem_pair. destruct (ts !! k) as [t|] eqn:Ht.
      * assert (k < length ts) as Hkt by (by eapply lookup_lt_Some).
        apply (final_modified _ _ _ _ s t).
        -- rewrite (lookup_mid1' _ _ _ _ k) by (rewrite ?length_imap; lia).
           rewrite list_lookup_imap, Hs. unfold rem_line. by rewrite Ht.
        -- rewrite (lookup_mid1' _ _ _ _ k) by (rewrite ?length_imap; lia).
           rewrite list_lookup_imap, Ht. unfold add_line. by rewrite Hs.
      * apply (final_removed _ _ _ _ s).
        rewrite (lookup_mid1' _ _ _ _ k) by (rewrite ?length_imap; lia).
        rewrite list_lookup_imap, Hs. unfold rem_line. by rewrite Ht.
    + apply Forall_forall. intros p Hp.
      apply list_elem_of_lookup in Hp as [i Hi].
      rewrite lookup_drop, list_lookup_imap in Hi.
      destruct (ts !! (length ss + i)) as [t|] eqn:Ht; [|done].
      injection Hi as <-.
      assert (length ss + i < length ts) as Hkt by (by eapply lookup_lt_Some).
      unfold add_pair. rewrite lookup_ge_None_2 by lia.
      apply (final_added _ _ _ _ t).
      rewrite (lookup_mid1' _ _ _ _ (length ss + i)) by (rewrite ?length_imap; lia).
      rewrite list_lookup_imap, Ht. unfold add_line.
      by rewrite lookup_ge_None_2 by lia.
Qed.

Lemma out_live_final chunks Lp Rp :
  Forall (final_pair diffChars enable
            (Lp ++ out_left diffChars enable chunks (length Lp))
            (Rp ++ out_right diffChars enable chunks (length Rp)))
         (out_live chunks (length Lp) (length Rp)).
Proof.
  revert Lp Rp. induction chunks as [|c chunks IH]; intros Lp Rp; [constructor|].
  simpl. apply Forall_app. split.
  - apply chunk_live_final.
  - specialize (IH (Lp ++ chunk_left diffChars enable c (length Lp))
                   (Rp ++ chunk_right diffChars enable c (length Rp))).
    rewrite !length_app, length_chunk_left, length_chunk_right, <- !app_assoc in IH.
    done.
Qed.

(** Every pair of the result of [processDiff] has one of the four shapes. *)
Lemma chunks_result_final chunks :
  Forall (final_pair diffChars enable
            (r_left (chunks_result diffChars enable chunks))
            (r_right (chunks_result diffChars enable chunks)))
         (r_pairs (chunks_result diffChars enable chunks)).
Proof.
  unfold chunks_result. cbn [r_left r_right r_pairs].
  rewrite filter_out_pairs. apply (out_live_final chunks [] []).
Qed.

End Final.

(** ** The result of [compare] *)

Section Compare.

Variable diffLines : string → string → list Part.
Variable diffChars : string → string → list Part.

(** [compare] always returns: its result and the engine it leaves. *)
Lemma compare_chunks e leftText rightText :
  let enable :=
    bool_decide (length (splitLines (Some leftText))
                 + length (splitLines (Some rightText)) < maxLinesForCharDiff e) in
  let res := chunks_result diffChars enable
               (chunks_of (diff_rows (diffLines leftText rightText))) in
  compare diffLines diffChars e leftText rightText
  = Some ({| leftLines := splitLines (Some leftText);
             rightLines := splitLines (Some rightText);
             diffResult := Some res;
             diffBlocks := groupDiffBlocks res;
             maxLinesForCharDiff := maxLinesForCharDiff e;
             enableCharDiff := enable |}, res).
Proof.
  intros enable res. unfold compare. rewrite processDiff_chunks. done.
Qed.

Lemma final_pair_invariant enable res p :
  final_pair diffChars enable (r_left res) (r_right res) p →
  side_valid (r_left res) (p_left p) = true ∧
  side_valid (r_right res) (p_right p) = true ∧
  pair_invariant res p = true.
Proof.
  intros Hp. unfold pair_invariant, left_line, right_line, deref.
  destruct Hp as [s a b Ha Hb|s t a b Ha Hb|s a Ha|t b Hb]; simpl;
    rewrite ?Ha, ?Hb; simpl; repeat split; try done;
    try (apply bool_decide_eq_true_2; by eexists).
Qed.

(** C4: in the result of [compare], every pair has at least one side
    present (and a present side is a line of the result); when both sides
    are present and neither is modified, both are unchanged with the same
    content; when both are present and one is modified, so is the other. *)
Theorem compare_pair_invariant (e : DiffEngine) (leftText rightText : string) :
  ∃ e' res,
    compare diffLines diffChars e leftText rightText = Some (e', res) ∧
    Forall (λ p, side_valid (r_left res) (p_left p) = true ∧
                 side_valid (r_right res) (p_right p) = true ∧
                 pair_invariant res p = true) (r_pairs res).
Proof.
  eexists _, _. split; [apply compare_chunks|].
  eapply Forall_impl; [apply chunks_result_final|].
  intros p Hp. by eapply final_pair_invariant.
Qed.

End Compare.

(** ** Line numbers and contents of the two stores *)

Lemma imap_index_seq {A B} (f : nat → B) (l : list A) :
  imap (λ k _, f k) l = f <$> seq 0 (length l).
Proof.
  revert f. induction l as [|x l IH]; intros f; [done|].
  rewrite imap_cons. simpl. f_equal.
  rewrite <- fmap_S_seq, <- list_fmap_compose. apply (IH (f ∘ S)).
Qed.

Lemma seq_shift_fmap n len : (λ k, S (n + k)) <$> seq 0 len = seq (S n) len.
Proof.
  revert n. induction len as [|len IH]; intros n; [done|].
  simpl. rewrite Nat.add_0_r. f_equal.
  rewrite <- fmap_S_seq, <- list_fmap_compose, <- (IH (S n)).
  apply list_fmap_ext. intros _ k _. simpl. lia.
Qed.

Lemma lineNum_build_left rows nl :
  lineNum <$> build_left rows nl = seq (S nl) (length (build_left rows nl)).
Proof.
  revert nl. induction rows as [|[[] s] rows IH]; intros nl; simpl; [done|..];
    by rewrite ?IH.
Qed.

Lemma lineNum_build_right rows nr :
  lineNum <$> build_right rows nr = seq (S nr) (length (build_right rows nr)).
Proof.
  revert nr. induction rows as [|[[] s] rows IH]; intros nr; simpl; [done|..];
    by rewrite ?IH.
Qed.

Lemma content_build_left rows nl : content <$> build_left rows nl = left_contents rows.
Proof.
  unfold left_contents.
  revert nl. induction rows as [|[[] s] rows IH]; intros nl; [done|..];
    rewrite filter_cons; simpl; by rewrite IH.
Qed.

Lemma content_build_right rows nr : content <$> build_right rows nr = right_contents rows.
Proof.
  unfold right_contents.
  revert nr. induction rows as [|[[] s] rows IH]; intros nr; [done|..];
    rewrite filter_cons; simpl; by rewrite IH.
Qed.

Section Stores.

Variable diffChars : string → string → list Part.
Variable enable : bool.

Lemma lineNum_rem_line nl ts k s : lineNum (rem_line diffChars enable nl ts k s) = S (nl + k).
Proof. unfold rem_line. by destruct (ts !! k). Qed.

Lemma lineNum_add_line nr ss k t : lineNum (add_line diffChars enable nr ss k t) = S (nr + k).
Proof. unfold add_line. by destruct (ss !! k). Qed.

Lemma content_rem_line nl ts k s : content (rem_line diffChars enable nl ts k s) = s.
Proof. unfold rem_line. by destruct (ts !! k). Qed.

Lemma content_add_line nr ss k t : content (add_line diffChars enable nr ss k t) = t.
Proof. unfold add_line. by destruct (ss !! k). Qed.

(** The lines of a chunk have the numbers and the contents that the
    pairing gave them. *)
Lemma lineNum_chunk_left c nl :
  lineNum <$> chunk_left diffChars enable c nl = lineNum <$> build_left (chunk_rows c) nl.
Proof.
  destruct c as [s|ss ts]; [done|]. unfold chunk_left, chunk_rows.
  rewrite build_left_app, (build_left_removed diffChars enable), build_left_added, app_nil_r.
  rewrite !fmap_imap. apply imap_ext. intros k s _. simpl.
  by rewrite !lineNum_rem_line.
Qed.

Lemma lineNum_chunk_right c nr :
  lineNum <$> chunk_right diffChars enable c nr = lineNum <$> build_right (chunk_rows c) nr.
Proof.
  destruct c as [s|ss ts]; [done|]. unfold chunk_right, chunk_rows.
  rewrite build_right_app, build_right_removed, (build_right_added diffChars enable).
  rewrite app_nil_l. cbn [length]. rewrite Nat.add_0_r.
  rewrite !fmap_imap. apply imap_ext. intros k t _. simpl.
  by rewrite !lineNum_add_line.
Qed.

Lemma content_chunk_left c nl :
  content <$> chunk_left diffChars enable c nl = content <$> build_left (chunk_rows c) nl.
Proof.
  destruct c as [s|ss ts]; [done|]. unfold chunk_left, chunk_rows.
  rewrite build_left_app, (build_left_removed diffChars enable), build_left_added, app_nil_r.
  rewrite !fmap_imap. apply imap_ext. intros k s _. simpl.
  by rewrite !content_rem_line.
Qed.

Lemma content_chunk_right c nr :
  content <$> chunk_right diffChars enable c nr = content <$> build_right (chunk_rows c) nr.
Proof.
  destruct c as [s|ss ts]; [done|]. unfold chunk_right, chunk_rows.
  rewrite build_right_app, build_right_removed, (build_right_added diffChars enable).
  rewrite app_nil_l. cbn [length]. rewrite Nat.add_0_r.
  rewrite !fmap_imap. apply imap_ext. intros k t _. simpl.
  by rewrite !content_add_line.
Qed.

Lemma out_left_build {B} (f : Line → B) chunks nl :
  (∀ c n, f <$> chunk_left diffChars enable c n = f <$> build_left (chunk_rows c) n) →
  f <$> out_left diffChars enable chunks nl = f <$> build_left (chunks_rows chunks) nl.
Proof.
  intros Hf. revert nl. induction chunks as [|c chunks IH]; intros nl; [done|].
  rewrite chunks_rows_cons, build_left_app. simpl.
  rewrite !fmap_app, Hf, IH. by rewrite (length_build_left_chunk diffChars enable).
Qed.

Lemma out_right_build {B} (f : Line → B) chunks nr :
  (∀ c n, f <$> chunk_right diffChars enable c n = f <$> build_right (chunk_rows c) n) →
  f <$> out_right diffChars enable chunks nr = f <$> build_right (chunks_rows chunks) nr.
Proof.
  intros Hf. revert nr. induction chunks as [|c chunks IH]; intros nr; [done|].
  rewrite chunks_rows_cons, build_right_app. simpl.
  rewrite !fmap_app, Hf, IH. by rewrite (length_build_right_chunk diffChars enable).
Qed.

End Stores.

Section CompareStores.

Variable diffLines : string → string → list Part.
Variable diffChars : string → string → list Part.

Lemma chunks_result_left {B} (f : Line → B) enable rows :
  (∀ c n, f <$> chunk_left diffChars enable c n = f <$> build_left (chunk_rows c) n) →
  f <$> r_left (chunks_result diffChars enable (chunks_of rows))
  = f <$> build_left rows 0.
Proof.
  intros Hf. unfold chunks_result. cbn [r_left].
  by rewrite out_left_build, chunks_of_rows.
Qed.

Lemma chunks_result_right {B} (f : Line → B) enable rows :
  (∀ c n, f <$> chunk_right diffChars enable c n = f <$> build_right (chunk_rows c) n) →
  f <$> r_right (chunks_result diffChars enable (chunks_of rows))
  = f <$> build_right rows 0.
Proof.
  intros Hf. unfold chunks_result. cbn [r_right].
  by rewrite out_right_build, chunks_of_rows.
Qed.

(** C8: on each side of the result of [compare], the line numbers of the
    line objects, in the order of their creation (the order of
    [result.left], resp. [result.right]), are 1, 2, ..., N, where N is the
    number of line objects of that side; they are the numbers that the
    pairing phase assigned: the modification pass does not renumber. *)
Theorem compare_line_numbers (e : DiffEngine) (leftText rightText : string) :
  ∃ e' res,
    compare diffLines diffChars e leftText rightText = Some (e', res) ∧
    lineNum <$> r_left res = seq 1 (length (r_left res)) ∧
    lineNum <$> r_right res = seq 1 (length (r_right res)) ∧
    lineNum <$> r_left res
      = lineNum <$> r_left (pair_lines (diffLines leftText rightText)) ∧
    lineNum <$> r_right res
      = lineNum <$> r_right (pair_lines (diffLines leftText rightText)).
Proof.
  eexists _, _. split; [apply compare_chunks|].
  set (enable := bool_decide _).
  set (rows := diff_rows (diffLines leftText rightText)).
  pose proof (chunks_result_left lineNum enable rows
                (lineNum_chunk_left diffChars enable)) as HL.
  pose proof (chunks_result_right lineNum enable rows
                (lineNum_chunk_right diffChars enable)) as HR.
  rewrite pair_lines_rows. fold rows. unfold scan_state. cbn [r_left r_right app length].
  split; [|split; [|split]]; [| |done|done].
  - rewrite <- (length_fmap lineNum (r_left _)), HL, length_fmap.
    apply lineNum_build_left.
  - rewrite <- (length_fmap lineNum (r_right _)), HR, length_fmap.
    apply lineNum_build_right.
Qed.

End CompareStores.

(** ** The character diff *)

Lemma length_splitLines s : length (splitLines (Some s)) = piece_count s.
Proof.
  unfold piece_count. destruct s; [done|].
  rewrite splitLines_nonempty. apply split_newline_length.
Qed.

Section CharDiff.

Variable diffLines : string → string → list Part.
Variable diffChars : string → string → list Part.

Lemma out_left_no_charDiff chunks nl :
  Forall (λ line, charDiff line = None) (out_left diffChars false chunks nl).
Proof.
  revert nl. induction chunks as [|c chunks IH]; intros nl; [constructor|].
  simpl. apply Forall_app. split; [|apply IH].
  destruct c as [s|ss ts]; [by repeat constructor|].
  apply Forall_forall. intros line Hline.
  apply elem_of_lookup_imap in Hline as (k & s & -> & _).
  unfold rem_line. by destruct (ts !! k).
Qed.

Lemma out_right_no_charDiff chunks nr :
  Forall (λ line, charDiff line = None) (out_right diffChars false chunks nr).
Proof.
  revert nr. induction chunks as [|c chunks IH]; intros nr; [constructor|].
  simpl. apply Forall_app. split; [|apply IH].
  destruct c as [s|ss ts]; [by repeat constructor|].
  apply Forall_forall. intros line Hline.
  apply elem_of_lookup_imap in Hline as (k & t & -> & _).
  unfold add_line. by destruct (ss !! k).
Qed.

Lemma final_pair_charDiff res p :
  final_pair diffChars true (r_left res) (r_right res) p →
  modified_has_charDiff res p = true.
Proof.
  intros Hp. unfold modified_has_charDiff, left_line, right_line, deref.
  destruct Hp as [s a b Ha Hb|s t a b Ha Hb|s a Ha|t b Hb]; simpl;
    rewrite ?Ha, ?Hb; simpl; done.
Qed.

(** C7, amended: with the threshold 5000 of the constructor, [compare]
    computes the character diff exactly when the numbers of pieces that
    [splitLines] finds in the two texts (for a non-empty text one more than
    the number of its line feeds, for the empty text 0) add up to less than
    5000.  Below the threshold every pair with a modified side has both
    sides, each with a [charDiff]; at or above it no line of the result has
    a [charDiff]. *)
Theorem compare_charDiff_threshold (e : DiffEngine) (leftText rightText : string) :
  maxLinesForCharDiff e = 5000 →
  ∃ e' res,
    compare diffLines diffChars e leftText rightText = Some (e', res) ∧
    let totalLines := piece_count leftText + piece_count rightText in
    totalLines
      = length (splitLines (Some leftText)) + length (splitLines (Some rightText)) ∧
    maxLinesForCharDiff e' = 5000 ∧
    enableCharDiff e' = bool_decide (totalLines < 5000) ∧
    (totalLines < 5000 →
       Forall (λ p, modified_has_charDiff res p = true) (r_pairs res)) ∧
    (5000 ≤ totalLines →
       Forall (λ line, charDiff line = None) (r_left res) ∧
       Forall (λ line, charDiff line = None) (r_right res)).
Proof.
  intros Hmax. eexists _, _. split; [apply compare_chunks|].
  rewrite Hmax, !length_splitLines. cbn [maxLinesForCharDiff enableCharDiff].
  split; [done|]. split; [done|]. split; [done|]. split.
  - intros Hlt. rewrite bool_decide_eq_true_2 by done.
    eapply Forall_impl; [apply chunks_result_final|].
    intros p Hp. by apply final_pair_charDiff.
  - intros Hge. rewrite bool_decide_eq_false_2 by lia.
    split; [apply out_left_no_charDiff|apply out_right_no_charDiff].
Qed.

End CharDiff.

(** C7, as stated, fails: a text of 2499 lines and a text of 2500 lines,
    each line ended by a line feed, have 4999 lines together, which is below
    the threshold; but [splitLines] finds 2500 and 2501 pieces, so [compare]
    computes no character diff, and the modified pair of the first lines has
    no [charDiff] on either side. *)
Lemma compare_charDiff_threshold_counterexample :
  let leftText := "b" +:+ empty_lines 2499 in
  let rightText := "x" +:+ empty_lines 2500 in
  String.concat "" (left_values (long_texts_diff leftText rightText)) = leftText ∧
  String.concat "" (right_values (long_texts_diff leftText rightText)) = rightText ∧
  length (spec_lines leftText) + length (spec_lines rightText) = 4999 ∧
  ∃ e' res,
    compare long_texts_diff replace_all_diff new_DiffEngine leftText rightText
      = Some (e', res) ∧
    length (r_left res) + length (r_right res) = 4999 ∧
    maxLinesForCharDiff e' = 5000 ∧
    enableCharDiff e' = false ∧
    ∃ p a b,
      r_pairs res !! 0 = Some p ∧
      left_line res p = Some a ∧
      right_line res p = Some b ∧
      type a = Modified ∧ type b = Modified ∧
      charDiff a = None ∧ charDiff b = None ∧
      modified_has_charDiff res p = false.
Proof.
  intros leftText rightText.
  split; [vm_compute; reflexivity|]. split; [vm_compute; reflexivity|].
  split; [vm_compute; reflexivity|].
  eexists _, _. split; [apply compare_chunks|].
  assert (bool_decide (length (splitLines (Some leftText))
                       + length (splitLines (Some rightText))
                       < maxLinesForCharDiff new_DiffEngine) = false) as ->
    by (vm_compute; reflexivity).
  split; [vm_compute; reflexivity|]. split; [reflexivity|]. split; [reflexivity|].
  eexists _, _, _.
  split; [vm_compute; reflexivity|]. split; [vm_compute; reflexivity|].
  split; [vm_compute; reflexivity|]. repeat split; vm_compute; reflexivity.
Qed.

(** ** Statistics *)

Lemma count_pairs_cons f p pairs :
  count_pairs f (p :: pairs) = (if f p then 1 else 0) + count_pairs f pairs.
Proof.
  unfold count_pairs. rewrite filter_cons.
  destruct (f p); simpl; done.
Qed.

Lemma count_pairs_ext f g pairs :
  Forall (λ p, f p = g p) pairs → count_pairs f pairs = count_pairs g pairs.
Proof.
  induction 1 as [|p pairs Hp _ IH]; [done|].
  by rewrite !count_pairs_cons, Hp, IH.
Qed.

(** The [forEach] of [getStats] counts four disjoint kinds of pairs. *)
Lemma stats_fold res pairs c :
  fold_left (stats_step res) pairs c
  = {| c_added := c_added c + count_pairs right_only pairs;
       c_removed := c_removed c + count_pairs left_only pairs;
       c_modified := c_modified c
         + count_pairs (λ p, present (p_left p) && present (p_right p)
                             && type_is Modified (r_left res) (p_left p)) pairs;
       c_unchanged := c_unchanged c
         + count_pairs (λ p, present (p_left p) && present (p_right p)
                             && negb (type_is Modified (r_left res) (p_left p))) pairs |}.
Proof.
  revert c. induction pairs as [|p pairs IH]; intros c.
  - destruct c. unfold count_pairs. simpl. f_equal; lia.
  - simpl fold_left. rewrite IH, !count_pairs_cons. unfold stats_step, left_only, right_only.
    destruct (present (p_left p)), (present (p_right p)); simpl;
      [destruct (type_is Modified (r_left res) (p_left p))|..]; simpl; f_equal; lia.
Qed.

Lemma ends_with_LF_app v : ends_with_LF v = true → ∃ w, v = w +:+ nl.
Proof.
  induction v as [|c v IH]; [done|]. simpl. destruct v as [|c' v].
  - intros Hc. apply Ascii.eqb_eq in Hc as ->. by exists "".
  - intros Hv. destruct (IH Hv) as [w ->]. by exists (String c w).
Qed.

(** The pieces of a text end with an empty piece only when the text is
    empty or ends with a line feed. *)
Lemma split_newline_last_empty s :
  last (split_newline s) = Some "" → s = "" ∨ ends_with_LF s = true.
Proof.
  induction s as [|s IH|s IH|c s Hc Hcr IH] using split_ind.
  - by left.
  - rewrite split_newline_LF, last_cons.
    destruct (last (split_newline s)) as [y|] eqn:E.
    + intros Hy. right. destruct (IH Hy) as [->|Hs]; [done|]. by destruct s.
    + apply last_None in E. by destruct (split_newline_nonempty s).
  - rewrite split_newline_CRLF, last_cons.
    destruct (last (split_newline s)) as [y|] eqn:E.
    + intros Hy. right. destruct (IH Hy) as [->|Hs]; [done|]. by destruct s.
    + apply last_None in E. by destruct (split_newline_nonempty s).
  - destruct (split_newline_char c s Hc Hcr) as (piece & pieces & E1 & ->).
    rewrite E1, last_cons in IH. rewrite last_cons.
    destruct (last pieces) as [y|] eqn:E; [|done].
    intros Hy. right. destruct (IH Hy) as [->|Hs].
    + injection E1 as _ <-. done.
    + by destruct s.
Qed.

(** [splitLines] counts one piece more than the text has lines exactly
    when the text ends with a line feed. *)
Lemma length_splitLines_spec s :
  length (splitLines (Some s))
  = length (spec_lines s) + (if ends_with_LF s then 1 else 0).
Proof.
  destruct s as [|c s]; [done|]. rewrite splitLines_nonempty.
  unfold spec_lines, pop_last_empty. set (t := String c s).
  destruct (ends_with_LF t) eqn:E.
  - destruct (ends_with_LF_app t E) as [w ->].
    rewrite split_newline_last_LF.
    pose proof (split_newline_nonempty (w +:+ nl)) as Hne.
    destruct (exists_last Hne) as (l & x & ->).
    rewrite removelast_last, length_app. simpl. lia.
  - destruct (last (split_newline t)) as [[|c' y]|] eqn:El; [|lia|lia].
    destruct (split_newline_last_empty t El) as [Ht|Ht]; [done|congruence].
Qed.

Section Stats.

Variable diffLines : string → string → list Part.
Variable diffChars : string → string → list Part.

Lemma final_pair_kinds enable res p :
  final_pair diffChars enable (r_left res) (r_right res) p →
  present (p_left p) && present (p_right p)
    && type_is Modified (r_left res) (p_left p)
  = type_is Modified (r_left res) (p_left p) ∧
  present (p_left p) && present (p_right p)
    && negb (type_is Modified (r_left res) (p_left p))
  = fully_unchanged res p.
Proof.
  intros Hp. unfold fully_unchanged, type_is, deref.
  destruct Hp as [s a b Ha Hb|s t a b Ha Hb|s a Ha|t b Hb]; simpl;
    rewrite ?Ha, ?Hb; simpl; done.
Qed.

(** C6, amended: after [compare], [getStats] returns the number of pairs
    with only the right side as [added], the number of pairs with only the
    left side as [removed], the number of pairs whose left side is modified
    as [modified], the number of pairs with two unchanged sides as
    [unchanged] and the number of blocks as [totalDiffs].  As [leftLines]
    and [rightLines] it returns the numbers of pieces that [splitLines]
    finds in the two texts: for a non-empty text one more than the number of
    its line feeds, for the empty text 0.  This is the number of lines of
    the text in the sense of section 4.1 of the specification when the text
    does not end with a line feed, and one more when it does. *)
Theorem getStats_counts (e : DiffEngine) (leftText rightText : string) :
  ∃ e' res stats,
    compare diffLines diffChars e leftText rightText = Some (e', res) ∧
    getStats e' = Some stats ∧
    s_added stats = count_pairs right_only (r_pairs res) ∧
    s_removed stats = count_pairs left_only (r_pairs res) ∧
    s_modified stats
      = count_pairs (λ p, type_is Modified (r_left res) (p_left p)) (r_pairs res) ∧
    s_unchanged stats = count_pairs (fully_unchanged res) (r_pairs res) ∧
    totalDiffs stats = length (getDiffBlocks e') ∧
    s_leftLines stats = length (splitLines (Some leftText)) ∧
    s_rightLines stats = length (splitLines (Some rightText)) ∧
    s_leftLines stats = (if decide (leftText = "") then 0 else S (count_LF leftText)) ∧
    s_rightLines stats
      = (if decide (rightText = "") then 0 else S (count_LF rightText)) ∧
    s_leftLines stats
      = length (spec_lines leftText) + (if ends_with_LF leftText then 1 else 0) ∧
    s_rightLines stats
      = length (spec_lines rightText) + (if ends_with_LF rightText then 1 else 0).
Proof.
  eexists _, _, _. split; [apply compare_chunks|].
  set (enable := bool_decide _).
  set (res := chunks_result diffChars enable _).
  unfold getStats. cbn [diffResult mbind option_bind]. split; [reflexivity|].
  rewrite stats_fold.
  cbn [s_added s_removed s_modified s_unchanged totalDiffs s_leftLines s_rightLines
       c_added c_removed c_modified c_unchanged diffBlocks leftLines rightLines
       getDiffBlocks].
  repeat split; try done.
  - apply count_pairs_ext. eapply Forall_impl; [apply chunks_result_final|].
    intros p Hp. by apply (final_pair_kinds enable res p).
  - apply count_pairs_ext. eapply Forall_impl; [apply chunks_result_final|].
    intros p Hp. by apply (final_pair_kinds enable res p).
  - apply length_splitLines.
  - apply length_splitLines.
  - apply length_splitLines_spec.
  - apply length_splitLines_spec.
Qed.

End Stats.

(** C6, as stated, fails: for the text ["a\n"] on both sides, which has the
    one line ["a"], and the diff that reports it as one common part, the
    result has one line on each side, but [getStats] returns 2 as
    [leftLines] and as [rightLines]. *)
Lemma getStats_counts_counterexample :
  let text := "a" +:+ nl in
  spec_lines text = ["a"] ∧
  ∃ e' res stats,
    compare same_text_diff replace_all_diff new_DiffEngine text text = Some (e', res) ∧
    getStats e' = Some stats ∧
    content <$> r_left res = ["a"] ∧
    content <$> r_right res = ["a"] ∧
    s_leftLines stats = 2 ∧
    s_rightLines stats = 2 ∧
    s_leftLines stats ≠ length (spec_lines text) ∧
    s_rightLines stats ≠ length (spec_lines text).
Proof.
  intros text. split; [reflexivity|].
  eexists _, _, _. split; [vm_compute; reflexivity|].
  repeat (split; [reflexivity|]). split; discriminate.
Qed.

(** ** Blocks of the result of [compare] *)

Lemma block_run_ext d1 d2 pairs b :
  Forall (λ p, d1 p = d2 p) pairs → block_run d1 pairs b → block_run d2 pairs b.
Proof.
  intros Hext (Hrange & Hpairs & Hall & Hbefore).
  rewrite Forall_lookup in Hext.
  repeat split; try done; try apply Hrange.
  - intros k p Hk Hp. rewrite <- (Hext k p Hp). by eapply Hall.
  - intros k p Hk Hp. rewrite <- (Hext k p Hp). by eapply Hbefore.
Qed.

Lemma block_closed_ext d1 d2 pairs b :
  Forall (λ p, d1 p = d2 p) pairs → block_closed d1 pairs b → block_closed d2 pairs b.
Proof.
  intros Hext Hclosed p Hp. rewrite Forall_lookup in Hext.
  rewrite <- (Hext _ p Hp). by apply Hclosed.
Qed.

Lemma blocks_cover_ext d1 d2 pairs blocks :
  Forall (λ p, d1 p = d2 p) pairs →
  blocks_cover d1 pairs blocks → blocks_cover d2 pairs blocks.
Proof.
  intros Hext Hcover k p Hp Hd. rewrite Forall_lookup in Hext.
  apply (Hcover k p Hp). by rewrite (Hext k p Hp).
Qed.

Section CompareBlocks.

Variable diffLines : string → string → list Part.
Variable diffChars : string → string → list Part.

Lemma final_pair_diff enable res p :
  final_pair diffChars enable (r_left res) (r_right res) p →
  isDiff res p = diff_pair res p ∧
  diff_pair res p = negb (fully_unchanged res p).
Proof.
  intros Hp. unfold isDiff, diff_pair, fully_unchanged, type_is, type_is_not, deref.
  destruct Hp as [s a b Ha Hb|s t a b Ha Hb|s a Ha|t b Hb]; simpl;
    rewrite ?Ha, ?Hb; simpl; done.
Qed.

(** C5: after [compare], the blocks of [getDiffBlocks] are maximal runs of
    diff pairs of the pair sequence of the result.  A block lies inside the
    sequence, holds the pairs from [startIndex] to [endIndex], and all these
    pairs are diff pairs (a present side that is not unchanged, or exactly
    one side present); the pair before [startIndex] and the pair after
    [endIndex], when they exist, are no diff pairs, which for a pair of the
    result means that both sides are present and unchanged.  The blocks
    come in ascending order, with at least one pair between two blocks, and
    every diff pair lies in a block. *)
Theorem compare_blocks (e : DiffEngine) (leftText rightText : string) :
  ∃ e' res,
    compare diffLines diffChars e leftText rightText = Some (e', res) ∧
    Forall (λ b, block_run (diff_pair res) (r_pairs res) b ∧
                 block_closed (diff_pair res) (r_pairs res) b)
           (getDiffBlocks e') ∧
    blocks_separated (getDiffBlocks e') ∧
    blocks_cover (diff_pair res) (r_pairs res) (getDiffBlocks e') ∧
    Forall (λ p, diff_pair res p = negb (fully_unchanged res p)) (r_pairs res).
Proof.
  eexists _, _. split; [apply compare_chunks|].
  set (enable := bool_decide _).
  set (res := chunks_result diffChars enable _).
  cbn [getDiffBlocks diffBlocks].
  assert (Forall (λ p, isDiff res p = diff_pair res p) (r_pairs res)) as Hext.
  { eapply Forall_impl; [apply chunks_result_final|].
    intros p Hp. by apply (final_pair_diff enable res p). }
  destruct (groupDiffBlocks_runs res) as (Hruns & Hsep & Hcover).
  split; [|split; [|split]].
  - apply Forall_forall. intros b Hb. destruct (Hruns b Hb) as [Hrun Hclosed].
    split; [by eapply block_run_ext|by eapply block_closed_ext].
  - done.
  - by eapply blocks_cover_ext.
  - eapply Forall_impl; [apply chunks_result_final|].
    intros p Hp. by apply (final_pair_diff enable res p).
Qed.

End CompareBlocks.

(** ** Identical texts *)

Lemma diff_rows_cons part diff :
  diff_rows (part :: diff)
  = ((λ line, (part_tag part, line)) <$> part_lines part) ++ diff_rows diff.
Proof. reflexivity. Qed.

Lemma diff_rows_common diff :
  Forall (λ part, is_common part = true) diff →
  Forall (λ row, row.1 = TCommon) (diff_rows diff).
Proof.
  induction 1 as [|part diff Hpart _ IH]; [constructor|].
  rewrite diff_rows_cons. apply Forall_app. split; [|done].
  apply Forall_fmap, Forall_forall. intros line _. simpl.
  unfold is_common in Hpart. unfold part_tag.
  by destruct (added part), (removed part).
Qed.

Lemma chunks_of_common rows :
  Forall (λ row, row.1 = TCommon) rows →
  chunks_of rows = (λ row, Common row.2) <$> rows.
Proof.
  induction 1 as [|[tag s] rows Hrow _ IH]; [done|].
  simpl in Hrow. subst tag. simpl. by rewrite IH.
Qed.

Lemma String_concat_empty vals :
  String.concat "" vals = "" → Forall (λ v, v = "") vals.
Proof.
  induction vals as [|v vals IH]; [constructor|].
  destruct vals as [|v' vals].
  - simpl. intros ->. by repeat constructor.
  - change (String.concat "" (v :: v' :: vals))
      with (v +:+ "" +:+ String.concat "" (v' :: vals)).
    destruct v; [|done]. simpl. intros H. constructor; [done|]. by apply IH.
Qed.

Lemma diff_rows_empty diff :
  Forall (λ v, v = "") (value <$> diff) → diff_rows diff = [].
Proof.
  induction diff as [|part diff IH]; [done|].
  rewrite fmap_cons. intros Hall. inversion Hall as [|? ? Hv Hrest]; subst.
  rewrite diff_rows_cons, IH by done.
  unfold part_lines. rewrite Hv. done.
Qed.

Section Same.

Variable diffLines : string → string → list Part.
Variable diffChars : string → string → list Part.

Lemma out_left_common enable (ss : list (Tag * string)) nl :
  Forall (λ line, type line = Unchanged)
    (out_left diffChars enable ((λ row, Common row.2) <$> ss) nl).
Proof.
  revert nl. induction ss as [|s ss IH]; intros nl; [constructor|].
  simpl. constructor; [done|]. apply IH.
Qed.

Lemma out_right_common enable (ss : list (Tag * string)) nr :
  Forall (λ line, type line = Unchanged)
    (out_right diffChars enable ((λ row, Common row.2) <$> ss) nr).
Proof.
  revert nr. induction ss as [|s ss IH]; intros nr; [constructor|].
  simpl. constructor; [done|]. apply IH.
Qed.

Lemma final_pair_same enable res p :
  Forall (λ line, type line = Unchanged) (r_left res) →
  Forall (λ line, type line = Unchanged) (r_right res) →
  final_pair diffChars enable (r_left res) (r_right res) p →
  same_unchanged res p = true ∧ isDiff res p = false.
Proof.
  intros HL HR Hp. rewrite Forall_lookup in HL. rewrite Forall_lookup in HR.
  unfold same_unchanged, isDiff, type_is_not, left_line, right_line, deref.
  destruct Hp as [s a b Ha Hb|s t a b Ha Hb|s a Ha|t b Hb]; simpl.
  - rewrite Ha, Hb. simpl. by rewrite bool_decide_eq_true_2.
  - by specialize (HL _ _ Ha).
  - by specialize (HL _ _ Ha).
  - by specialize (HR _ _ Hb).
Qed.

Lemma no_diff_no_blocks res :
  Forall (λ p, isDiff res p = false) (r_pairs res) → groupDiffBlocks res = [].
Proof.
  intros Hno. destruct (groupDiffBlocks_runs res) as (Hruns & _ & _).
  destruct (groupDiffBlocks res) as [|b blocks]; [done|].
  destruct (Hruns b) as [((Hs & He) & _ & Hall & _) _]; [by left|].
  destruct (lookup_lt_is_Some_2 (r_pairs res) (startIndex b)) as [p Hp]; [lia|].
  rewrite Forall_lookup in Hno. specialize (Hno _ _ Hp).
  rewrite (Hall (startIndex b) p) in Hno; [done|lia|done].
Qed.

(** C9: when the diff library reports no difference between a text and
    itself (all the parts it returns for [X] and [X] are common parts), every
    pair of [compare(X, X)] has both sides present and unchanged with the
    same content, and there is no block.  When moreover the parts add up to
    the text, [compare("", "")] yields no pair. *)
Theorem compare_same (e : DiffEngine) (X : string) :
  Forall (λ part, is_common part = true) (diffLines X X) →
  String.concat "" (value <$> diffLines X X) = X →
  ∃ e' res,
    compare diffLines diffChars e X X = Some (e', res) ∧
    Forall (λ p, same_unchanged res p = true) (r_pairs res) ∧
    getDiffBlocks e' = [] ∧
    (X = "" → r_pairs res = []).
Proof.
  intros Hcommon Hconcat. eexists _, _. split; [apply compare_chunks|].
  set (enable := bool_decide _).
  set (rows := diff_rows (diffLines X X)).
  assert (chunks_of rows = (λ row, Common row.2) <$> rows) as Hchunks
    by (by apply chunks_of_common, diff_rows_common).
  set (res := chunks_result diffChars enable (chunks_of rows)).
  assert (Forall (λ p, same_unchanged res p = true ∧ isDiff res p = false)
            (r_pairs res)) as Hsame.
  { eapply Forall_impl; [apply chunks_result_final|].
    intros p Hp. apply (final_pair_same enable res p); [| |done].
    - unfold res, chunks_result. cbn [r_left]. rewrite Hchunks. apply out_left_common.
    - unfold res, chunks_result. cbn [r_right]. rewrite Hchunks. apply out_right_common. }
  split; [|split].
  - eapply Forall_impl; [apply Hsame|]. by intros p [? _].
  - cbn [getDiffBlocks diffBlocks]. apply no_diff_no_blocks.
    eapply Forall_impl; [apply Hsame|]. by intros p [_ ?].
  - intros ->. unfold res, rows.
    rewrite diff_rows_empty by (by apply String_concat_empty). done.
Qed.

End Same.

(** ** Projections of the pair sequence *)

Lemma omap_omap_bind {A B C} (f : A → option B) (g : B → option C) (l : list A) :
  omap (λ x, f x ≫= g) l = omap g (omap f l).
Proof.
  induction l as [|x l IH]; [done|]. simpl.
  destruct (f x) as [y|]; simpl; [|exact IH].
  change (list_omap A C (λ x0, f x0 ≫= g) l) with (omap (λ x0, f x0 ≫= g) l).
  rewrite IH. done.
Qed.

Lemma omap_lookup_seq {A} (pre l : list A) :
  omap ((pre ++ l) !!.) (seq (length pre) (length l)) = l.
Proof.
  revert pre. induction l as [|x l IH]; intros pre; [done|].
  simpl. rewrite list_lookup_middle by done.
  f_equal. specialize (IH (pre ++ [x])).
  rewrite length_app, <- app_assoc in IH. simpl in IH.
  by replace (length pre + 1) with (S (length pre)) in IH by lia.
Qed.

Lemma omap_left_rem_pairs nl nr (ts ss : list string) :
  omap p_left (imap (rem_pair nl nr ts) ss) = seq nl (length ss).
Proof.
  revert nl nr ts. induction ss as [|s ss IH]; intros nl nr ts; [done|].
  rewrite imap_cons. simpl. rewrite Nat.add_0_r. f_equal.
  rewrite <- (IH (S nl) (S nr) (drop 1 ts)). f_equal.
  apply imap_ext. intros k x _. unfold rem_pair. simpl.
  rewrite lookup_drop. simpl.
  f_equal; [f_equal; lia|]. destruct (ts !! S k); f_equal; lia.
Qed.

Lemma omap_left_add_pairs nr (ss ts : list string) :
  omap p_left (imap (add_pair nr ss) ts) = [].
Proof.
  revert nr ss. induction ts as [|t ts IH]; intros nr ss; [done|].
  rewrite imap_cons. simpl.
  rewrite <- (IH (S nr) (drop 1 ss)). f_equal.
  apply imap_ext. intros k x _. unfold add_pair. simpl.
  rewrite lookup_drop. simpl. by replace (nr + S k) with (S (nr + k)) by lia.
Qed.

Lemma omap_nil_drop {A B} (f : A → option B) (l : list A) n :
  omap f l = [] → omap f (drop n l) = [].
Proof.
  revert n. induction l as [|x l IH]; intros n; [by rewrite drop_nil|].
  simpl. destruct (f x) eqn:Hx; [done|]. intros Hl.
  destruct n; simpl; [by rewrite Hx|]. by apply IH.
Qed.

Lemma omap_right_chunk_live nl nr (ss ts : list string) :
  omap p_right (chunk_live (Change ss ts) nl nr) = seq nr (length ts).
Proof.
  unfold chunk_live.
  revert nl nr ts. induction ss as [|s ss IH]; intros nl nr ts.
  - simpl. rewrite drop_0. clear.
    revert nr. induction ts as [|t ts IH]; intros nr; [done|].
    rewrite imap_cons. simpl. rewrite Nat.add_0_r. f_equal.
    rewrite <- (IH (S nr)). f_equal. apply imap_ext.
    intros k x _. unfold add_pair. simpl. do 2 f_equal. lia.
  - destruct ts as [|t ts].
    + simpl. rewrite app_nil_r.
      assert (imap (rem_pair nl nr [] ∘ S) ss = imap (rem_pair (S nl) nr []) ss) as ->.
      { apply imap_ext. intros k x _. unfold rem_pair. simpl. do 2 f_equal. lia. }
      specialize (IH (S nl) nr []). simpl in IH.
      by rewrite drop_nil, app_nil_r in IH.
    + rewrite !imap_cons. cbn [length drop].
      assert (imap (rem_pair nl nr (t :: ts) ∘ S) ss
              = imap (rem_pair (S nl) (S nr) ts) ss) as ->.
      { apply imap_ext. intros k x _. unfold rem_pair. simpl.
        f_equal; [f_equal; lia|]. destruct (ts !! k); f_equal; lia. }
      assert (imap (add_pair nr (s :: ss) ∘ S) ts = imap (add_pair (S nr) ss) ts) as ->.
      { apply imap_ext. intros k x _. unfold add_pair. simpl. do 2 f_equal. lia. }
      specialize (IH (S nl) (S nr) ts).
      simpl. rewrite Nat.add_0_r. f_equal. exact IH.
Qed.

Lemma omap_left_chunk_live c nl nr :
  omap p_left (chunk_live c nl nr) = seq nl (left_count c).
Proof.
  destruct c as [s|ss ts]; [done|]. unfold chunk_live.
  rewrite omap_app, omap_left_rem_pairs.
  rewrite omap_nil_drop by apply omap_left_add_pairs. by rewrite app_nil_r.
Qed.

Lemma omap_right_chunk_live' c nl nr :
  omap p_right (chunk_live c nl nr) = seq nr (right_count c).
Proof. destruct c as [s|ss ts]; [done|]. apply omap_right_chunk_live. Qed.

Lemma omap_left_out_live diffChars enable chunks nl nr :
  omap p_left (out_live chunks nl nr)
  = seq nl (length (out_left diffChars enable chunks nl)).
Proof.
  revert nl nr. induction chunks as [|c chunks IH]; intros nl nr; [done|].
  simpl. rewrite omap_app, omap_left_chunk_live, IH.
  by rewrite length_app, length_chunk_left, seq_app.
Qed.

Lemma omap_right_out_live diffChars enable chunks nl nr :
  omap p_right (out_live chunks nl nr)
  = seq nr (length (out_right diffChars enable chunks nr)).
Proof.
  revert nl nr. induction chunks as [|c chunks IH]; intros nl nr; [done|].
  simpl. rewrite omap_app, omap_right_chunk_live', IH.
  by rewrite length_app, length_chunk_right, seq_app.
Qed.

(** The left sides of the pairs of a result, in order, are the lines of
    [result.left], and the right sides are the lines of [result.right]. *)
Lemma chunks_result_projection diffChars enable chunks :
  let res := chunks_result diffChars enable chunks in
  omap (left_line res) (r_pairs res) = r_left res ∧
  omap (right_line res) (r_pairs res) = r_right res.
Proof.
  unfold left_line, right_line, deref, chunks_result. cbn [r_left r_right r_pairs].
  rewrite filter_out_pairs, !omap_omap_bind.
  rewrite (omap_left_out_live diffChars enable), (omap_right_out_live diffChars enable).
  split.
  - apply (omap_lookup_seq []).
  - apply (omap_lookup_seq []).
Qed.

(** ** A part that begins with a line feed *)

Lemma string_app_assoc (a b c : string) : (a +:+ b) +:+ c = a +:+ b +:+ c.
Proof.
  induction a as [|x a IH]; [done|].
  change (String x ((a +:+ b) +:+ c) = String x (a +:+ b +:+ c)).
  by rewrite IH.
Qed.

(** C3: the code breaks the claim on the first scenario of the
    specification.  For ["a\nb\nc"] and ["a\nx\nc"] a line diff with the
    line feeds as tokens reports the parts ["a\n"], ["b"] (removed), ["x"]
    (added) and ["\nc"], which add up to the two texts.  [processDiff] drops
    the empty piece that a line feed at the end of a part leaves, but not
    the one that a line feed at the beginning leaves: the last part yields
    the lines [""] and ["c"].  The result has four pairs, and the left sides
    of the pairs are the lines ["a"; "b"; ""; "c"], the right sides the lines
    ["a"; "x"; ""; "c"], while the two texts have the lines ["a"; "b"; "c"]
    and ["a"; "x"; "c"]. *)
Theorem compare_projection_phantom_line :
  let leftText := "a" +:+ nl +:+ "b" +:+ nl +:+ "c" in
  let rightText := "a" +:+ nl +:+ "x" +:+ nl +:+ "c" in
  String.concat "" (left_values (newline_token_diff leftText rightText)) = leftText ∧
  String.concat "" (right_values (newline_token_diff leftText rightText)) = rightText ∧
  spec_lines leftText = ["a"; "b"; "c"] ∧
  spec_lines rightText = ["a"; "x"; "c"] ∧
  splitLines (Some leftText) = ["a"; "b"; "c"] ∧
  splitLines (Some rightText) = ["a"; "x"; "c"] ∧
  ∃ e' res,
    compare newline_token_diff replace_all_diff new_DiffEngine leftText rightText
      = Some (e', res) ∧
    length (r_pairs res) = 4 ∧
    content <$> omap (left_line res) (r_pairs res) = ["a"; "b"; ""; "c"] ∧
    content <$> omap (right_line res) (r_pairs res) = ["a"; "x"; ""; "c"] ∧
    type <$> omap (left_line res) (r_pairs res)
      = [Unchanged; Modified; Unchanged; Unchanged] ∧
    content <$> omap (left_line res) (r_pairs res) ≠ spec_lines leftText ∧
    content <$> omap (right_line res) (r_pairs res) ≠ spec_lines rightText.
Proof.
  intros leftText rightText. repeat (split; [reflexivity|]).
  eexists _, _. split; [vm_compute; reflexivity|].
  repeat (split; [reflexivity|]). split; discriminate.
Qed.

(** ** The modification merge *)

Lemma drop_imap {A B} (F : nat → A → B) (l : list A) n :
  drop n (imap F l) = imap (λ k, F (n + k)) (drop n l).
Proof.
  apply list_eq. intros k.
  by rewrite lookup_drop, !list_lookup_imap, lookup_drop.
Qed.

Section MergedRun.

Variable diffChars : string → string → list Part.
Variable enable : bool.
Variables (Lp Rp Ls Rs : list Line) (ss ts : list string).

Let L := Lp ++ imap (rem_line diffChars enable (length Lp) ts) ss ++ Ls.
Let R := Rp ++ imap (add_line diffChars enable (length Rp) ss) ts ++ Rs.
Let view (p : Pair) : option Line * option Line :=
  (deref L (p_left p), deref R (p_right p)).

Lemma view_rem_pairs :
  view <$> imap (rem_pair (length Lp) (length Rp) ts) ss
  = imap (λ k s, (Some (rem_line diffChars enable (length Lp) ts k s),
                  add_line diffChars enable (length Rp) ss k <$> ts !! k)) ss.
Proof.
  rewrite fmap_imap. apply imap_ext. intros k s Hs.
  assert (k < length ss) as Hk by (by eapply lookup_lt_Some).
  unfold view, rem_pair, deref, L, R. simpl. f_equal.
  - rewrite (lookup_mid1' _ _ _ _ k) by (rewrite ?length_imap; lia).
    by rewrite list_lookup_imap, Hs.
  - destruct (ts !! k) as [t|] eqn:Ht; [|done]. simpl.
    assert (k < length ts) as Hkt by (by eapply lookup_lt_Some).
    rewrite (lookup_mid1' _ _ _ _ k) by (rewrite ?length_imap; lia).
    by rewrite list_lookup_imap, Ht.
Qed.

Lemma view_add_pairs :
  view <$> imap (add_pair (length Rp) ss) ts
  = imap (λ k t, (None, Some (add_line diffChars enable (length Rp) ss k t))) ts.
Proof.
  rewrite fmap_imap. apply imap_ext. intros k t Ht.
  assert (k < length ts) as Hk by (by eapply lookup_lt_Some).
  unfold view, add_pair, deref, L, R. simpl. f_equal.
  rewrite (lookup_mid1' _ _ _ _ k) by (rewrite ?length_imap; lia).
  by rewrite list_lookup_imap, Ht.
Qed.

(** The pairs of a change chunk that survive, seen through the stores, are
    the merged run of the specification. *)
Lemma chunk_live_views :
  view <$> chunk_live (Change ss ts) (length Lp) (length Rp)
  = merged_run diffChars enable (length Lp) (length Rp) ss ts.
Proof.
  unfold chunk_live, merged_run.
  rewrite fmap_app, fmap_drop, view_rem_pairs, view_add_pairs, drop_imap.
  set (m := length ss `min` length ts).
  rewrite app_assoc. f_equal.
  - (* the removed lines: merged up to [m], alone from [m] on *)
    rewrite <- (take_drop m ss) at 1. rewrite imap_app. f_equal.
    + apply list_eq. intros k. rewrite !list_lookup_imap, lookup_zip_with.
      destruct (decide (k < m)) as [Hk|Hk].
      * rewrite lookup_take_lt by done.
        destruct (lookup_lt_is_Some_2 ss k) as [s Hs]; [lia|].
        destruct (lookup_lt_is_Some_2 ts k) as [t Ht]; [lia|].
        rewrite Hs, Ht. simpl. unfold rem_line, add_line. by rewrite Hs, Ht.
      * rewrite lookup_take_ge by lia. simpl.
        destruct (ss !! k) as [s|] eqn:Hs; simpl; [|done].
        apply lookup_lt_Some in Hs.
        by rewrite (lookup_ge_None_2 ts k) by lia.
    + apply imap_ext. intros k s Hs. rewrite lookup_drop in Hs.
      assert (m + k < length ss) as Hk by (by eapply lookup_lt_Some).
      rewrite length_take. replace (m `min` length ss) with m by lia.
      unfold rem_line. rewrite (lookup_ge_None_2 ts (m + k)) by lia. simpl.
      do 3 f_equal. lia.
  - (* the added lines from [length ss] on *)
    destruct (decide (length ss ≤ length ts)) as [Hle|Hgt].
    + replace m with (length ss) by lia.
      apply imap_ext. intros k t Ht. unfold add_line.
      rewrite (lookup_ge_None_2 ss (length ss + k)) by lia.
      do 3 f_equal. lia.
    + rewrite !drop_ge by lia. done.
Qed.

End MergedRun.

Lemma chunks_rows_app chunks1 chunks2 :
  chunks_rows (chunks1 ++ chunks2) = chunks_rows chunks1 ++ chunks_rows chunks2.
Proof. unfold chunks_rows. apply bind_app. Qed.

Lemma starts_with_app t rows1 rows2 :
  rows1 ≠ [] → starts_with t (rows1 ++ rows2) = starts_with t rows1.
Proof. by destruct rows1. Qed.

Lemma chunks_strict_rows_nonempty c chunks :
  chunks_strict (c :: chunks) → chunks_rows (c :: chunks) ≠ [].
Proof.
  intros [Hc _]. rewrite chunks_rows_cons.
  destruct c as [s|[|s ss] [|t ts]]; simpl; try done.
  destruct Hc as ([?|?] & _); done.
Qed.

Lemma chunks_maximal_app chunks1 chunks2 :
  chunks_strict chunks1 →
  chunks_maximal chunks2 →
  (∀ c, last chunks1 = Some c → chunk_maximal c (chunks_rows chunks2)) →
  chunks_maximal (chunks1 ++ chunks2).
Proof.
  induction chunks1 as [|c chunks1 IH]; intros Hstrict Hmax Hlast; [done|].
  destruct Hstrict as [Hc Hstrict]. simpl. split.
  - destruct chunks1 as [|c' chunks1].
    + apply Hlast. done.
    + rewrite chunks_rows_app.
      destruct c as [s|ss ts]; [done|]. destruct Hc as (_ & Hadd & Hrem).
      intros _. rewrite !starts_with_app by (by apply chunks_strict_rows_nonempty).
      done.
  - apply IH; [done|done|]. intros c' Hc'. apply Hlast.
    rewrite last_cons, Hc'. done.
Qed.

Lemma ends_with_removed_run rows (ss : list string) :
  ss ≠ [] → ends_with TRemoved (rows ++ ((λ s, (TRemoved, s)) <$> ss)) = true.
Proof.
  intros Hss. unfold ends_with. rewrite last_app.
  destruct ss as [|s ss _] using rev_ind; [done|].
  rewrite fmap_app, fmap_cons, fmap_nil, last_snoc. done.
Qed.

Lemma omap_lookup_seq_mid {A} (pre l suf : list A) :
  omap ((pre ++ l ++ suf) !!.) (seq (length pre) (length l)) = l.
Proof.
  revert pre. induction l as [|x l IH]; intros pre; [done|].
  simpl. rewrite list_lookup_middle by done.
  f_equal. specialize (IH (pre ++ [x])).
  rewrite length_app, <- app_assoc in IH. simpl in IH.
  by replace (length pre + 1) with (S (length pre)) in IH by lia.
Qed.

Lemma omap_fst_pair_view res (pairs : list Pair) :
  omap fst (pair_view res <$> pairs) = omap (left_line res) pairs.
Proof.
  induction pairs as [|p pairs IH]; [done|]. simpl.
  destruct (left_line res p); simpl; [f_equal|]; exact IH.
Qed.

Lemma omap_snd_pair_view res (pairs : list Pair) :
  omap snd (pair_view res <$> pairs) = omap (right_line res) pairs.
Proof.
  induction pairs as [|p pairs IH]; [done|]. simpl.
  destruct (right_line res p); simpl; [f_equal|]; exact IH.
Qed.

Section Merge2.

Variable diffChars : string → string → list Part.

(** C2: when the rows of a diff contain a run of removed lines [ss]
    (not preceded by a removed line) immediately followed by a run of added
    lines [ts] (not followed by an added line), the pairs of the result of
    [processDiff] have, between the pairs of the lines before the two runs
    and the pairs of the lines after them, the merged run of the
    specification: [min (length ss) (length ts)] modified pairs that each
    hold the i-th removed line on the left and the i-th added line on the
    right, followed by the excess lines of the longer run, each alone in
    its pair with its kind.  With [ts] empty this is a removed run that no
    added run follows (nor a further removed line): its pairs are left
    as they were. *)
Theorem detectModifications_merges (e : DiffEngine) (diff : list Part) (enable : bool)
    (pre post : list (Tag * string)) (ss ts : list string) :
  diff_rows diff
    = pre ++ ((λ s, (TRemoved, s)) <$> ss) ++ ((λ t, (TAdded, t)) <$> ts) ++ post →
  ss ≠ [] →
  ends_with TRemoved pre = false →
  starts_with TAdded post = false →
  (ts = [] → starts_with TRemoved post = false) →
  ∃ e' res before after,
    processDiff diffChars e diff enable = Some (e', res) ∧
    pair_view res <$> r_pairs res
      = before
        ++ merged_run diffChars enable (length (left_contents pre))
             (length (right_contents pre)) ss ts
        ++ after ∧
    content <$> omap fst before = left_contents pre ∧
    content <$> omap snd before = right_contents pre ∧
    content <$> omap fst after = left_contents post ∧
    content <$> omap snd after = right_contents post.
Proof.
  intros Hrows Hss Hpre Hpost_add Hpost_rem.
  set (cs1 := chunks_of pre). set (cs2 := chunks_of post).
  set (c := Change ss ts).
  assert (chunks_rows (cs1 ++ c :: cs2) = diff_rows diff) as Hcs.
  { rewrite chunks_rows_app, chunks_rows_cons. unfold cs1, cs2.
    rewrite !chunks_of_rows, Hrows. simpl. by rewrite <- app_assoc. }
  assert (chunks_maximal (cs1 ++ c :: cs2)) as Hmax.
  { apply chunks_maximal_app.
    - apply chunks_of_strict.
    - split; [|apply chunks_of_maximal]. unfold cs2. rewrite chunks_of_rows.
      intros _. done.
    - intros c' Hc'. destruct c' as [s'|ss' ts']; [done|].
      intros Hss'. rewrite chunks_rows_cons.
      destruct ss as [|s0 ss0]; [done|]. split; [done|].
      intros ->. exfalso.
      apply last_Some in Hc' as [cs' Hcs'].
      pose proof (chunks_of_rows pre) as Hrows_pre. fold cs1 in Hrows_pre.
      rewrite Hcs', chunks_rows_app in Hrows_pre.
      unfold chunks_rows at 2 in Hrows_pre. simpl in Hrows_pre.
      rewrite !app_nil_r in Hrows_pre.
      rewrite <- Hrows_pre, ends_with_removed_run in Hpre by done. done. }
  set (res := chunks_result diffChars enable (cs1 ++ c :: cs2)).
  set (Lp := out_left diffChars enable cs1 0).
  set (Rp := out_right diffChars enable cs1 0).
  assert (content <$> Lp = left_contents pre) as HcL.
  { unfold Lp. rewrite out_left_build by apply content_chunk_left.
    unfold cs1. by rewrite chunks_of_rows, content_build_left. }
  assert (content <$> Rp = right_contents pre) as HcR.
  { unfold Rp. rewrite out_right_build by apply content_chunk_right.
    unfold cs1. by rewrite chunks_of_rows, content_build_right. }
  assert (length Lp = length (left_contents pre)) as HnL
    by (by rewrite <- HcL, length_fmap).
  assert (length Rp = length (right_contents pre)) as HnR
    by (by rewrite <- HcR, length_fmap).
  set (Ls := out_left diffChars enable cs2 (length Lp + left_count c)).
  set (Rs := out_right diffChars enable cs2 (length Rp + right_count c)).
  assert (r_left res = Lp ++ chunk_left diffChars enable c (length Lp) ++ Ls) as HL.
  { unfold res, chunks_result. cbn [r_left]. rewrite out_left_app. done. }
  assert (r_right res = Rp ++ chunk_right diffChars enable c (length Rp) ++ Rs) as HR.
  { unfold res, chunks_result. cbn [r_right]. rewrite out_right_app. done. }
  assert (r_pairs res
          = out_live cs1 0 0 ++ chunk_live c (length Lp) (length Rp)
            ++ out_live cs2 (length Lp + left_count c) (length Rp + right_count c))
    as HP.
  { unfold res, chunks_result. cbn [r_pairs].
    rewrite filter_out_pairs, (out_live_app diffChars enable). done. }
  exists (set_enableCharDiff enable e), res,
    (pair_view res <$> out_live cs1 0 0),
    (pair_view res <$> out_live cs2 (length Lp + left_count c)
                                    (length Rp + right_count c)).
  split; [|split; [|split; [|split; [|split]]]].
  - unfold processDiff. rewrite pair_lines_rows, <- Hcs.
    rewrite detectModifications_chunks by done. done.
  - rewrite HP, !fmap_app. f_equal. f_equal.
    rewrite <- HnL, <- HnR.
    rewrite <- (chunk_live_views diffChars enable Lp Rp Ls Rs ss ts).
    apply list_fmap_ext. intros _ p _. unfold pair_view, left_line, right_line.
    by rewrite HL, HR.
  - rewrite omap_fst_pair_view. unfold left_line, deref.
    rewrite omap_omap_bind, (omap_left_out_live diffChars enable), HL.
    fold Lp. rewrite <- HcL. f_equal. apply (omap_lookup_seq_mid [] Lp).
  - rewrite omap_snd_pair_view. unfold right_line, deref.
    rewrite omap_omap_bind, (omap_right_out_live diffChars enable), HR.
    fold Rp. rewrite <- HcR. f_equal. apply (omap_lookup_seq_mid [] Rp).
  - rewrite omap_fst_pair_view. unfold left_line, deref.
    rewrite omap_omap_bind, (omap_left_out_live diffChars enable), HL.
    fold Ls. rewrite app_assoc.
    replace (length Lp + left_count c)
      with (length (Lp ++ chunk_left diffChars enable c (length Lp)))
      by (by rewrite length_app, length_chunk_left).
    rewrite omap_lookup_seq.
    unfold Ls. rewrite out_left_build by apply content_chunk_left.
    unfold cs2. by rewrite chunks_of_rows, content_build_left.
  - rewrite omap_snd_pair_view. unfold right_line, deref.
    rewrite omap_omap_bind, (omap_right_out_live diffChars enable), HR.
    fold Rs. rewrite app_assoc.
    replace (length Rp + right_count c)
      with (length (Rp ++ chunk_right diffChars enable c (length Rp)))
      by (by rewrite length_app, length_chunk_right).
    rewrite omap_lookup_seq.
    unfold Rs. rewrite out_right_build by apply content_chunk_right.
    unfold cs2. by rewrite chunks_of_rows, content_build_right.
Qed.

End Merge2.

(** ** The scenarios of the specification, evaluated *)

(** ["a\nb\nc"] against ["a\nx\nc"], cut into whole lines: an unchanged pair,
    a modified pair, an unchanged pair, and one block at index 1. *)
Example scenario_modified_line :
  let diff := [mkPart ("a" +:+ nl) false false; mkPart ("b" +:+ nl) false true;
               mkPart ("x" +:+ nl) true false; mkPart "c" false false] in
  ∃ e res,
    processDiff replace_all_diff new_DiffEngine diff false = Some (e, res) ∧
    pair_view res <$> r_pairs res
    = [(Some (mkLine 1 "a" Unchanged None), Some (mkLine 1 "a" Unchanged None));
       (Some (mkLine 2 "b" Modified None), Some (mkLine 2 "x" Modified None));
       (Some (mkLine 3 "c" Unchanged None), Some (mkLine 3 "c" Unchanged None))] ∧
    (λ b, (startIndex b, endIndex b)) <$> groupDiffBlocks res = [(1, 1)].
Proof. eexists _, _. split; [vm_compute; reflexivity|]. split; reflexivity. Qed.

(** ["a\nb"] against ["a\nb\nc"]: two unchanged pairs and an added line,
    one block at the last index. *)
Example scenario_added_line :
  let diff := [mkPart ("a" +:+ nl +:+ "b" +:+ nl) false false; mkPart "c" true false] in
  ∃ e res,
    processDiff replace_all_diff new_DiffEngine diff false = Some (e, res) ∧
    pair_view res <$> r_pairs res
    = [(Some (mkLine 1 "a" Unchanged None), Some (mkLine 1 "a" Unchanged None));
       (Some (mkLine 2 "b" Unchanged None), Some (mkLine 2 "b" Unchanged None));
       (None, Some (mkLine 3 "c" Added None))] ∧
    (λ b, (startIndex b, endIndex b)) <$> groupDiffBlocks res = [(2, 2)].
Proof. eexists _, _. split; [vm_compute; reflexivity|]. split; reflexivity. Qed.

(** ["x\ny\nz"] against ["y\nz"]: the removed line stays alone in its pair. *)
Example scenario_removed_line :
  let diff := [mkPart ("x" +:+ nl) false true; mkPart ("y" +:+ nl +:+ "z") false false] in
  ∃ e res,
    processDiff replace_all_diff new_DiffEngine diff false = Some (e, res) ∧
    pair_view res <$> r_pairs res
    = [(Some (mkLine 1 "x" Removed None), None);
       (Some (mkLine 2 "y" Unchanged None), Some (mkLine 1 "y" Unchanged None));
       (Some (mkLine 3 "z" Unchanged None), Some (mkLine 2 "z" Unchanged None))].
Proof. eexists _, _. split; [vm_compute; reflexivity|]. reflexivity. Qed.

(** ** The theorems at sample inputs *)

(** An iteration on the pairs of a removed run of two lines followed by an
    added line: the index moves from 0 past the three pairs. *)
Lemma detectModifications_terminates_witness :
  let res := pair_lines (replace_all_diff ("b" +:+ nl +:+ "c") "x") in
  0 < length (r_pairs res) ∧
  ∃ p, r_pairs res !! 0 = Some p ∧
    let next := (detect_body replace_all_diff true res 0).2 in
    0 < next ≤ length (r_pairs res) ∧
    length (r_pairs (detect_body replace_all_diff true res 0).1)
      = length (r_pairs res) ∧
    (left_only p && type_is Removed (r_left res) (p_left p) = true →
       run_end left_only (drop 0 (r_pairs res)) 0 ≤ next) ∧
    (left_only p && type_is Removed (r_left res) (p_left p) = false →
       next = 1).
Proof.
  intros res. split; [vm_compute; lia|].
  apply (proj1 (detectModifications_terminates replace_all_diff
                  (set_enableCharDiff true new_DiffEngine) res) res 0).
  vm_compute. lia.
Defined.

(** Three removed lines followed by two added lines, between two common
    lines. *)
Lemma detectModifications_merges_witness :
  let diff := [mkPart ("a" +:+ nl) false false;
               mkPart ("b" +:+ nl +:+ "c" +:+ nl +:+ "d" +:+ nl) false true;
               mkPart ("x" +:+ nl +:+ "y" +:+ nl) true false;
               mkPart "e" false false] in
  let pre := [(TCommon, "a")] in
  let post := [(TCommon, "e")] in
  let ss := ["b"; "c"; "d"] in
  let ts := ["x"; "y"] in
  (diff_rows diff
     = pre ++ ((λ s, (TRemoved, s)) <$> ss) ++ ((λ t, (TAdded, t)) <$> ts) ++ post ∧
   ss ≠ [] ∧
   ends_with TRemoved pre = false ∧
   starts_with TAdded post = false ∧
   (ts = [] → starts_with TRemoved post = false)) ∧
  ∃ e' res before after,
    processDiff replace_all_diff new_DiffEngine diff true = Some (e', res) ∧
    pair_view res <$> r_pairs res
      = before
        ++ merged_run replace_all_diff true (length (left_contents pre))
             (length (right_contents pre)) ss ts
        ++ after ∧
    content <$> omap fst before = left_contents pre ∧
    content <$> omap snd before = right_contents pre ∧
    content <$> omap fst after = left_contents post ∧
    content <$> omap snd after = right_contents post.
Proof.
  intros diff pre post ss ts.
  split.
  - split; [reflexivity|]. split; [discriminate|]. split; [reflexivity|].
    split; [reflexivity|]. discriminate.
  - apply (detectModifications_merges replace_all_diff new_DiffEngine diff true
             pre post ss ts).
    + reflexivity.
    + discriminate.
    + reflexivity.
    + reflexivity.
    + discriminate.
Defined.

(** Two lines in all, and 5002 lines in all. *)
Lemma compare_charDiff_threshold_witness :
  maxLinesForCharDiff new_DiffEngine = 5000 ∧
  (∃ e' res,
     compare replace_all_diff replace_all_diff new_DiffEngine "b" "x"
       = Some (e', res) ∧
     Forall (λ p, modified_has_charDiff res p = true) (r_pairs res)) ∧
  (∃ e' res,
     compare same_text_diff replace_all_diff new_DiffEngine
       (empty_lines 2500) (empty_lines 2500) = Some (e', res) ∧
     Forall (λ line, charDiff line = None) (r_left res) ∧
     Forall (λ line, charDiff line = None) (r_right res)).
Proof.
  split; [reflexivity|]. split.
  - destruct (compare_charDiff_threshold replace_all_diff replace_all_diff
                new_DiffEngine "b" "x" eq_refl)
      as (e' & res & Hcompare & _ & _ & _ & Hbelow & _).
    exists e', res. split; [exact Hcompare|]. apply Hbelow. vm_compute. lia.
  - destruct (compare_charDiff_threshold same_text_diff replace_all_diff
                new_DiffEngine (empty_lines 2500) (empty_lines 2500) eq_refl)
      as (e' & res & Hcompare & _ & _ & _ & _ & Habove).
    exists e', res. split; [exact Hcompare|]. apply Habove.
    apply Nat.leb_le. vm_compute. reflexivity.
Defined.

(** A text of two lines compared with itself. *)
Lemma compare_same_witness :
  let X := "a" +:+ nl +:+ "b" in
  (Forall (λ part, is_common part = true) (same_text_diff X X) ∧
   String.concat "" (value <$> same_text_diff X X) = X) ∧
  ∃ e' res,
    compare same_text_diff replace_all_diff new_DiffEngine X X = Some (e', res) ∧
    Forall (λ p, same_unchanged res p = true) (r_pairs res) ∧
    getDiffBlocks e' = [] ∧
    (X = "" → r_pairs res = []).
Proof.
  intros X. split.
  - split; [by repeat constructor|reflexivity].
  - apply (compare_same same_text_diff replace_all_diff new_DiffEngine X).
    + by repeat constructor.
    + reflexivity.
Defined.

(** * Further properties of the engine *)

(** ** The character diff of two lines *)

Section CharSpans.

Variable diffChars : string → string → list Part.

Lemma char_step_fold parts lp rp :
  fold_left char_step parts (lp, rp)
  = (lp ++ ((λ part, mkCharSpan (value part)
                       (if removed part then Removed else Unchanged))
            <$> filter (λ part, added part = false) parts),
     rp ++ ((λ part, mkCharSpan (value part)
                       (if added part then Added else Unchanged))
            <$> filter (λ part, added part || negb (removed part) = true) parts)).
Proof.
  revert lp rp. induction parts as [|part parts IH]; intros lp rp.
  - simpl. by rewrite !app_nil_r.
  - simpl fold_left. rewrite !filter_cons.
    destruct (added part) eqn:Ha; [|destruct (removed part) eqn:Hr]; simpl;
      rewrite IH, ?Ha, ?Hr, <- ?app_assoc; done.
Qed.

Lemma computeCharDiff_texts leftLine rightLine :
  span_text <$> (computeCharDiff diffChars leftLine rightLine).1
    = left_values (diffChars leftLine rightLine) ∧
  span_text <$> (computeCharDiff diffChars leftLine rightLine).2
    = right_values (diffChars leftLine rightLine).
Proof.
  unfold computeCharDiff. rewrite char_step_fold. cbn [fst snd app].
  unfold left_values, right_values. by rewrite <- !list_fmap_compose.
Qed.

(** X1: the spans that [computeCharDiff] returns for the left line are the
    parts of the character diff that are not added, in order, marked as
    removed or unchanged; the spans for the right line are the parts that
    are added or not removed, marked as added or unchanged.  The unchanged
    spans are the same on both sides. *)
Theorem computeCharDiff_spans (leftLine rightLine : string) :
  let spans := computeCharDiff diffChars leftLine rightLine in
  span_text <$> spans.1 = left_values (diffChars leftLine rightLine) ∧
  span_text <$> spans.2 = right_values (diffChars leftLine rightLine) ∧
  Forall (λ sp, span_type sp = Removed ∨ span_type sp = Unchanged) spans.1 ∧
  Forall (λ sp, span_type sp = Added ∨ span_type sp = Unchanged) spans.2 ∧
  filter (λ sp, span_type sp = Unchanged) spans.1
  = filter (λ sp, span_type sp = Unchanged) spans.2.
Proof.
  unfold computeCharDiff. rewrite char_step_fold. cbn [fst snd app].
  unfold left_values, right_values.
  split; [by rewrite <- list_fmap_compose|].
  split; [by rewrite <- list_fmap_compose|].
  split; [|split].
  - apply Forall_fmap, Forall_forall. intros part _. simpl.
    destruct (removed part); auto.
  - apply Forall_fmap, Forall_forall. intros part _. simpl.
    destruct (added part); auto.
  - induction (diffChars leftLine rightLine) as [|part parts IH]; [done|].
    destruct (added part) eqn:Ha; [|destruct (removed part) eqn:Hr].
    + rewrite (filter_cons_False _ part) by (by rewrite Ha).
      rewrite (filter_cons_True _ part) by (by rewrite Ha).
      rewrite fmap_cons, filter_cons_False by (simpl; by rewrite Ha). done.
    + rewrite (filter_cons_True _ part) by done.
      rewrite (filter_cons_False _ part) by (by rewrite Ha, Hr).
      rewrite fmap_cons, filter_cons_False by (simpl; by rewrite Hr). done.
    + rewrite (filter_cons_True _ part) by done.
      rewrite (filter_cons_True _ part) by (by rewrite Ha, Hr).
      rewrite !fmap_cons, !filter_cons_True by (simpl; by rewrite ?Ha, ?Hr).
      rewrite Ha, Hr, IH. done.
Qed.

End CharSpans.

Section CharDiffTexts.

Variable diffLines : string → string → list Part.
Variable diffChars : string → string → list Part.

Hypothesis diffChars_covers :
  ∀ s t, String.concat "" (left_values (diffChars s t)) = s ∧
         String.concat "" (right_values (diffChars s t)) = t.

Lemma out_left_spans_cover enable chunks nl :
  Forall spans_cover (out_left diffChars enable chunks nl).
Proof.
  revert nl. induction chunks as [|c chunks IH]; intros nl; [constructor|].
  simpl. apply Forall_app. split; [|apply IH].
  destruct c as [s|ss ts]; [by repeat constructor|].
  apply Forall_forall. intros line Hline.
  apply elem_of_lookup_imap in Hline as (k & s & -> & _).
  unfold rem_line, spans_cover. destruct (ts !! k) as [t|]; [|done].
  unfold char_left. destruct enable; [|done]. simpl.
  rewrite (proj1 (computeCharDiff_texts diffChars s t)).
  apply diffChars_covers.
Qed.

Lemma out_right_spans_cover enable chunks nr :
  Forall spans_cover (out_right diffChars enable chunks nr).
Proof.
  revert nr. induction chunks as [|c chunks IH]; intros nr; [constructor|].
  simpl. apply Forall_app. split; [|apply IH].
  destruct c as [s|ss ts]; [by repeat constructor|].
  apply Forall_forall. intros line Hline.
  apply elem_of_lookup_imap in Hline as (k & t & -> & _).
  unfold add_line, spans_cover. destruct (ss !! k) as [s|]; [|done].
  unfold char_right. destruct enable; [|done]. simpl.
  rewrite (proj2 (computeCharDiff_texts diffChars s t)).
  apply diffChars_covers.
Qed.

(** X2: when the parts that the character diff returns add up to its two
    arguments, the spans of every [charDiff] in the result of [compare] add
    up to the content of the line that carries it. *)
Theorem compare_charDiff_texts (e : DiffEngine) (leftText rightText : string) :
  ∃ e' res,
    compare diffLines diffChars e leftText rightText = Some (e', res) ∧
    Forall spans_cover (r_left res) ∧
    Forall spans_cover (r_right res).
Proof.
  eexists _, _. split; [apply compare_chunks|].
  split; [apply out_left_spans_cover|apply out_right_spans_cover].
Qed.

End CharDiffTexts.

(** A character diff that reports the left line as removed and the right
    line as added. *)
Lemma compare_charDiff_texts_witness :
  (∀ s t, String.concat "" (left_values (replace_all_diff s t)) = s ∧
          String.concat "" (right_values (replace_all_diff s t)) = t) ∧
  ∃ e' res,
    compare replace_all_diff replace_all_diff new_DiffEngine "b" "x" = Some (e', res) ∧
    Forall spans_cover (r_left res) ∧
    Forall spans_cover (r_right res).
Proof.
  split.
  - intros s t. split; reflexivity.
  - apply (compare_charDiff_texts replace_all_diff replace_all_diff).
    intros s t. split; reflexivity.
Defined.

(** ** The counters of [getStats] and the sizes of the result *)

Section StatsBalance.

Variable diffLines : string → string → list Part.
Variable diffChars : string → string → list Part.

Lemma final_pairs_sides enable res pairs :
  Forall (final_pair diffChars enable (r_left res) (r_right res)) pairs →
  let modified := λ p, present (p_left p) && present (p_right p)
                       && type_is Modified (r_left res) (p_left p) in
  let unchanged := λ p, present (p_left p) && present (p_right p)
                        && negb (type_is Modified (r_left res) (p_left p)) in
  count_pairs left_only pairs + count_pairs modified pairs
    + count_pairs unchanged pairs = length (omap (left_line res) pairs) ∧
  count_pairs right_only pairs + count_pairs modified pairs
    + count_pairs unchanged pairs = length (omap (right_line res) pairs) ∧
  count_pairs right_only pairs + count_pairs left_only pairs
    + count_pairs modified pairs + count_pairs unchanged pairs = length pairs.
Proof.
  intros Hpairs modified unchanged.
  induction Hpairs as [|p pairs Hp _ (IHl & IHr & IHp)]; [done|].
  rewrite !count_pairs_cons.
  change (omap (left_line res) (p :: pairs))
    with (match left_line res p with
          | Some y => y :: omap (left_line res) pairs
          | None => omap (left_line res) pairs
          end).
  change (omap (right_line res) (p :: pairs))
    with (match right_line res p with
          | Some y => y :: omap (right_line res) pairs
          | None => omap (right_line res) pairs
          end).
  unfold modified at 1 3 5, unchanged at 1 3 5.
  unfold left_line, right_line, deref, left_only, right_only, type_is, deref in *.
  destruct Hp as [s a b Ha Hb|s t a b Ha Hb|s a Ha|t b Hb];
    cbn [p_left p_right present andb negb mbind option_bind];
    rewrite ?Ha, ?Hb; cbn [type length]; simpl bool_decide; cbn [andb negb];
    repeat split; lia.
Qed.

(** X3: after [compare], the counters of [getStats] add up to the sizes of the
    result: removed, modified and unchanged pairs make up the lines of
    [result.left]; added, modified and unchanged pairs make up the lines of
    [result.right]; the four counters together count every pair. *)
Theorem getStats_balance (e : DiffEngine) (leftText rightText : string) :
  ∃ e' res stats,
    compare diffLines diffChars e leftText rightText = Some (e', res) ∧
    getStats e' = Some stats ∧
    s_removed stats + s_modified stats + s_unchanged stats = length (r_left res) ∧
    s_added stats + s_modified stats + s_unchanged stats = length (r_right res) ∧
    s_added stats + s_removed stats + s_modified stats + s_unchanged stats
      = length (r_pairs res).
Proof.
  eexists _, _, _. split; [apply compare_chunks|].
  set (enable := bool_decide _).
  set (chunks := chunks_of _).
  unfold getStats. cbn [diffResult mbind option_bind]. split; [reflexivity|].
  rewrite stats_fold.
  cbn [s_added s_removed s_modified s_unchanged c_added c_removed c_modified
       c_unchanged].
  destruct (chunks_result_projection diffChars enable chunks) as [Hl Hr].
  destruct (final_pairs_sides enable (chunks_result diffChars enable chunks)
              (r_pairs (chunks_result diffChars enable chunks))
              (chunks_result_final diffChars enable chunks)) as (Hcl & Hcr & Hcp).
  rewrite Hl in Hcl. rewrite Hr in Hcr.
  rewrite !Nat.add_0_l. done.
Qed.

End StatsBalance.

(** ** The pairs of the blocks *)

Section BlockPairs.

Variable res : DiffResult.

Lemma blocks_flat_step st ip :
  blocks_flat (block_step res st ip)
  = blocks_flat st ++ (if isDiff res ip.2 then [ip.2] else []).
Proof.
  destruct st as [blocks cur], ip as [index p]. unfold block_step, blocks_flat.
  cbn [fst snd]. destruct (isDiff res p), cur as [c|]; cbn [fst snd b_pairs].
  - by rewrite <- app_assoc.
  - by rewrite app_nil_r.
  - rewrite fmap_app, concat_app, !app_nil_r. simpl. by rewrite app_nil_r.
  - by rewrite !app_nil_r.
Qed.

Lemma blocks_flat_fold ips st :
  blocks_flat (fold_left (block_step res) ips st)
  = blocks_flat st ++ filter (λ p, isDiff res p = true) ips.*2.
Proof.
  revert st. induction ips as [|ip ips IH]; intros st.
  - by rewrite app_nil_r.
  - simpl fold_left. rewrite IH, blocks_flat_step, fmap_cons, filter_cons.
    destruct (isDiff res ip.2).
    + rewrite decide_True by done. by rewrite <- app_assoc.
    + rewrite decide_False by done. by rewrite app_nil_r.
Qed.

Lemma groupDiffBlocks_flat :
  concat (b_pairs <$> groupDiffBlocks res)
  = filter (λ p, isDiff res p = true) (r_pairs res).
Proof.
  pose proof (blocks_flat_fold
                (zip (seq 0 (length (r_pairs res))) (r_pairs res)) ([], None)) as H.
  rewrite snd_zip in H by (rewrite length_seq; lia).
  unfold groupDiffBlocks. destruct (fold_left _ _ _) as [blocks cur].
  unfold blocks_flat in H. cbn [fst snd] in H. simpl in H. rewrite <- H.
  destruct cur as [c|]; [|by rewrite app_nil_r].
  rewrite fmap_app, concat_app. simpl. by rewrite app_nil_r.
Qed.

(** X4: for every result, the blocks of [groupDiffBlocks] hold, one after the
    other, exactly the pairs that pass the test of the loop, in the order of
    the pair sequence; a block holds as many pairs as its two indices span;
    and there is no block exactly when no pair passes the test. *)
Theorem groupDiffBlocks_partition :
  concat (b_pairs <$> groupDiffBlocks res)
    = filter (λ p, isDiff res p = true) (r_pairs res) ∧
  Forall (λ b, length (b_pairs b) = S (endIndex b - startIndex b))
         (groupDiffBlocks res) ∧
  (groupDiffBlocks res = [] ↔ Forall (λ p, isDiff res p = false) (r_pairs res)).
Proof.
  pose proof groupDiffBlocks_flat as Hflat.
  split; [exact Hflat|]. split.
  - destruct (groupDiffBlocks_runs res) as (Hruns & _ & _).
    apply Forall_forall. intros b Hb.
    destruct (Hruns b Hb) as [((Hs & He) & -> & _) _].
    rewrite length_take, length_drop. lia.
  - split.
    + intros Hnil. rewrite Hnil in Hflat. simpl in Hflat.
      apply Forall_forall. intros p Hp.
      destruct (isDiff res p) eqn:Hd; [|done].
      assert (p ∈ filter (λ p, isDiff res p = true) (r_pairs res)) as Hin
        by (by apply list_elem_of_filter).
      rewrite <- Hflat in Hin. by apply elem_of_nil in Hin.
    + apply no_diff_no_blocks.
Qed.

End BlockPairs.

(** ** Calling [compare] again *)

Section CompareAgain.

Variable diffLines : string → string → list Part.
Variable diffChars : string → string → list Part.

(** X5: [compare] does not depend on what an earlier [compare] left in the
    engine: after a call on any two texts, a call on [leftText] and
    [rightText] returns the same result and leaves the same engine as a
    call on the engine before, and the two getters return this result and
    its blocks. *)
Theorem compare_again (e : DiffEngine) (oldLeft oldRight leftText rightText : string) :
  ∃ e0 res0 e1 res1,
    compare diffLines diffChars e oldLeft oldRight = Some (e0, res0) ∧
    compare diffLines diffChars e0 leftText rightText = Some (e1, res1) ∧
    compare diffLines diffChars e leftText rightText = Some (e1, res1) ∧
    getResult e1 = Some res1 ∧
    getDiffBlocks e1 = groupDiffBlocks res1 ∧
    maxLinesForCharDiff e1 = maxLinesForCharDiff e.
Proof.
  rewrite (compare_chunks diffLines diffChars e oldLeft oldRight).
  rewrite (compare_chunks diffLines diffChars e leftText rightText).
  eexists _, _, _, _. split; [reflexivity|].
  rewrite compare_chunks. cbn [maxLinesForCharDiff]. done.
Qed.

End CompareAgain.

(** ** Results on which the scanning loop finds nothing to merge *)

Lemma run_end_last cond (l : list Pair) i :
  i < run_end cond l i →
  ∃ p, l !! (run_end cond l i - 1 - i) = Some p ∧ cond p = true.
Proof.
  revert i. induction l as [|p l IH]; intros i; simpl; [lia|].
  destruct (cond p) eqn:Hp; [|lia]. intros _.
  pose proof (run_end_bounds cond l (S i)) as [Hge _].
  destruct (decide (run_end cond l (S i) = S i)) as [->|Hne].
  - exists p. split; [|done]. by replace (S i - 1 - i) with 0 by lia.
  - destruct (IH (S i)) as (q & Hq & Hcq); [lia|]. exists q. split; [|done].
    by replace (run_end cond l (S i) - 1 - i)
      with (S (run_end cond l (S i) - 1 - S i)) by lia.
Qed.

Lemma settled_app l1 l2 :
  settled l1 → settled l2 →
  (∀ p q, last l1 = Some p → head l2 = Some q →
     left_only p = true → right_only q = false) →
  settled (l1 ++ l2).
Proof.
  intros H1 H2 Hmid i p q Hp Hq Hlo.
  destruct (decide (S i < length l1)) as [Hi|Hi].
  - rewrite lookup_app_l in Hp by lia. rewrite lookup_app_l in Hq by lia.
    exact (H1 i p q Hp Hq Hlo).
  - destruct (decide (S i = length l1)) as [Heq|Hne].
    + rewrite lookup_app_l in Hp by lia. rewrite lookup_app_r in Hq by lia.
      apply (Hmid p q); [|by rewrite head_lookup; replace 0 with (S i - length l1) by lia|done].
      rewrite last_lookup. by replace (pred (length l1)) with i by lia.
    + rewrite lookup_app_r in Hp by lia. rewrite lookup_app_r in Hq by lia.
      replace (S i - length l1) with (S (i - length l1)) in Hq by lia.
      exact (H2 _ p q Hp Hq Hlo).
Qed.

Lemma settled_no_right l : Forall (λ p, right_only p = false) l → settled l.
Proof.
  intros Hall i p q _ Hq _. rewrite Forall_lookup in Hall. exact (Hall _ _ Hq).
Qed.

Lemma settled_no_left l : Forall (λ p, left_only p = false) l → settled l.
Proof.
  intros Hall i p q Hp _ Hlo. rewrite Forall_lookup in Hall.
  by rewrite (Hall _ _ Hp) in Hlo.
Qed.

Section Settled.

Variable diffChars : string → string → list Part.

Lemma detect_body_settled enable res i :
  settled (r_pairs res) → (detect_body diffChars enable res i).1 = res.
Proof.
  intros Hset. unfold detect_body.
  destruct (r_pairs res !! i) as [p|] eqn:Hp; [|done].
  destruct (left_only p && type_is Removed (r_left res) (p_left p)) eqn:Hrem; [|done].
  apply andb_true_iff in Hrem as [Hlo _].
  assert (i < run_end left_only (drop i (r_pairs res)) i) as Hge.
  { rewrite (drop_S _ _ _ Hp). by apply run_end_head. }
  destruct (run_end_last left_only (drop i (r_pairs res)) i Hge) as (p' & Hp' & Hlo').
  set (i1 := run_end left_only (drop i (r_pairs res)) i) in *.
  rewrite lookup_drop in Hp'. replace (i + (i1 - 1 - i)) with (i1 - 1) in Hp' by lia.
  destruct (r_pairs res !! i1) as [q|] eqn:Hq; [|done].
  replace i1 with (S (i1 - 1)) in Hq by lia.
  by rewrite (Hset _ _ _ Hp' Hq Hlo').
Qed.

Lemma detect_loop_settled enable fuel res i :
  settled (r_pairs res) → length (r_pairs res) - i ≤ fuel →
  detect_loop diffChars fuel enable res i = Some res.
Proof.
  intros Hset. revert i. induction fuel as [|fuel IH]; intros i Hfuel.
  - apply detect_loop_done. lia.
  - destruct (decide (i < length (r_pairs res))) as [Hi|Hi];
      [|apply detect_loop_done; lia].
    rewrite detect_loop_step by done.
    destruct (detect_body_spec diffChars enable res i Hi) as (Hadv & _ & _).
    rewrite detect_body_settled by done. apply IH. lia.
Qed.

Lemma detectModifications_settled e res :
  settled (r_pairs res) → Forall (λ p, p_merged p = false) (r_pairs res) →
  detectModifications diffChars e res = Some res.
Proof.
  intros Hset Hlive. unfold detectModifications.
  rewrite detect_loop_settled by (done || lia). simpl.
  rewrite filter_all by done. by destruct res.
Qed.

End Settled.

(** *** The pairs of a result of [processDiff] *)

Lemma head_out_live_right_only chunks nl nr q :
  chunks_strict chunks → head (out_live chunks nl nr) = Some q →
  right_only q = true → starts_with TAdded (chunks_rows chunks) = true.
Proof.
  destruct chunks as [|[s|[|s ss] ts] chunks]; try done.
  - simpl. by intros _ [= <-].
  - intros [[[Hss|Hts] _] _]; [done|]. by destruct ts.
  - simpl. by intros _ [= <-].
Qed.

Lemma chunk_live_settled c nl nr : settled (chunk_live c nl nr).
Proof.
  destruct c as [s|ss ts].
  - apply settled_no_right. by repeat constructor.
  - unfold chunk_live. apply settled_app.
    + apply settled_no_right, Forall_forall. intros p Hp.
      apply elem_of_lookup_imap in Hp as (k & s & -> & _). done.
    + apply settled_no_left, Forall_forall. intros p Hp.
      apply list_elem_of_lookup in Hp as [i Hi].
      rewrite lookup_drop, list_lookup_imap in Hi.
      destruct (ts !! (length ss + i)); [|done]. by injection Hi as <-.
    + intros p q Hp Hq Hlo. exfalso.
      rewrite head_lookup, lookup_drop, list_lookup_imap in Hq.
      destruct (ts !! (length ss + 0)) as [t|] eqn:Ht; [|done].
      apply lookup_lt_Some in Ht.
      rewrite last_lookup, list_lookup_imap, length_imap in Hp.
      destruct (ss !! pred (length ss)) as [s|] eqn:Hs; [|done].
      injection Hp as <-. apply lookup_lt_Some in Hs.
      unfold left_only, rem_pair in Hlo. cbn [p_left p_right] in Hlo.
      destruct (lookup_lt_is_Some_2 ts (pred (length ss))) as [t' Ht']; [lia|].
      by rewrite Ht' in Hlo.
Qed.

Lemma last_chunk_live_left_only c nl nr p :
  last (chunk_live c nl nr) = Some p → left_only p = true →
  ∃ ss ts, c = Change ss ts.
Proof.
  destruct c as [s|ss ts]; [|by eexists _, _].
  simpl. by intros [= <-].
Qed.

Lemma out_live_settled chunks nl nr :
  chunks_strict chunks → settled (out_live chunks nl nr).
Proof.
  revert nl nr. induction chunks as [|c chunks IH]; intros nl nr.
  - intros _ i p q Hp. done.
  - intros [Hc Hrest]. simpl. apply settled_app.
    + apply chunk_live_settled.
    + by apply IH.
    + intros p q Hp Hq Hlo.
      destruct (right_only q) eqn:Hro; [|done]. exfalso.
      destruct (last_chunk_live_left_only c nl nr p Hp Hlo) as (ss & ts & ->).
      destruct Hc as (_ & Hadd & _).
      by rewrite (head_out_live_right_only _ _ _ q Hrest Hq Hro) in Hadd.
Qed.

Lemma final_pair_live diffChars enable L R p :
  final_pair diffChars enable L R p → p_merged p = false.
Proof. by intros []. Qed.

Section Idempotent.

Variable diffChars : string → string → list Part.

(** X6: the modification-detection pass changes nothing in a result of
    [processDiff]: run again, with character diffs enabled or not, it
    returns the result as it is. *)
Theorem detectModifications_idempotent (e e2 : DiffEngine) (diff : list Part)
    (enable : bool) :
  ∃ e' res,
    processDiff diffChars e diff enable = Some (e', res) ∧
    detectModifications diffChars e2 res = Some res.
Proof.
  eexists _, _. split; [apply processDiff_chunks|].
  apply detectModifications_settled.
  - unfold chunks_result. cbn [r_pairs]. rewrite filter_out_pairs.
    apply out_live_settled, chunks_of_strict.
  - eapply Forall_impl; [apply chunks_result_final|].
    intros p Hp. by eapply final_pair_live.
Qed.

End Idempotent.

(** *** The diffs that the pass leaves as they are *)

Lemma settled_cons p l :
  settled l →
  (∀ q, head l = Some q → left_only p = true → right_only q = false) →
  settled (p :: l).
Proof.
  intros Hl Hhead. apply (settled_app [p] l); [|done|].
  - intros [|i] p' q; [|done]. done.
  - intros p' q [= <-]. apply Hhead.
Qed.

Lemma build_pairs_settled rows nl nr :
  no_merge rows = true → settled (build_pairs rows nl nr).
Proof.
  revert nl nr. induction rows as [|[tag s] rest IH]; intros nl nr.
  - intros _ i p q Hp. done.
  - cbn [no_merge fst]. intros [Hhead Hrest]%andb_true_iff.
    apply negb_true_iff in Hhead.
    destruct tag; cbn [build_pairs]; (apply settled_cons; [by apply IH|]);
      intros q Hq Hlo; try done.
    rewrite head_lookup in Hq.
    by apply (build_pairs_head_not_right_only rest (S nl) nr q).
Qed.

Lemma build_pairs_live rows nl nr :
  Forall (λ p, p_merged p = false) (build_pairs rows nl nr).
Proof.
  revert nl nr. induction rows as [|[[] s] rest IH]; intros nl nr;
    cbn [build_pairs]; constructor; done.
Qed.

Lemma length_chunk_live c nl nr :
  length (chunk_live c nl nr) + merge_count c = length (chunk_rows c).
Proof.
  destruct c as [s|ss ts]; [done|]. unfold chunk_live. simpl.
  rewrite !length_app, length_drop, !length_imap, !length_fmap. lia.
Qed.

Lemma length_out_live chunks nl nr :
  length (out_live chunks nl nr) + merges chunks = length (chunks_rows chunks).
Proof.
  revert nl nr. induction chunks as [|c chunks IH]; intros nl nr; [done|].
  rewrite chunks_rows_cons. cbn [out_live merges foldr].
  rewrite !length_app.
  specialize (IH (nl + left_count c) (nr + right_count c)).
  pose proof (length_chunk_live c nl nr). fold (merges chunks). lia.
Qed.

Lemma merges_chunks_of_cons row rest :
  merges (chunks_of rest) ≤ merges (chunks_of (row :: rest)).
Proof.
  destruct row as [[] s]; cbn [chunks_of].
  - destruct (chunks_of rest) as [|[s'|[|s1 ss] ts] chunks];
      cbn [merges foldr merge_count length]; lia.
  - destruct (chunks_of rest) as [|[s'|ss ts] chunks];
      cbn [merges foldr merge_count length]; lia.
  - unfold merges. cbn [foldr merge_count]. lia.
Qed.

Lemma merges_chunks_of_removed_added s rest :
  starts_with TAdded rest = true → 0 < merges (chunks_of ((TRemoved, s) :: rest)).
Proof.
  destruct rest as [|[[] t] rest]; try done. intros _. cbn [chunks_of].
  destruct (chunks_of rest) as [|[s'|[|s1 ss] ts] chunks];
    cbn [merges foldr merge_count length]; lia.
Qed.

Lemma merges_chunks_of rows : no_merge rows = false → 0 < merges (chunks_of rows).
Proof.
  induction rows as [|[tag s] rest IH]; [done|].
  cbn [no_merge fst]. intros [Hhead|Hrest]%andb_false_iff.
  - apply negb_false_iff, andb_true_iff in Hhead as [Htag Hadd].
    apply bool_decide_eq_true_1 in Htag as ->.
    by apply merges_chunks_of_removed_added.
  - pose proof (merges_chunks_of_cons (tag, s) rest). specialize (IH Hrest). lia.
Qed.

Section KeepsPairing.

Variable diffChars : string → string → list Part.

(** X7: [processDiff] returns the pairing of the lines of the diff as it is,
    with no line retyped and no pair merged, exactly when no removed line
    of the diff is directly followed by an added line.  In particular an
    added line followed by a removed line is never merged. *)
Theorem processDiff_keeps_pairing (e : DiffEngine) (diff : list Part) (enable : bool) :
  no_merge (diff_rows diff) = true ↔
  processDiff diffChars e diff enable
  = Some (set_enableCharDiff enable e, pair_lines diff).
Proof.
  split.
  - intros Hno. unfold processDiff.
    rewrite detectModifications_settled; [done| |].
    + rewrite pair_lines_rows. by apply build_pairs_settled.
    + rewrite pair_lines_rows. apply build_pairs_live.
  - rewrite processDiff_chunks. intros [= Heq].
    destruct (no_merge (diff_rows diff)) eqn:Hno; [done|]. exfalso.
    apply merges_chunks_of in Hno.
    assert (length (r_pairs (chunks_result diffChars enable
                               (chunks_of (diff_rows diff))))
            = length (r_pairs (pair_lines diff))) as Hlen by (by rewrite Heq).
    unfold chunks_result in Hlen. cbn [r_pairs] in Hlen.
    rewrite filter_out_pairs, pair_lines_rows in Hlen.
    cbn [scan_state r_pairs app] in Hlen. rewrite length_build_pairs in Hlen.
    pose proof (length_out_live (chunks_of (diff_rows diff)) 0 0) as Hsum.
    rewrite chunks_of_rows in Hsum. lia.
Qed.

End KeepsPairing.

(** *** What the pass does to the lines *)

Lemma Forall2_imap_same {A B} (R : B → B → Prop) (f g : nat → A → B) (l : list A) :
  (∀ k x, l !! k = Some x → R (f k x) (g k x)) → Forall2 R (imap f l) (imap g l).
Proof.
  revert f g. induction l as [|x l IH]; intros f g Hfg; [constructor|].
  rewrite !imap_cons. constructor; [by apply Hfg|].
  apply IH. intros k y Hy. by apply (Hfg (S k)).
Qed.

Section Retyped.

Variable diffChars : string → string → list Part.
Variable enable : bool.

Lemma chunk_left_retyped c nl :
  Forall2 (retyped Removed) (build_left (chunk_rows c) nl)
          (chunk_left diffChars enable c nl).
Proof.
  destruct c as [s|ss ts].
  - repeat constructor.
  - unfold chunk_rows, chunk_left.
    rewrite build_left_app, (build_left_removed diffChars enable), build_left_added.
    rewrite app_nil_r. apply Forall2_imap_same. intros k s _.
    unfold rem_line. rewrite lookup_nil.
    destruct (ts !! k); repeat split; auto.
Qed.

Lemma chunk_right_retyped c nr :
  Forall2 (retyped Added) (build_right (chunk_rows c) nr)
          (chunk_right diffChars enable c nr).
Proof.
  destruct c as [s|ss ts].
  - repeat constructor.
  - unfold chunk_rows, chunk_right.
    rewrite build_right_app, build_right_removed, (build_right_added diffChars enable).
    cbn [app length]. rewrite Nat.add_0_r. apply Forall2_imap_same. intros k t _.
    unfold add_line. rewrite lookup_nil.
    destruct (ss !! k); repeat split; auto.
Qed.

Lemma out_left_retyped chunks nl :
  Forall2 (retyped Removed) (build_left (chunks_rows chunks) nl)
          (out_left diffChars enable chunks nl).
Proof.
  revert nl. induction chunks as [|c chunks IH]; intros nl; [constructor|].
  rewrite chunks_rows_cons, build_left_app. cbn [out_left].
  apply Forall2_app; [apply chunk_left_retyped|].
  rewrite (length_build_left_chunk diffChars enable). apply IH.
Qed.

Lemma out_right_retyped chunks nr :
  Forall2 (retyped Added) (build_right (chunks_rows chunks) nr)
          (out_right diffChars enable chunks nr).
Proof.
  revert nr. induction chunks as [|c chunks IH]; intros nr; [constructor|].
  rewrite chunks_rows_cons, build_right_app. cbn [out_right].
  apply Forall2_app; [apply chunk_right_retyped|].
  rewrite (length_build_right_chunk diffChars enable). apply IH.
Qed.

Lemma count_modified_rem_lines nl (ss ts : list string) :
  count_type Modified (imap (rem_line diffChars enable nl ts) ss)
  = length ss `min` length ts.
Proof.
  unfold count_type. revert nl ts. induction ss as [|s ss IH]; intros nl ts; [done|].
  rewrite imap_cons.
  assert (imap (rem_line diffChars enable nl ts ∘ S) ss
          = imap (rem_line diffChars enable (S nl) (tail ts)) ss) as ->.
  { apply imap_ext. intros k x _. unfold rem_line. cbn [compose].
    destruct ts as [|t ts]; cbn [tail lookup list_lookup]; rewrite ?lookup_nil;
      [|destruct (ts !! k)]; do 2 f_equal; lia. }
  destruct ts as [|t ts].
  - rewrite filter_cons_False by done. rewrite IH. cbn [tail length]. lia.
  - rewrite filter_cons_True by done. cbn [length tail]. rewrite IH. lia.
Qed.

Lemma count_modified_add_lines nr (ss ts : list string) :
  count_type Modified (imap (add_line diffChars enable nr ss) ts)
  = length ss `min` length ts.
Proof.
  unfold count_type. revert nr ss. induction ts as [|t ts IH]; intros nr ss;
    [simpl; lia|].
  rewrite imap_cons.
  assert (imap (add_line diffChars enable nr ss ∘ S) ts
          = imap (add_line diffChars enable (S nr) (tail ss)) ts) as ->.
  { apply imap_ext. intros k x _. unfold add_line. cbn [compose].
    destruct ss as [|s ss]; cbn [tail lookup list_lookup]; rewrite ?lookup_nil;
      [|destruct (ss !! k)]; do 2 f_equal; lia. }
  destruct ss as [|s ss].
  - rewrite filter_cons_False by done. rewrite IH. cbn [tail length]. lia.
  - rewrite filter_cons_True by done. cbn [length tail]. rewrite IH. lia.
Qed.

Lemma count_modified_out chunks nl nr :
  count_type Modified (out_left diffChars enable chunks nl) = merges chunks ∧
  count_type Modified (out_right diffChars enable chunks nr) = merges chunks.
Proof.
  revert nl nr. induction chunks as [|c chunks IH]; intros nl nr; [done|].
  destruct (IH (nl + left_count c) (nr + right_count c)) as [IHl IHr].
  unfold count_type in *. cbn [out_left out_right merges foldr].
  rewrite !filter_app, !length_app, IHl, IHr. fold (merges chunks).
  destruct c as [s|ss ts]; [done|].
  pose proof (count_modified_rem_lines nl ss ts) as Hl.
  pose proof (count_modified_add_lines nr ss ts) as Hr.
  unfold count_type in Hl, Hr. cbn [chunk_left chunk_right merge_count].
  rewrite Hl, Hr. done.
Qed.

(** X8: the modification-detection pass of [processDiff] keeps the lines of
    the pairing in place, with their line numbers and contents: on the left
    it only turns removed lines into modified lines, on the right only added
    lines into modified lines.  There are as many modified lines on the left
    as on the right, and the pass removes one pair for each of them. *)
Theorem processDiff_retypes (e : DiffEngine) (diff : list Part) :
  ∃ e' res,
    processDiff diffChars e diff enable = Some (e', res) ∧
    Forall2 (retyped Removed) (r_left (pair_lines diff)) (r_left res) ∧
    Forall2 (retyped Added) (r_right (pair_lines diff)) (r_right res) ∧
    count_type Modified (r_left res) = count_type Modified (r_right res) ∧
    length (r_pairs (pair_lines diff))
      = length (r_pairs res) + count_type Modified (r_left res).
Proof.
  eexists _, _. split; [apply processDiff_chunks|].
  rewrite pair_lines_rows. unfold scan_state, chunks_result.
  cbn [r_left r_right r_pairs app length].
  set (chunks := chunks_of (diff_rows diff)).
  rewrite <- (chunks_of_rows (diff_rows diff)). fold chunks.
  destruct (count_modified_out chunks 0 0) as [Hl Hr].
  split; [apply out_left_retyped|]. split; [apply out_right_retyped|].
  split; [by rewrite Hl, Hr|].
  rewrite length_build_pairs, filter_out_pairs, Hl.
  by rewrite <- (length_out_live chunks 0 0).
Qed.

End Retyped.

(** * Properties of the application *)

(** ** Navigation between the blocks *)

Lemma next_index_range (len : Z) cur direction :
  (0 < len)%Z → (0 ≤ next_index len cur direction < len)%Z.
Proof.
  intros Hlen. unfold next_index.
  destruct cur as [cur|]; repeat case_decide; lia.
Qed.

Lemma navigateDiff_shown app direction :
  getDiffBlocks (diffEngine app) ≠ [] →
  let blocks := getDiffBlocks (diffEngine app) in
  let index := next_index (Z.of_nat (length blocks)) (currentDiffIndex app) direction in
  ∃ b, navigateDiff app direction
       = (mkApp (diffEngine app) (currentFilter app) (Some index), Shown b) ∧
       (0 ≤ index < Z.of_nat (length blocks))%Z ∧
       blocks !! Z.to_nat index = Some b.
Proof.
  intros Hne blocks index.
  assert (0 < Z.of_nat (length blocks))%Z as Hlen.
  { subst blocks. destruct (getDiffBlocks (diffEngine app)); [done|simpl; lia]. }
  pose proof (next_index_range _ (currentDiffIndex app) direction Hlen) as Hrange.
  fold index in Hrange.
  destruct (lookup_lt_is_Some_2 blocks (Z.to_nat index)) as [b Hb]; [lia|].
  exists b. split; [|done].
  unfold navigateDiff. fold blocks. rewrite decide_False by lia.
  fold index. unfold block_at. rewrite decide_True by lia. by rewrite Hb.
Qed.

(** X9: when there is a block, [navigateDiff] always finds the block it scrolls
    to, whatever the index was before and whatever the direction is: the
    index it leaves in [currentDiffIndex] is the position of this block, and
    the engine and the filter stay as they are. *)
Theorem navigateDiff_in_range (app : App) (direction : Z) :
  getDiffBlocks (diffEngine app) ≠ [] →
  ∃ index b,
    navigateDiff app direction
      = (mkApp (diffEngine app) (currentFilter app) (Some index), Shown b) ∧
    (0 ≤ index < Z.of_nat (length (getDiffBlocks (diffEngine app))))%Z ∧
    getDiffBlocks (diffEngine app) !! Z.to_nat index = Some b.
Proof.
  intros Hne. destruct (navigateDiff_shown app direction Hne) as (b & Hnav & Hrange & Hb).
  by eexists _, b.
Qed.

(** X10: from the position of a block, the direction [1] leads to the next
    block and from the last block to the first, the direction [-1] leads to
    the previous block and from the first block to the last, and one step
    forward followed by one step back (or the reverse) returns to the
    position. *)
Theorem navigateDiff_wraps (app : App) (i : Z) :
  (0 ≤ i < Z.of_nat (length (getDiffBlocks (diffEngine app))))%Z →
  currentDiffIndex app = Some i →
  let len := Z.of_nat (length (getDiffBlocks (diffEngine app))) in
  currentDiffIndex (navigateDiff app 1).1 = Some ((i + 1) `mod` len)%Z ∧
  currentDiffIndex (navigateDiff app (-1)).1 = Some ((i - 1) `mod` len)%Z ∧
  currentDiffIndex (navigateDiff (navigateDiff app 1).1 (-1)).1 = Some i ∧
  currentDiffIndex (navigateDiff (navigateDiff app (-1)).1 1).1 = Some i.
Proof.
  intros Hi Hcur len.
  assert (getDiffBlocks (diffEngine app) ≠ []) as Hne.
  { intros Hnil. rewrite Hnil in Hi. simpl in Hi. lia. }
  assert (∀ d, currentDiffIndex (navigateDiff app d).1
               = Some (next_index len (Some i) d) ∧
               diffEngine (navigateDiff app d).1 = diffEngine app) as Hstep.
  { intros d. destruct (navigateDiff_shown app d Hne) as (b & -> & _).
    cbn [fst currentDiffIndex diffEngine]. by rewrite Hcur. }
  assert (∀ app' j d, diffEngine app' = diffEngine app →
            currentDiffIndex app' = Some j →
            currentDiffIndex (navigateDiff app' d).1 = Some (next_index len (Some j) d))
    as Hstep'.
  { intros app' j d He Hj.
    destruct (navigateDiff_shown app' d) as (b & -> & _); [by rewrite He|].
    cbn [fst currentDiffIndex]. by rewrite He, Hj. }
  assert (next_index len (Some i) 1 = (i + 1) `mod` len)%Z as Hnext.
  { unfold next_index. repeat case_decide; try lia.
    - apply (Z.mod_unique_pos (i + 1) len 1 0); lia.
    - apply (Z.mod_unique_pos (i + 1) len 0 (i + 1)); lia. }
  assert (next_index len (Some i) (-1) = (i - 1) `mod` len)%Z as Hprev.
  { unfold next_index. repeat case_decide; try lia.
    - apply (Z.mod_unique_pos (i - 1) len (-1) (len - 1)); lia.
    - apply (Z.mod_unique_pos (i - 1) len 0 (i + -1)); lia. }
  destruct (Hstep 1%Z) as [H1 He1]. destruct (Hstep (-1)%Z) as [H2 He2].
  split; [by rewrite H1, Hnext|]. split; [by rewrite H2, Hprev|].
  split.
  - rewrite (Hstep' _ _ _ He1 H1). f_equal.
    unfold next_index. repeat case_decide; lia.
  - rewrite (Hstep' _ _ _ He2 H2). f_equal.
    unfold next_index. repeat case_decide; lia.
Qed.

Section NavigationTarget.

Variable diffLines : string → string → list Part.
Variable diffChars : string → string → list Part.

Lemma navigateDiff_block (e e' : DiffEngine) (res : DiffResult)
    (leftText rightText filter : string) (cur : option Z) (direction : Z) :
  compare diffLines diffChars e leftText rightText = Some (e', res) →
  getDiffBlocks e' ≠ [] →
  ∃ app' b p,
    navigateDiff (mkApp e' filter cur) direction = (app', Shown b) ∧
    r_pairs res !! startIndex b = Some p ∧
    head (b_pairs b) = Some p ∧
    isDiff res p = true ∧
    (∀ k q, S k = startIndex b → r_pairs res !! k = Some q → isDiff res q = false).
Proof.
  intros Hcompare Hne.
  destruct (navigateDiff_shown (mkApp e' filter cur) direction Hne)
    as (b & Hnav & _ & Hb).
  rewrite compare_chunks in Hcompare. injection Hcompare as <- <-.
  cbn [diffEngine getDiffBlocks diffBlocks] in Hb.
  set (res := chunks_result _ _ _) in *.
  destruct (groupDiffBlocks_runs res) as (Hruns & _ & _).
  destruct (Hruns b) as [((Hs & He) & Hpairs & Hall & Hprev) _];
    [by eapply list_elem_of_lookup_2|].
  destruct (lookup_lt_is_Some_2 (r_pairs res) (startIndex b)) as [p Hp]; [lia|].
  eexists _, b, p. split; [exact Hnav|]. split; [exact Hp|]. split.
  - rewrite Hpairs, head_lookup, lookup_take, lookup_drop, Nat.add_0_r.
    rewrite decide_True by lia. done.
  - split; [apply (Hall (startIndex b)); [lia|done]|exact Hprev].
Qed.

(** X11: after [compare], when there is a block, the block that [navigateDiff]
    scrolls to starts at a pair of the result: this pair is the first pair
    of the block, it passes the test of [groupDiffBlocks], and the pair
    before it, when there is one, does not. *)
Theorem navigateDiff_target (e e' : DiffEngine) (res : DiffResult)
    (leftText rightText filter : string) (cur : option Z) (direction : Z) :
  compare diffLines diffChars e leftText rightText = Some (e', res) →
  getDiffBlocks e' ≠ [] →
  ∃ app' b p,
    navigateDiff (mkApp e' filter cur) direction = (app', Shown b) ∧
    r_pairs res !! startIndex b = Some p ∧
    head (b_pairs b) = Some p ∧
    isDiff res p = true ∧
    (∀ k q, S k = startIndex b → r_pairs res !! k = Some q → isDiff res q = false).
Proof. apply navigateDiff_block. Qed.

End NavigationTarget.

(** ** The filter of the display *)

Lemma filter_ext_Forall {A} (P Q : A → Prop) `{∀ x, Decision (P x)}
    `{∀ x, Decision (Q x)} (l : list A) :
  Forall (λ x, P x ↔ Q x) l → filter P l = filter Q l.
Proof.
  induction 1 as [|x l Hx _ IH]; [done|].
  rewrite !filter_cons, IH.
  destruct (decide (P x)), (decide (Q x)); try done; exfalso; tauto.
Qed.

Lemma shown_pairs_other app res :
  currentFilter app ≠ "diff" → currentFilter app ≠ "same" →
  shown_pairs app res = r_pairs res.
Proof.
  intros Hd Hs. unfold shown_pairs. apply filter_all.
  apply Forall_forall. intros p _. unfold shouldShowPair.
  repeat case_decide; done.
Qed.

Section Filter.

Variable diffLines : string → string → list Part.
Variable diffChars : string → string → list Part.

Lemma final_pair_shown enable res p e' cur :
  final_pair diffChars enable (r_left res) (r_right res) p →
  shouldShowPair (mkApp e' "diff" cur) res p = isDiff res p ∧
  shouldShowPair (mkApp e' "same" cur) res p = fully_unchanged res p ∧
  isDiff res p = negb (fully_unchanged res p).
Proof.
  intros Hp. unfold shouldShowPair, isDiff, fully_unchanged, type_is, type_is_not, deref.
  cbn [currentFilter].
  rewrite (decide_False (P := "diff" = "all")) by done.
  rewrite (decide_True (P := "diff" = "diff")) by done.
  rewrite (decide_False (P := "same" = "all")) by done.
  rewrite (decide_False (P := "same" = "diff")) by done.
  rewrite (decide_True (P := "same" = "same")) by done.
  destruct Hp as [s a b Ha Hb|s t a b Ha Hb|s a Ha|t b Hb]; simpl;
    rewrite ?Ha, ?Hb; simpl; done.
Qed.

Lemma final_pairs_diff_count enable res pairs :
  Forall (final_pair diffChars enable (r_left res) (r_right res)) pairs →
  count_pairs (isDiff res) pairs
  = count_pairs right_only pairs + count_pairs left_only pairs
    + count_pairs (λ p, present (p_left p) && present (p_right p)
                        && type_is Modified (r_left res) (p_left p)) pairs ∧
  count_pairs (fully_unchanged res) pairs
  = count_pairs (λ p, present (p_left p) && present (p_right p)
                      && negb (type_is Modified (r_left res) (p_left p))) pairs.
Proof.
  induction 1 as [|p pairs Hp _ [IHd IHu]]; [done|].
  rewrite !count_pairs_cons, IHd, IHu.
  unfold isDiff, fully_unchanged, left_only, right_only, type_is, type_is_not, deref.
  destruct Hp as [s a b Ha Hb|s t a b Ha Hb|s a Ha|t b Hb];
    cbn [p_left p_right present andb negb mbind option_bind];
    rewrite ?Ha, ?Hb; cbn [type]; simpl bool_decide; cbn [andb negb orb];
    split; lia.
Qed.

(** X12: after [compare], the pairs that the display shows are: under the
    filter ['diff'], the pairs of the blocks of the engine, one block after
    the other, as many as the counters [added], [removed] and [modified] of
    [getStats] together; under the filter ['same'], pairs with two unchanged
    sides, as many as the counter [unchanged]; under any other filter, all
    the pairs of the result. *)
Theorem shown_pairs_filters (e : DiffEngine) (leftText rightText : string)
    (cur : option Z) :
  ∃ e' res stats,
    compare diffLines diffChars e leftText rightText = Some (e', res) ∧
    getStats e' = Some stats ∧
    shown_pairs (mkApp e' "diff" cur) res = concat (b_pairs <$> getDiffBlocks e') ∧
    length (shown_pairs (mkApp e' "diff" cur) res)
      = s_added stats + s_removed stats + s_modified stats ∧
    Forall (λ p, fully_unchanged res p = true) (shown_pairs (mkApp e' "same" cur) res) ∧
    length (shown_pairs (mkApp e' "same" cur) res) = s_unchanged stats ∧
    (∀ filter, filter ≠ "diff" → filter ≠ "same" →
       shown_pairs (mkApp e' filter cur) res = r_pairs res).
Proof.
  eexists _, _, _. split; [apply compare_chunks|].
  unfold getStats. cbn [diffResult mbind option_bind]. split; [reflexivity|].
  rewrite stats_fold.
  cbn [s_added s_removed s_modified s_unchanged c_added c_removed c_modified
       c_unchanged getDiffBlocks diffBlocks].
  set (enable := bool_decide _).
  set (chunks := chunks_of _).
  set (res := chunks_result diffChars enable chunks).
  set (e' := mkEngine _ _ _ _ _ _).
  pose proof (chunks_result_final diffChars enable chunks) as Hfinal. fold res in Hfinal.
  destruct (final_pairs_diff_count enable res (r_pairs res) Hfinal) as [Hcd Hcu].
  assert (shown_pairs (mkApp e' "diff" cur) res
          = filter (λ p, isDiff res p = true) (r_pairs res)) as Hdiff.
  { apply filter_ext_Forall. eapply Forall_impl; [exact Hfinal|].
    intros p Hp. simpl.
    by rewrite (proj1 (final_pair_shown enable res p e' cur Hp)). }
  assert (shown_pairs (mkApp e' "same" cur) res
          = filter (λ p, fully_unchanged res p = true) (r_pairs res)) as Hsame.
  { apply filter_ext_Forall. eapply Forall_impl; [exact Hfinal|].
    intros p Hp. simpl.
    by rewrite (proj1 (proj2 (final_pair_shown enable res p e' cur Hp))). }
  split; [by rewrite Hdiff, groupDiffBlocks_flat|].
  split; [rewrite Hdiff; fold (count_pairs (isDiff res) (r_pairs res)); lia|].
  split; [rewrite Hsame; apply Forall_forall; intros p Hp;
          by apply list_elem_of_filter in Hp as [? _]|].
  split; [rewrite Hsame; fold (count_pairs (fully_unchanged res) (r_pairs res)); lia|].
  intros filter Hd Hs. by apply shown_pairs_other.
Qed.

End Filter.

(** ** The theorems on the application at sample inputs *)

(** Three blocks, and an index left over from a longer list of blocks. *)
Lemma navigateDiff_in_range_witness :
  ∃ e' res,
    compare three_changes_diff replace_all_diff new_DiffEngine "" "" = Some (e', res) ∧
    let app := mkApp e' "all" (Some 7%Z) in
    getDiffBlocks (diffEngine app) ≠ [] ∧
    ∃ index b,
      navigateDiff app (-1)
        = (mkApp (diffEngine app) (currentFilter app) (Some index), Shown b) ∧
      (0 ≤ index < Z.of_nat (length (getDiffBlocks (diffEngine app))))%Z ∧
      getDiffBlocks (diffEngine app) !! Z.to_nat index = Some b.
Proof.
  eexists _, _. split; [vm_compute; reflexivity|].
  intros app. split; [by vm_compute|].
  apply (navigateDiff_in_range app (-1)). by vm_compute.
Defined.

(** Three blocks, at the last one. *)
Lemma navigateDiff_wraps_witness :
  ∃ e' res,
    compare three_changes_diff replace_all_diff new_DiffEngine "" "" = Some (e', res) ∧
    let app := mkApp e' "all" (Some 2%Z) in
    let len := Z.of_nat (length (getDiffBlocks (diffEngine app))) in
    (0 ≤ 2 < len)%Z ∧
    currentDiffIndex app = Some 2%Z ∧
    currentDiffIndex (navigateDiff app 1).1 = Some ((2 + 1) `mod` len)%Z ∧
    currentDiffIndex (navigateDiff app (-1)).1 = Some ((2 - 1) `mod` len)%Z ∧
    currentDiffIndex (navigateDiff (navigateDiff app 1).1 (-1)).1 = Some 2%Z ∧
    currentDiffIndex (navigateDiff (navigateDiff app (-1)).1 1).1 = Some 2%Z.
Proof.
  eexists _, _. split; [vm_compute; reflexivity|].
  intros app len. split; [by vm_compute|].
  split; [reflexivity|].
  apply (navigateDiff_wraps app 2%Z); [by vm_compute|reflexivity].
Defined.

(** The first navigation forward after a comparison with three blocks. *)
Lemma navigateDiff_target_witness :
  ∃ e' res,
    compare three_changes_diff replace_all_diff new_DiffEngine "" "" = Some (e', res) ∧
    getDiffBlocks e' ≠ [] ∧
    ∃ app' b p,
      navigateDiff (mkApp e' "all" (Some (-1)%Z)) 1 = (app', Shown b) ∧
      r_pairs res !! startIndex b = Some p ∧
      head (b_pairs b) = Some p ∧
      isDiff res p = true ∧
      (∀ k q, S k = startIndex b → r_pairs res !! k = Some q → isDiff res q = false).
Proof.
  eexists _, _. split; [vm_compute; reflexivity|].
  split; [by vm_compute|].
  apply (navigateDiff_target three_changes_diff replace_all_diff new_DiffEngine
           _ _ "" "" "all" (Some (-1)%Z) 1%Z); [vm_compute; reflexivity|by vm_compute].
Defined.

(** ** The selection in the text areas *)

Lemma selection_loop_spec side rest i n startLine endLine :
  let ref := λ p : Pair, if decide (side = "left") then p_left p else p_right p in
  omap ref rest = seq n (length (omap ref rest)) →
  ∀ j, j ∈ selection_loop side rest i n startLine endLine ↔
       ∃ k p a, j = i + k ∧ rest !! k = Some p ∧ ref p = Some a ∧
                startLine ≤ a ≤ endLine.
Proof.
  intros ref. revert i n. induction rest as [|pr rest IH]; intros i n Hseq j.
  - simpl. split; [by intros ?%elem_of_nil|]. by intros (k & p & a & _ & ? & _).
  - assert (∀ m, omap ref rest = seq m (length (omap ref rest)) →
              ∀ k p a, rest !! k = Some p → ref p = Some a → m ≤ a) as Hlater.
    { intros m Hm k p a Hp Ha.
      assert (a ∈ omap ref rest) as Hin.
      { apply list_elem_of_omap. exists p. split; [|done].
        by eapply list_elem_of_lookup_2. }
      rewrite Hm in Hin. apply elem_of_seq in Hin. lia. }
    change (omap ref (pr :: rest))
      with (match ref pr with
            | Some a => a :: omap ref rest
            | None => omap ref rest
            end) in Hseq.
    cbn [selection_loop]. fold (ref pr).
    destruct (ref pr) as [a0|] eqn:Hpr; cbn [present andb].
    + cbn [length seq] in Hseq. injection Hseq as -> Hrest.
      rewrite elem_of_app. split.
      * intros [Hhit|Hrec].
        -- case_bool_decide as Hsel; [|by apply elem_of_nil in Hhit].
           apply list_elem_of_singleton in Hhit as ->.
           exists 0, pr, n. rewrite Nat.add_0_r. done.
        -- case_decide as Hend; [by apply elem_of_nil in Hrec|].
           apply (IH (S i) (S n) Hrest) in Hrec as (k & p & a & -> & Hp & Ha & Hsel).
           exists (S k), p, a. split; [lia|done].
      * intros ([|k] & p & a & -> & Hp & Ha & Hsel).
        -- injection Hp as <-. rewrite Hpr in Ha. injection Ha as <-.
           left. rewrite bool_decide_eq_true_2 by done.
           rewrite Nat.add_0_r. by apply list_elem_of_singleton.
        -- right. cbn [lookup list_lookup] in Hp.
           pose proof (Hlater (S n) Hrest k p a Hp Ha).
           rewrite decide_False by lia.
           apply (IH (S i) (S n) Hrest). exists k, p, a. split; [lia|done].
    + rewrite app_nil_l. split.
      * intros Hrec. case_decide as Hend; [by apply elem_of_nil in Hrec|].
        apply (IH (S i) n Hseq) in Hrec as (k & p & a & -> & Hp & Ha & Hsel).
        exists (S k), p, a. split; [lia|done].
      * intros ([|k] & p & a & -> & Hp & Ha & Hsel).
        -- injection Hp as <-. by rewrite Hpr in Ha.
        -- cbn [lookup list_lookup] in Hp.
           pose proof (Hlater n Hseq k p a Hp Ha).
           rewrite decide_False by lia.
           apply (IH (S i) n Hseq). exists k, p, a. split; [lia|done].
Qed.

Section Selection.

Variable diffLines : string → string → list Part.
Variable diffChars : string → string → list Part.

Lemma final_pair_side_line enable res p side a :
  final_pair diffChars enable (r_left res) (r_right res) p →
  (if decide (side = "left") then p_left p else p_right p) = Some a →
  ∃ line, side_line side res p = Some line ∧ lineNum line = S a.
Proof.
  intros Hp. unfold side_line, left_line, right_line, deref.
  destruct Hp as [s x y Hx Hy|s t x y Hx Hy|s x Hx|t y Hy];
    destruct (decide (side = "left")); cbn [p_left p_right mbind option_bind];
    intros [= <-]; rewrite ?Hx, ?Hy; by eexists.
Qed.

Lemma final_pair_side_ref enable res p side line :
  final_pair diffChars enable (r_left res) (r_right res) p →
  side_line side res p = Some line →
  (if decide (side = "left") then p_left p else p_right p) = Some (lineNum line - 1).
Proof.
  intros Hp. unfold side_line, left_line, right_line, deref.
  destruct Hp as [s x y Hx Hy|s t x y Hx Hy|s x Hx|t y Hy];
    destruct (decide (side = "left")); cbn [p_left p_right mbind option_bind];
    rewrite ?Hx, ?Hy; intros [= <-]; cbn [lineNum]; f_equal; lia.
Qed.

(** After [compare], the loop selects the index [i] exactly when the pair
    at [i] has a line on the side whose line number lies in the range. *)
Lemma selection_loop_lines (e e' : DiffEngine) (res : DiffResult)
    (leftText rightText side : string) (startLine endLine i : nat) :
  compare diffLines diffChars e leftText rightText = Some (e', res) →
  i ∈ selection_loop side (r_pairs res) 0 0 startLine endLine ↔
  ∃ p line,
    r_pairs res !! i = Some p ∧
    side_line side res p = Some line ∧
    startLine < lineNum line ≤ S endLine.
Proof.
  intros Hcompare. rewrite compare_chunks in Hcompare.
  injection Hcompare as <- <-.
  set (enable := bool_decide _). set (chunks := chunks_of _).
  set (res := chunks_result diffChars enable chunks).
  pose proof (chunks_result_final diffChars enable chunks) as Hfinal. fold res in Hfinal.
  rewrite Forall_lookup in Hfinal.
  rewrite selection_loop_spec.
  - split.
    + intros (k & p & a & -> & Hp & Ha & Hrange).
      destruct (final_pair_side_line enable res p side a (Hfinal _ _ Hp) Ha)
        as (line & Hline & Hnum).
      exists p, line. split; [done|]. split; [done|]. lia.
    + intros (p & line & Hp & Hline & Hrange).
      exists i, p, (lineNum line - 1). split; [done|]. split; [done|].
      split; [by apply (final_pair_side_ref enable res p side line (Hfinal _ _ Hp))|].
      lia.
  - unfold res, chunks_result. cbn [r_pairs]. rewrite filter_out_pairs.
    destruct (decide (side = "left")).
    + rewrite (omap_left_out_live diffChars enable). by rewrite length_seq.
    + rewrite (omap_right_out_live diffChars enable). by rewrite length_seq.
Qed.

End Selection.

(** ** Rendering *)

Lemma render_loop_rows pairs i count :
  i + count ≤ length pairs →
  render_loop pairs i count
  = Some (imap (λ k pr, (i + k, pr)) (take count (drop i pairs))).
Proof.
  revert i. induction count as [|count IH]; intros i Hi; [done|].
  destruct (lookup_lt_is_Some_2 pairs i) as [pr Hpr]; [lia|].
  cbn [render_loop]. rewrite Hpr. cbn [mbind option_bind].
  rewrite IH by lia. cbn [mbind option_bind].
  rewrite (drop_S _ _ _ Hpr). cbn [take]. rewrite imap_cons, Nat.add_0_r.
  do 2 f_equal. apply imap_ext. intros k x _. cbn [compose]. f_equal. lia.
Qed.

Lemma renderChunk_frames fuel pairs c :
  c * chunkSize ≤ length pairs →
  length pairs - c * chunkSize < fuel →
  ∃ frames,
    renderChunk fuel pairs c = Some frames ∧
    concat frames
      = imap (λ k pr, (c * chunkSize + k, pr)) (drop (c * chunkSize) pairs) ∧
    Forall (λ frame, 0 < length frame ≤ chunkSize) frames.
Proof.
  revert c. induction fuel as [|fuel IH]; intros c Hc Hfuel; [lia|].
  cbn [renderChunk]. unfold chunkSize in *.
  destruct (decide (length pairs ≤ c * 500)) as [Hdone|Hmore].
  - exists []. split; [done|]. split; [|constructor].
    by rewrite drop_ge by done.
  - set (start := c * 500) in *.
    rewrite render_loop_rows by lia. cbn [mbind option_bind].
    destruct (decide (S c * 500 < length pairs)) as [Hnext|Hlast].
    + assert (S c * 500 = start + 500) as Hs by (unfold start; lia).
      destruct (IH (S c)) as (frames & -> & Hconcat & Hall); [lia|lia|].
      cbn [mbind option_bind]. eexists. split; [done|].
      replace ((start + 500) `min` length pairs - start) with 500 by lia.
      split.
      * cbn [concat]. rewrite Hconcat, Hs.
        rewrite <- (take_drop 500 (drop start pairs)) at 2.
        rewrite imap_app, drop_drop. f_equal.
        apply imap_ext. intros k x _. f_equal.
        rewrite length_take, length_drop. lia.
      * constructor; [|done].
        rewrite length_imap, length_take, length_drop. lia.
    + assert (S c * 500 = start + 500) as Hs by (unfold start; lia).
      eexists. split; [done|].
      replace ((start + 500) `min` length pairs - start)
        with (length pairs - start) by lia.
      split.
      * cbn [concat]. rewrite app_nil_r.
        by rewrite take_ge by (rewrite length_drop; lia).
      * constructor; [|done].
        rewrite length_imap, length_take, length_drop. lia.
Qed.

Lemma renderDiffOptimized_plan (app : App) (res : DiffResult) :
  getResult (diffEngine app) = Some res →
  ∃ r,
    renderDiffOptimized app = Some r ∧
    rendered_rows r = imap (λ index pr, (index, pr)) (shown_pairs app res) ∧
    match r with
    | Cleared => r_pairs res = []
    | NoMatch => r_pairs res ≠ [] ∧ shown_pairs app res = []
    | Direct _ enableSyntax =>
        0 < length (shown_pairs app res) < 1000 ∧
        (enableSyntax = true ↔ length (shown_pairs app res) < 500)
    | Chunked frames =>
        1000 ≤ length (shown_pairs app res) ∧
        Forall (λ frame, 0 < length frame ≤ chunkSize) frames
    end.
Proof.
  intros Hres. unfold renderDiffOptimized. rewrite Hres.
  destruct (decide (length (r_pairs res) = 0)) as [Hempty|Hpairs].
  - apply length_zero_iff_nil in Hempty. eexists. split; [done|].
    unfold shown_pairs. rewrite Hempty. done.
  - assert (r_pairs res ≠ []) as Hne by (intros Hnil; by rewrite Hnil in Hpairs).
    set (pairs := shown_pairs app res).
    destruct (decide (length pairs = 0)) as [Hnone|Hsome].
    + apply length_zero_iff_nil in Hnone. eexists. split; [done|].
      rewrite Hnone. done.
    + destruct (decide (length pairs < 1000)) as [Hsmall|Hlarge].
      * eexists. split; [done|]. split; [done|]. split; [lia|].
        apply bool_decide_eq_true.
      * unfold renderDiffChunked.
        destruct (renderChunk_frames (S (length pairs)) pairs 0)
          as (frames & -> & Hconcat & Hall); [lia|lia|].
        eexists. split; [done|]. cbn [rendered_rows].
        split; [by rewrite Hconcat|]. split; [lia|done].
Qed.

(** X14: whatever the result and the filter are, [renderDiffOptimized] puts
    every pair that passes the filter on the display exactly once, in the
    order of the result, with its position among the shown pairs as
    [data-index].  It clears the display only when the result has no pair;
    it renders directly below 1000 shown pairs, with syntax colours below
    500; from 1000 shown pairs on it renders in frames of at most 500
    rows, none of them empty. *)
Theorem renderDiffOptimized_rows (app : App) (res : DiffResult) :
  getResult (diffEngine app) = Some res →
  ∃ r,
    renderDiffOptimized app = Some r ∧
    rendered_rows r = imap (λ index pr, (index, pr)) (shown_pairs app res) ∧
    match r with
    | Cleared => r_pairs res = []
    | NoMatch => r_pairs res ≠ [] ∧ shown_pairs app res = []
    | Direct _ enableSyntax =>
        0 < length (shown_pairs app res) < 1000 ∧
        (enableSyntax = true ↔ length (shown_pairs app res) < 500)
    | Chunked frames =>
        1000 ≤ length (shown_pairs app res) ∧
        Forall (λ frame, 0 < length frame ≤ chunkSize) frames
    end.
Proof. apply renderDiffOptimized_plan. Qed.

(** The three changes of the sample diff under the filter ['diff']. *)
Lemma renderDiffOptimized_rows_witness :
  ∃ e' res,
    compare three_changes_diff replace_all_diff new_DiffEngine "" "" = Some (e', res) ∧
    let app := mkApp e' "diff" None in
    getResult (diffEngine app) = Some res ∧
    ∃ r,
      renderDiffOptimized app = Some r ∧
      rendered_rows r = imap (λ index pr, (index, pr)) (shown_pairs app res) ∧
      match r with
      | Cleared => r_pairs res = []
      | NoMatch => r_pairs res ≠ [] ∧ shown_pairs app res = []
      | Direct _ enableSyntax =>
          0 < length (shown_pairs app res) < 1000 ∧
          (enableSyntax = true ↔ length (shown_pairs app res) < 500)
      | Chunked frames =>
          1000 ≤ length (shown_pairs app res) ∧
          Forall (λ frame, 0 < length frame ≤ chunkSize) frames
      end.
Proof.
  eexists _, _. split; [vm_compute; reflexivity|].
  intros app. split; [reflexivity|].
  apply (renderDiffOptimized_rows app). reflexivity.
Defined.

(** ** The selection on the display *)

Lemma row_with_index_imap (l : list Pair) i :
  row_with_index (imap (λ index pr, (index, pr)) l) i
  = imap (λ index pr, (index, pr)) l !! i.
Proof.
  unfold row_with_index. rewrite list_lookup_imap.
  destruct (l !! i) as [p|] eqn:Hp.
  - assert (list_find (λ row : nat * Pair, row.1 = i)
              (imap (λ index pr, (index, pr)) l) = Some (i, (i, p))) as ->; [|done].
    apply list_find_Some. split; [by rewrite list_lookup_imap, Hp|].
    split; [done|]. intros j row Hrow Hj.
    rewrite list_lookup_imap in Hrow.
    destruct (l !! j); [|done]. injection Hrow as <-. simpl. lia.
  - assert (list_find (λ row : nat * Pair, row.1 = i)
              (imap (λ index pr, (index, pr)) l) = None) as ->; [|done].
    apply list_find_None, Forall_forall. intros row Hrow.
    apply elem_of_lookup_imap in Hrow as (k & q & -> & Hq).
    apply lookup_lt_Some in Hq. apply lookup_ge_None in Hp. simpl. lia.
Qed.

Lemma omap_ext_fun {A B} (f g : A → option B) (l : list A) :
  (∀ x, f x = g x) → omap f l = omap g l.
Proof.
  intros Hfg. apply list_omap_ext, Forall2_same_length_lookup_2; [done|].
  intros i x y Hx Hy. rewrite Hx in Hy. injection Hy as <-. apply Hfg.
Qed.

Section SelectionDisplay.

Variable diffLines : string → string → list Part.
Variable diffChars : string → string → list Part.

(** X13: after [compare] and the rendering of its result under a filter
    that shows all the pairs, a non-empty selection in the text area of a
    side marks the same rows and line-number cells, and a row of the
    display is marked exactly when its pair has a line on this side whose
    line number lies between the line of the selection start and the line
    of the selection end, counted from 1 as the engine numbers the lines. *)
Theorem handleSelectionChange_lines (e e' : DiffEngine) (res : DiffResult)
    (leftText rightText filter side textBefore textSelected : string)
    (cur : option Z) :
  compare diffLines diffChars e leftText rightText = Some (e', res) →
  textSelected ≠ "" →
  filter ≠ "diff" → filter ≠ "same" →
  ∃ r,
    renderDiffOptimized (mkApp e' filter cur) = Some r ∧
    let selected :=
      handleSelectionChange (mkApp e' filter cur) (rendered_rows r)
        side textBefore textSelected in
    selected.2 = selected.1 ∧
    ∀ i p,
      (i, p) ∈ selected.1 ↔
      (i, p) ∈ rendered_rows r ∧
      ∃ line,
        side_line side res p = Some line ∧
        count_LF textBefore < lineNum line
          ≤ count_LF textBefore + count_LF textSelected + 1.
Proof.
  intros Hcompare Hsel Hd Hs.
  assert (getResult (diffEngine (mkApp e' filter cur)) = Some res) as Hres.
  { pose proof Hcompare as Hc. rewrite compare_chunks in Hc.
    by injection Hc as <- <-. }
  destruct (renderDiffOptimized_plan _ _ Hres) as (r & Hr & Hrows & _).
  rewrite shown_pairs_other in Hrows by done.
  exists r. split; [done|].
  unfold handleSelectionChange. rewrite decide_False, Hres, Hrows by done.
  cbn [fst snd].
  split; [symmetry; apply omap_ext_fun, row_with_index_imap|].
  intros i p. rewrite (omap_ext_fun _ _ _ (row_with_index_imap (r_pairs res))).
  rewrite list_elem_of_omap. split.
  - intros (j & Hj & Hrow). rewrite list_lookup_imap in Hrow.
    destruct (r_pairs res !! j) as [q|] eqn:Hq; [|done].
    injection Hrow as <- <-.
    apply (selection_loop_lines diffLines diffChars e e' res leftText rightText)
      in Hj as (p' & line & Hp' & Hline & Hrange); [|done].
    rewrite Hq in Hp'. injection Hp' as <-.
    split; [by apply elem_of_lookup_imap; exists j, q|].
    exists line. split; [done|]. lia.
  - intros [Hrow (line & Hline & Hrange)].
    apply elem_of_lookup_imap in Hrow as (j & q & [= -> ->] & Hq).
    exists j. split; [|by rewrite list_lookup_imap, Hq].
    apply (selection_loop_lines diffLines diffChars e e' res leftText rightText);
      [done|].
    exists q, line. split; [done|]. split; [done|]. lia.
Qed.

End SelectionDisplay.

(** A selection that starts in the first line and ends in the second line
    of the left text area, under the filter ['all']. *)
Lemma handleSelectionChange_lines_witness :
  ∃ e' res,
    compare three_changes_diff replace_all_diff new_DiffEngine "" "" = Some (e', res) ∧
    ("a" +:+ nl +:+ "b") ≠ "" ∧ "all" ≠ "diff" ∧ "all" ≠ "same" ∧
    ∃ r,
      renderDiffOptimized (mkApp e' "all" None) = Some r ∧
      let selected :=
        handleSelectionChange (mkApp e' "all" None) (rendered_rows r)
          "left" "" ("a" +:+ nl +:+ "b") in
      selected.2 = selected.1 ∧
      ∀ i p,
        (i, p) ∈ selected.1 ↔
        (i, p) ∈ rendered_rows r ∧
        ∃ line,
          side_line "left" res p = Some line ∧
          count_LF "" < lineNum line
            ≤ count_LF "" + count_LF ("a" +:+ nl +:+ "b") + 1.
Proof.
  eexists _, _. split; [vm_compute; reflexivity|].
  split; [done|]. split; [done|]. split; [done|].
  apply (handleSelectionChange_lines three_changes_diff replace_all_diff
           new_DiffEngine _ _ "" "" "all" "left" "" ("a" +:+ nl +:+ "b") None);
    [vm_compute; reflexivity|done|done|done].
Defined.

(** ** Navigation on the display *)

Section Scroll.

Variable diffLines : string → string → list Part.
Variable diffChars : string → string → list Part.

(** X15: after [compare], under a filter that shows all the pairs, the row of
    the display that [navigateDiff] scrolls to (the row whose [data-index]
    is the [startIndex] of the block) exists and shows the first pair of
    the block. *)
Theorem navigateDiff_scrolls_to_block (e e' : DiffEngine) (res : DiffResult)
    (leftText rightText filter : string) (cur : option Z) (direction : Z) :
  compare diffLines diffChars e leftText rightText = Some (e', res) →
  getDiffBlocks e' ≠ [] →
  filter ≠ "diff" → filter ≠ "same" →
  ∃ app' b p r,
    navigateDiff (mkApp e' filter cur) direction = (app', Shown b) ∧
    renderDiffOptimized (mkApp e' filter cur) = Some r ∧
    rendered_rows r !! startIndex b = Some (startIndex b, p) ∧
    head (b_pairs b) = Some p ∧
    isDiff res p = true.
Proof.
  intros Hcompare Hne Hd Hs.
  destruct (navigateDiff_block diffLines diffChars e e' res leftText rightText
              filter cur direction Hcompare Hne)
    as (app' & b & p & Hnav & Hp & Hhead & Hdiff & _).
  assert (getResult (diffEngine (mkApp e' filter cur)) = Some res) as Hres.
  { rewrite compare_chunks in Hcompare. by injection Hcompare as <- <-. }
  destruct (renderDiffOptimized_plan _ _ Hres) as (r & Hr & Hrows & _).
  exists app', b, p, r. split; [done|]. split; [done|]. split; [|done].
  rewrite Hrows, shown_pairs_other by done.
  by rewrite list_lookup_imap, Hp.
Qed.

End Scroll.

(** The first navigation forward after a comparison with three blocks,
    under the filter ['all']. *)
Lemma navigateDiff_scrolls_to_block_witness :
  ∃ e' res,
    compare three_changes_diff replace_all_diff new_DiffEngine "" "" = Some (e', res) ∧
    getDiffBlocks e' ≠ [] ∧
    "all" ≠ "diff" ∧ "all" ≠ "same" ∧
    ∃ app' b p r,
      navigateDiff (mkApp e' "all" (Some (-1)%Z)) 1 = (app', Shown b) ∧
      renderDiffOptimized (mkApp e' "all" (Some (-1)%Z)) = Some r ∧
      rendered_rows r !! startIndex b = Some (startIndex b, p) ∧
      head (b_pairs b) = Some p ∧
      isDiff res p = true.
Proof.
  eexists _, _. split; [vm_compute; reflexivity|].
  split; [by vm_compute|]. split; [done|]. split; [done|].
  apply (navigateDiff_scrolls_to_block three_changes_diff replace_all_diff
           new_DiffEngine _ _ "" "" "all" (Some (-1)%Z) 1%Z);
    [vm_compute; reflexivity|by vm_compute|done|done].
Defined.

(** * Properties of the highlighter *)

Lemma string_app_nil_r (a : string) : a +:+ "" = a.
Proof.
  induction a as [|x a IH]; [done|].
  change (String x (a +:+ "") = String x a). by rewrite IH.
Qed.

Lemma string_length_app (a b : string) :
  String.length (a +:+ b) = String.length a + String.length b.
Proof.
  induction a as [|x a IH]; [done|].
  change (S (String.length (a +:+ b)) = S (String.length a) + String.length b).
  by rewrite IH.
Qed.

Lemma String_concat_cons v vals :
  String.concat "" (v :: vals) = v +:+ String.concat "" vals.
Proof. destruct vals; [by rewrite string_app_nil_r|done]. Qed.

Lemma strip_tags_text s r :
  no_tag_open s = true → strip_tags false (s +:+ r) = s +:+ strip_tags false r.
Proof.
  induction s as [|c s IH]; [done|].
  cbn [no_tag_open]. intros [Hc Hs]%andb_true_iff.
  change (String c s +:+ r) with (String c (s +:+ r)).
  cbn [strip_tags]. apply negb_true_iff in Hc. rewrite Hc, IH by done. done.
Qed.

Lemma escape_sample_app a b :
  escape_sample (a +:+ b) = escape_sample a +:+ escape_sample b.
Proof.
  induction a as [|c a IH]; [done|].
  change (String c a +:+ b) with (String c (a +:+ b)).
  cbn [escape_sample]. by rewrite IH, string_app_assoc.
Qed.

Lemma escape_sample_no_tag a : no_tag_open (escape_sample a) = true.
Proof.
  induction a as [|c a IH]; [done|]. cbn [escape_sample].
  destruct (Ascii.eqb c "&"); [done|].
  destruct (Ascii.eqb c "<") eqn:Hlt; [done|].
  destruct (Ascii.eqb c ">"); [done|].
  change (String c "" +:+ escape_sample a) with (String c (escape_sample a)).
  cbn [no_tag_open]. by rewrite Hlt, IH.
Qed.

Section HighlighterText.

Variable dom_escape : string → string.
Variable highlightLine : string → option string → string.

Hypothesis dom_escape_app :
  ∀ a b, dom_escape (a +:+ b) = dom_escape a +:+ dom_escape b.
Hypothesis dom_escape_no_tag : ∀ a, no_tag_open (dom_escape a) = true.

Lemma dom_escape_empty : dom_escape "" = "".
Proof.
  pose proof (dom_escape_app "" "") as H.
  apply (f_equal String.length) in H. rewrite string_length_app in H.
  change ("" +:+ "") with "" in H.
  destruct (dom_escape "") as [|c s]; [done|]. simpl in H. lia.
Qed.

Lemma escapeHtml_dom text : escapeHtml dom_escape text = dom_escape text.
Proof.
  unfold escapeHtml. case_decide as Htext; [|done].
  by rewrite Htext, dom_escape_empty.
Qed.

Lemma highlight_step_acc result part :
  highlight_step dom_escape result part
  = result +:+ highlight_step dom_escape "" part.
Proof. unfold highlight_step. by destruct (span_type part). Qed.

Lemma highlight_fold parts result :
  fold_left (highlight_step dom_escape) parts result
  = result +:+ fold_left (highlight_step dom_escape) parts "".
Proof.
  revert result. induction parts as [|part parts IH]; intros result.
  - by rewrite string_app_nil_r.
  - cbn [fold_left]. rewrite IH, (IH (highlight_step _ "" part)).
    by rewrite highlight_step_acc, string_app_assoc.
Qed.

Lemma visible_highlight_step part rest :
  visible_text (highlight_step dom_escape "" part +:+ rest)
  = dom_escape (span_text part) +:+ visible_text rest.
Proof.
  unfold visible_text, highlight_step. rewrite escapeHtml_dom.
  destruct (span_type part).
  - change ("" +:+ dom_escape (span_text part)) with (dom_escape (span_text part)).
    by apply strip_tags_text.
  - rewrite !string_app_assoc.
    change (strip_tags false (dom_escape (span_text part) +:+ "</span>" +:+ rest)
            = dom_escape (span_text part) +:+ strip_tags false rest).
    by rewrite strip_tags_text.
  - rewrite !string_app_assoc.
    change (strip_tags false (dom_escape (span_text part) +:+ "</span>" +:+ rest)
            = dom_escape (span_text part) +:+ strip_tags false rest).
    by rewrite strip_tags_text.
  - change ("" +:+ dom_escape (span_text part)) with (dom_escape (span_text part)).
    by apply strip_tags_text.
Qed.

Lemma visible_highlight_fold parts :
  visible_text (fold_left (highlight_step dom_escape) parts "")
  = dom_escape (String.concat "" (span_text <$> parts)).
Proof.
  induction parts as [|part parts IH].
  - change (dom_escape (String.concat "" (span_text <$> []))) with (dom_escape "").
    by rewrite dom_escape_empty.
  - cbn [fold_left]. rewrite highlight_fold, highlight_step_acc.
    change ("" +:+ highlight_step dom_escape "" part)
      with (highlight_step dom_escape "" part).
    rewrite visible_highlight_step, IH, fmap_cons, String_concat_cons.
    by rewrite dom_escape_app.
Qed.

(** X16: when the serialisation of a text node distributes over concatenation
    and produces no [<], the HTML that [highlightWithDiff] builds for a line
    whose character diff is not empty and adds up to the content of the line
    shows, once the tags are taken out, the escaped content of the line:
    the markers of the character diff add nothing to the text and drop
    nothing from it. *)
Theorem highlightWithDiff_text (line : Line) (spans : list CharSpan)
    (language : option string) :
  charDiff line = Some spans →
  spans ≠ [] →
  spans_cover line →
  visible_text (highlightWithDiff dom_escape highlightLine (content line)
                  (charDiff line) language)
  = escapeHtml dom_escape (content line).
Proof.
  intros Hcd Hne Hcover. unfold spans_cover in Hcover. rewrite Hcd in *.
  unfold highlightWithDiff. destruct spans as [|part spans]; [done|].
  by rewrite visible_highlight_fold, Hcover, escapeHtml_dom.
Qed.

End HighlighterText.

(** A modified line with a removed piece that holds a [<]. *)
Lemma highlightWithDiff_text_witness :
  let spans := [mkCharSpan "a" Unchanged; mkCharSpan "<b" Removed;
                mkCharSpan "c" Unchanged] in
  let line := mkLine 1 "a<bc" Modified (Some spans) in
  ((∀ a b, escape_sample (a +:+ b) = escape_sample a +:+ escape_sample b) ∧
   (∀ a, no_tag_open (escape_sample a) = true) ∧
   charDiff line = Some spans ∧ spans ≠ [] ∧ spans_cover line) ∧
  visible_text (highlightWithDiff escape_sample (λ code _, code) (content line)
                  (charDiff line) None)
  = escapeHtml escape_sample (content line).
Proof.
  intros spans line. split.
  - split; [apply escape_sample_app|]. split; [apply escape_sample_no_tag|].
    split; [reflexivity|]. split; [discriminate|reflexivity].
  - apply (highlightWithDiff_text escape_sample (λ code _, code)
             escape_sample_app escape_sample_no_tag line spans None);
      [reflexivity|discriminate|reflexivity].
Defined.
